(** * Envios masivos (Modelo 347): the matching and dispatch core of app.py

    A shallow embedding of [normalize], [split_pdf_by_cif], [run_matching] and
    the dispatch loop of the send button, with the properties of the
    specification stated and settled against them.

    Text.  A Python [str] is modelled by [string], one character per code
    point, for code points 0..255 (ASCII and the Latin-1 supplement, which
    holds the accented letters of Spanish).  [str.lower], the regex classes
    [\w], [\s], [\b] and [str.strip] follow CPython's Unicode tables on that
    range.

    Libraries.  What the program calls outside itself is a parameter or a
    small model of its documented behaviour: the scorer
    [fuzz.token_sort_ratio] is a parameter and [process.extractOne] returns
    the first choice of highest score; a PDF is the list of the texts of its
    pages; a DataFrame is the list of its rows; the transport, the clock and
    the operator are a [world] the dispatch loop runs in. *)

From Stdlib Require Import List Bool Arith Lia String Ascii Sorted.
From Stdlib Require Import QArith Lqa.
From Stdlib Require Import DecimalString.
From Stdlib Require DecimalNat.
Import ListNotations.

Local Open Scope string_scope.
Local Open Scope list_scope.
Local Open Scope nat_scope.

(** ** Characters *)

Module Char.

Definition code (c : ascii) : nat := nat_of_ascii c.

Definition between (lo hi : nat) (c : ascii) : bool :=
  (lo <=? code c) && (code c <=? hi).

(** [str.lower] on one code point: A-Z, and the capital letters U+00C0 to
    U+00DE apart from the multiplication sign U+00D7. *)
Definition is_upper (c : ascii) : bool :=
  between 65 90 c || (between 192 222 c && negb (code c =? 215)).

Definition lower (c : ascii) : ascii :=
  if is_upper c then ascii_of_nat (code c + 32) else c.

(** [\w] of a str pattern: alphanumeric code points and the underscore. *)
Definition is_word (c : ascii) : bool :=
  between 48 57 c || between 65 90 c || between 97 122 c || (code c =? 95)
  || (code c =? 170) || (code c =? 178) || (code c =? 179) || (code c =? 181)
  || (code c =? 185) || (code c =? 186) || between 188 190 c
  || between 192 214 c || between 216 246 c || between 248 255 c.

(** [\s] and the characters [str.strip] removes: tab to carriage return, the
    four separators U+001C..U+001F, space, U+0085 and U+00A0. *)
Definition is_space (c : ascii) : bool :=
  between 9 13 c || between 28 32 c || (code c =? 133) || (code c =? 160).

Definition one_of (set : string) (c : ascii) : bool :=
  existsb (Ascii.eqb c) (list_ascii_of_string set).

End Char.

(** ** Strings: the operations of [str] the program uses *)

Module Str.

Definition chars := list ascii.

Definition lower (s : chars) : chars := map Char.lower s.

Fixpoint lstrip (s : chars) : chars :=
  match s with
  | c :: s' => if Char.is_space c then lstrip s' else s
  | [] => []
  end.

Definition rstrip (s : chars) : chars := rev (lstrip (rev s)).

Definition strip (s : chars) : chars := rstrip (lstrip s).

Fixpoint starts_with (p s : chars) : bool :=
  match p, s with
  | [], _ => true
  | a :: p', b :: s' => Ascii.eqb a b && starts_with p' s'
  | _ :: _, [] => false
  end.

(** [needle in hay] *)
Fixpoint contains (needle hay : chars) : bool :=
  starts_with needle hay ||
  match hay with
  | [] => false
  | _ :: hay' => contains needle hay'
  end.

(** [s.split(sep)] for a one-character separator: never an empty list. *)
Fixpoint split (sep : ascii) (s : chars) : list chars :=
  match s with
  | [] => [[]]
  | c :: s' =>
      if Ascii.eqb c sep then [] :: split sep s'
      else match split sep s' with
           | l :: ls => (c :: l) :: ls
           | [] => [[c]]
           end
  end.

Definition is_empty (s : chars) : bool :=
  match s with [] => true | _ => false end.

Definition eqb (a b : chars) : bool :=
  String.eqb (string_of_list_ascii a) (string_of_list_ascii b).

End Str.

(** ** Regular expressions: the fragment of [re] the program's patterns use *)

Module Re.

Inductive regex : Type :=
| Eps                             (* the empty pattern *)
| Lit (c : ascii)                 (* a literal character *)
| CharSet (p : ascii -> bool)     (* a class: [...] or \s *)
| WordBoundary                    (* \b *)
| Cat (r1 r2 : regex)
| Alt (r1 r2 : regex)             (* r1|r2, r1 tried first *)
| Plus (p : ascii -> bool).       (* C+ for a class C, greedy *)

(** A literal string as a concatenation of its characters. *)
Fixpoint lit (s : list ascii) : regex :=
  match s with
  | [] => Eps
  | [c] => Lit c
  | c :: s' => Cat (Lit c) (lit s')
  end.

Definition word_opt (c : option ascii) : bool :=
  match c with Some x => Char.is_word x | None => false end.

(** [\b]: exactly one of the characters around the position is a word
    character; the ends of the text count as non-word. *)
Definition at_boundary (prev : option ascii) (s : list ascii) : bool :=
  xorb (word_opt prev) (word_opt (hd_error s)).

(** With IGNORECASE a literal matches the characters of the same lowercase. *)
Definition lit_matches (ignorecase : bool) (p c : ascii) : bool :=
  if ignorecase then Ascii.eqb (Char.lower c) (Char.lower p) else Ascii.eqb c p.

(** A position while matching: characters consumed so far, the character just
    before the position, and the text from the position on. *)
Definition pos : Type := nat * option ascii * list ascii.

Fixpoint plus_ends (p : ascii -> bool) (n : nat) (s : list ascii) : list pos :=
  match s with
  | c :: s' => if p c then plus_ends p (S n) s' ++ [(S n, Some c, s')] else []
  | [] => []
  end.

(** All the ways [r] matches at a position, in the order a backtracking
    matcher tries them. *)
Fixpoint ends (ic : bool) (r : regex) (st : pos) : list pos :=
  let '(n, prev, s) := st in
  match r with
  | Eps => [st]
  | Lit p =>
      match s with
      | c :: s' => if lit_matches ic p c then [(S n, Some c, s')] else []
      | [] => []
      end
  | CharSet p =>
      match s with
      | c :: s' => if p c then [(S n, Some c, s')] else []
      | [] => []
      end
  | WordBoundary => if at_boundary prev s then [st] else []
  | Cat r1 r2 => flat_map (ends ic r2) (ends ic r1 st)
  | Alt r1 r2 => ends ic r1 st ++ ends ic r2 st
  | Plus p => plus_ends p n s
  end.

(** Length of the match of [r] at the start of [s], [prev] being the
    character before it. *)
Definition match_at (ic : bool) (r : regex) (prev : option ascii)
    (s : list ascii) : option nat :=
  match ends ic r (0, prev, s) with
  | (n, _, _) :: _ => Some n
  | [] => None
  end.

(** [pattern.sub(repl, s)]: leftmost matches, left to right, without
    overlap.  [skip] counts the characters of the current match still to
    drop.  None of the program's patterns matches the empty string, so an
    empty match is not replaced. *)
Fixpoint sub_from (ic : bool) (r : regex) (repl : list ascii)
    (prev : option ascii) (skip : nat) (s : list ascii) : list ascii :=
  match s with
  | [] => []
  | c :: s' =>
      match skip with
      | S k => sub_from ic r repl (Some c) k s'
      | O =>
          match match_at ic r prev s with
          | Some (S k) => repl ++ sub_from ic r repl (Some c) k s'
          | _ => c :: sub_from ic r repl (Some c) 0 s'
          end
      end
  end.

Definition sub (ic : bool) (r : regex) (repl s : list ascii) : list ascii :=
  sub_from ic r repl None 0 s.

End Re.

(** ** normalize *)

Definition L (s : string) : list ascii := list_ascii_of_string s.

(** [re.compile(r"\b(s\.l\.u\.|slu|s\.l\.|sl|s\.a\.|sa)\b", re.IGNORECASE)] *)
Definition _LEGAL_SUFFIXES : Re.regex :=
  Re.Cat Re.WordBoundary
    (Re.Cat
       (Re.Alt (Re.lit (L "s.l.u."))
       (Re.Alt (Re.lit (L "slu"))
       (Re.Alt (Re.lit (L "s.l."))
       (Re.Alt (Re.lit (L "sl"))
       (Re.Alt (Re.lit (L "s.a."))
               (Re.lit (L "sa")))))))
       Re.WordBoundary).

(** [re.compile(r"[.,;:()\-_/\\]+")] *)
Definition is_punct (c : ascii) : bool := Char.one_of ".,;:()-_/\" c.
Definition _PUNCTUATION : Re.regex := Re.Plus is_punct.

(** [re.compile(r"\s+")] *)
Definition _SPACES : Re.regex := Re.Plus Char.is_space.

Definition normalize_chars (text : list ascii) : list ascii :=
  let text := Str.lower text in
  let text := Re.sub true _LEGAL_SUFFIXES [] text in
  let text := Re.sub false _PUNCTUATION (L " ") text in
  let text := Re.sub false _SPACES (L " ") text in
  Str.strip text.

Definition normalize (text : string) : string :=
  string_of_list_ascii (normalize_chars (list_ascii_of_string text)).


(** ** Python values the program handles *)

(** A [dict] with [str] keys: insertion order is kept, and assigning to a key
    that is present replaces its value in place. *)
Module Dict.
Section Dict.
Context {V : Type}.

Definition t : Type := list (string * V).

Definition empty : t := [].

Fixpoint set (k : string) (v : V) (d : t) : t :=
  match d with
  | [] => [(k, v)]
  | (k', v') :: d' =>
      if String.eqb k' k then (k', v) :: d' else (k', v') :: set k v d'
  end.

Fixpoint get (k : string) (d : t) : option V :=
  match d with
  | [] => None
  | (k', v') :: d' => if String.eqb k' k then Some v' else get k d'
  end.

Definition keys (d : t) : list string := map fst d.

(** A value of type [dict] has no key twice. *)
Definition wf (d : t) : Prop := NoDup (keys d).

End Dict.
Arguments t : clear implicits.
End Dict.

(** Exceptions the modelled code can raise. *)
Inductive exn : Type :=
| KeyError (row : nat).    (* df.at[idx, col] with no row labelled idx *)

Inductive result (A : Type) : Type :=
| Ok (a : A)
| Raise (e : exn).
Arguments Ok {A} a.
Arguments Raise {A} e.

Definition bind {A B : Type} (m : result A) (f : A -> result B) : result B :=
  match m with
  | Ok a => f a
  | Raise e => Raise e
  end.

Notation "x <- m ;; k" := (bind m (fun x => k))
  (at level 61, m at next level, right associativity).

(** [f"{n:03d}"]: decimal, padded with zeros on the left to three digits. *)
Definition decimal (n : nat) : string := NilEmpty.string_of_uint (Nat.to_uint n).

Definition format_03d (n : nat) : string :=
  let s := decimal n in
  string_of_list_ascii (repeat "0"%char (3 - String.length s)) ++ s.

(** ** split_pdf_by_cif *)

(** A PDF as the program sees it: the text of each page, [doc[i].get_text()]. *)
Definition pdf_doc : Type := list string.

(** The document [insert_pdf(doc, from_page, to_page)] builds and saves: the
    pages [from_page .. to_page] of the source, both ends included. *)
Record letter : Type := mkLetter { from_page : nat; to_page : nat }.

Definition page_text (doc : pdf_doc) (i : nat) : string := nth i doc "".

(** [[i for i in range(len(doc)) if cif in doc[i].get_text()]] *)
Definition indices_inicio (doc : pdf_doc) (cif : string) : list nat :=
  filter (fun i => Str.contains (L cif) (L (page_text doc i)))
         (seq 0 (List.length doc)).

(** [[l.strip() for l in texto.split("
") if l.strip()]] *)
Definition lineas_of (texto : string) : list Str.chars :=
  map Str.strip
      (filter (fun l => negb (Str.is_empty (Str.strip l)))
              (Str.split "010"%char (L texto))).

(** The loop over [enumerate(lineas)] that looks for the client's name.
    [lineas] is the list from the current line on, so [lineas[i + 1]] is the
    head of its tail; the result is [nombre_cliente] when the loop ends. *)
Fixpoint scan_lineas (cif : Str.chars) (nombre_cliente : Str.chars)
    (lineas : list Str.chars) : Str.chars :=
  match lineas with
  | [] => nombre_cliente
  | linea :: rest =>
      let pattern_a :=
        Str.contains (L "ejercicio") (Str.lower linea)
        && Str.contains (L "es de:") (Str.lower linea) in
      let a_yields :=
        match rest with
        | next :: _ => negb (Str.eqb (Str.lower next) (L "euros"))
        | [] => false
        end in
      if pattern_a && a_yields then hd [] rest
      else
        let pattern_b :=
          Str.contains cif linea && Str.is_empty nombre_cliente in
        let b_yields :=
          match rest with
          | candidato :: _ =>
              negb (Str.contains (L "Muy Sr") candidato)
              && negb (Str.contains (L "URANO") candidato)
          | [] => false
          end in
        if pattern_b && b_yields then hd [] rest
        else scan_lineas cif nombre_cliente rest
  end.

(** [f"Cliente_{idx + 1:03d}"] *)
Definition cliente_default (idx : nat) : string := "Cliente_" ++ format_03d (idx + 1).

(** The cleaning of the name: [re.sub] deletes every character of the set
    (backslash, slash, star, question mark, colon, double quote, angle
    brackets, bar), then [.strip()[:80]]. *)
Definition is_illegal (c : ascii) : bool :=
  Char.one_of "\/*?:<>|" c || Ascii.eqb c (ascii_of_nat 34).

Definition limpiar (nombre_cliente : Str.chars) : Str.chars :=
  firstn 80 (Str.strip (Re.sub false (Re.CharSet is_illegal) [] nombre_cliente)).

(** The name found on the first page of a letter, before cleaning. *)
Definition nombre_cliente_of (cif texto : string) (idx : nat) : Str.chars :=
  let nombre_cliente := scan_lineas (L cif) [] (lineas_of texto) in
  if Str.is_empty nombre_cliente then L (cliente_default idx) else nombre_cliente.

(** The key under which letter [idx] is stored. *)
Definition nombre_limpio_of (cif texto : string) (idx : nat) : string :=
  let nombre_limpio := limpiar (nombre_cliente_of cif texto idx) in
  if Str.is_empty nombre_limpio then cliente_default idx
  else string_of_list_ascii nombre_limpio.

Definition end_page_of (doc : pdf_doc) (indices : list nat) (idx : nat) : nat :=
  if idx + 1 <? List.length indices then nth (idx + 1) indices 0 - 1
  else List.length doc - 1.

(** One turn of [for idx, start_page in enumerate(indices_inicio)]. *)
Definition split_step (doc : pdf_doc) (cif : string) (indices : list nat)
    (pdf_dict : Dict.t letter) (it : nat * nat) : Dict.t letter :=
  let '(idx, start_page) := it in
  let end_page := end_page_of doc indices idx in
  let nombre_limpio := nombre_limpio_of cif (page_text doc start_page) idx in
  Dict.set nombre_limpio (mkLetter start_page end_page) pdf_dict.

Definition enumerate {A : Type} (l : list A) : list (nat * A) :=
  combine (seq 0 (List.length l)) l.

Definition split_pdf_by_cif (doc : pdf_doc) (cif : string) : Dict.t letter :=
  let indices := indices_inicio doc cif in
  match indices with
  | [] => Dict.empty
  | _ => fold_left (split_step doc cif indices) (enumerate indices) Dict.empty
  end.

(** ** run_matching *)

(** A cell of the spreadsheet as pandas hands it over, and [str] of it. *)
Inductive cell : Type :=
| Text (s : string)
| Int (z : Z)
| NaN.

Definition str (c : cell) : string :=
  match c with
  | Text s => s
  | Int z => NilEmpty.string_of_int (Z.to_int z)
  | NaN => "nan"
  end.

(** A row of the DataFrame; rows are labelled 0, 1, 2, ... by their position
    (the caller resets the index). *)
Record row : Type := mkRow { Nombre : cell; Email : cell; Direccion : cell }.

Definition dataframe : Type := list row.

(** [df.at[idx, col]] *)
Definition at_ (df : dataframe) (idx : nat) (col : row -> cell) : result cell :=
  match nth_error df idx with
  | Some r => Ok (col r)
  | None => Raise (KeyError idx)
  end.

Inductive matched_by_t : Type := ByNombre | ByDireccion.

(** An entry of [matches]. *)
Record match_t : Type := mkMatch {
  pdf_name : string;
  cliente : string;
  email : string;
  score : Q;
  matched_by : matched_by_t;
  selected : bool;
  row_idx : nat
}.

Section Matching.

(** [fuzz.token_sort_ratio], the scorer of the rapidfuzz library. *)
Variable token_sort_ratio : string -> string -> Q.

(** [process.extractOne(query, choices, scorer=...)] of rapidfuzz: the first
    choice that reaches the highest score, with its score and its index, and
    [None] when no choice reaches the default cutoff 0.  [result] is the best
    triple so far, [key] the index of the head of [choices]. *)
Fixpoint extractOne_from (scorer : string -> string -> Q) (query : string)
    (key : nat) (choices : list string) (result : option (string * Q * nat))
    : option (string * Q * nat) :=
  match choices with
  | [] => result
  | choice :: rest =>
      let sc := scorer query choice in
      let better :=
        match result with
        | None => Qle_bool 0 sc
        | Some (_, best, _) => negb (Qle_bool sc best)
        end in
      extractOne_from scorer query (S key) rest
        (if better then Some (choice, sc, key) else result)
  end.

Definition extractOne (scorer : string -> string -> Q) (query : string)
    (choices : list string) : option (string * Q * nat) :=
  extractOne_from scorer query 0 choices None.

(** [result and result[1] >= 80]: the score and the index of a result that
    is accepted. *)
Definition accepted (r : option (string * Q * nat)) : option (Q * nat) :=
  match r with
  | Some (_, sc, idx) => if Qle_bool 80 sc then Some (sc, idx) else None
  | None => None
  end.

Definition nombres_norm_of (df : dataframe) : list string :=
  map (fun r => normalize (str (Nombre r))) df.

Definition dirs_norm_of (df : dataframe) : list string :=
  map (fun r => normalize (str (Direccion r))) df.

Definition new_match (df : dataframe) (name : string) (by_ : matched_by_t)
    (sc : Q) (idx : nat) : result match_t :=
  c <- at_ df idx Nombre ;;
  e <- at_ df idx Email ;;
  Ok {| pdf_name := name; cliente := str c; email := str e; score := sc;
        matched_by := by_; selected := true; row_idx := idx |}.

(** What one turn of [for pdf_name in pdf_files] does with its document: a
    new entry of [matches], or nothing, the name then going to [unmatched]. *)
Definition match_one (df : dataframe) (name : string)
    : result (option match_t) :=
  let query_norm := normalize name in
  let result_name := extractOne token_sort_ratio query_norm (nombres_norm_of df) in
  match accepted result_name with
  | Some (sc, idx) => m <- new_match df name ByNombre sc idx ;; Ok (Some m)
  | None =>
      let result_dir := extractOne token_sort_ratio query_norm (dirs_norm_of df) in
      match accepted result_dir with
      | Some (sc, idx) => m <- new_match df name ByDireccion sc idx ;; Ok (Some m)
      | None => Ok None
      end
  end.

(** The loop [for pdf_name in pdf_files], over the keys still to visit. *)
Fixpoint matching_loop (df : dataframe) (names : list string)
    (matches : list match_t) (unmatched : list string)
    : result (list match_t * list string) :=
  match names with
  | [] => Ok (matches, unmatched)
  | name :: rest =>
      r <- match_one df name ;;
      match r with
      | Some m => matching_loop df rest (matches ++ [m]) unmatched
      | None => matching_loop df rest matches (unmatched ++ [name])
      end
  end.

Definition run_matching {V : Type} (pdf_files : Dict.t V) (df : dataframe)
    : result (list match_t * list string) :=
  matching_loop df (Dict.keys pdf_files) [] [].

End Matching.

(** ** The dispatch run of the send button *)

Inductive estado : Type := Enviado | Error.

(** An entry of [send_log]. *)
Record log_entry : Type := mkLog {
  nombre_archivo : string;
  email_destino : string;
  estado_ : estado;
  mensaje_de_error : string;
  timestamp : string
}.

(** The part of [st.session_state] the run reads and writes. *)
Record session (V : Type) : Type := mkSession {
  pdf_files : Dict.t V;
  send_log : list log_entry;
  sending : bool;
  cancel_requested : bool
}.
Arguments mkSession {V}.
Arguments pdf_files {V}.
Arguments send_log {V}.
Arguments sending {V}.
Arguments cancel_requested {V}.

(** How the loop was left: by exhausting the items, or by [break]. *)
Inductive terminal : Type := Completed | Cancelled.

(** What the run does to the outside, in order. *)
Inductive event (V : Type) : Type :=
| Sent_ (idx : nat) (recipient pdf : string) (pdf_bytes : V)  (* send_email called *)
| Slept (seconds : nat)                                       (* time.sleep *)
| CancelNotice (idx : nat).                                   (* status_text.warning *)
Arguments Sent_ {V}.
Arguments Slept {V}.
Arguments CancelNotice {V}.

(** The world around a run.  [send_email], called for item [idx] with the
    recipient, the name and the bytes of the document (host, port, sender,
    password, subject and body are the same for every item), returns
    ([None]) or raises an exception whose [str] is the text given; [now] is
    the clock read for item [idx]; the operator's cancel action can land
    while item [idx] is being sent or during the pause that follows it, and
    sets [cancel_requested]; [repr] is [repr] of a [str]. *)
Record world (V : Type) : Type := mkWorld {
  send_email : nat -> string -> string -> V -> option string;
  now : nat -> string;
  cancel_during_send : nat -> bool;
  cancel_during_sleep : nat -> bool;
  repr : string -> string
}.
Arguments mkWorld {V}.
Arguments send_email {V}.
Arguments now {V}.
Arguments cancel_during_send {V}.
Arguments cancel_during_sleep {V}.
Arguments repr {V}.

Section Dispatch.
Context {V : Type}.
Variable w : world V.
Variable throttle_seconds : nat.

(** The body of [try]: the look-up [pdf_files[pdf_name]] raises KeyError,
    whose [str] is the [repr] of the key; [send_email] raises what the
    transport raises.  The result is [str(exc)] of the exception caught, or
    nothing, with the call of [send_email] when it was made. *)
Definition attempt (files : Dict.t V) (idx : nat) (m : match_t)
    : option string * list (event V) :=
  match Dict.get (pdf_name m) files with
  | None => (Some (repr w (pdf_name m)), [])
  | Some pdf_bytes =>
      (send_email w idx (email m) (pdf_name m) pdf_bytes,
       [Sent_ idx (email m) (pdf_name m) pdf_bytes])
  end.

Definition entry_of (idx : nat) (m : match_t) (raised : option string) : log_entry :=
  match raised with
  | None => mkLog (pdf_name m) (email m) Enviado "" (now w idx)
  | Some msg => mkLog (pdf_name m) (email m) Error msg (now w idx)
  end.

(** The state the loop threads. *)
Record loop_state : Type := mkLoop {
  flag : bool;                     (* st.session_state["cancel_requested"] *)
  log : list log_entry;            (* send_log *)
  trace : list (event V)
}.

(** [for idx, match in enumerate(selected_matches)], from item [idx] on;
    [total] is [len(selected_matches)]. *)
Fixpoint dispatch_loop (files : Dict.t V) (total idx : nat)
    (items : list match_t) (st : loop_state) : loop_state * terminal :=
  match items with
  | [] => (st, Completed)
  | m :: rest =>
      if flag st then
        (mkLoop (flag st) (log st) (trace st ++ [CancelNotice idx]), Cancelled)
      else
        let '(raised, evs) := attempt files idx m in
        let flag1 := flag st || cancel_during_send w idx in
        let log1 := log st ++ [entry_of idx m raised] in
        let trace1 := trace st ++ evs in
        if (idx <? total - 1) && negb flag1 then
          dispatch_loop files total (S idx) rest
            (mkLoop (flag1 || cancel_during_sleep w idx) log1
                    (trace1 ++ [Slept throttle_seconds]))
        else
          dispatch_loop files total (S idx) rest (mkLoop flag1 log1 trace1)
  end.

(** The handler of the send button, [if send_btn: ...]. *)
Definition enter_running (s : session V) : session V :=
  mkSession (pdf_files s) [] true false.

Definition on_send (s : session V) (selected_matches : list match_t)
    : session V * terminal * list (event V) :=
  let s1 := enter_running s in
  let '(st, t) :=
    dispatch_loop (pdf_files s1) (List.length selected_matches) 0
      selected_matches (mkLoop (cancel_requested s1) [] []) in
  (mkSession (pdf_files s1) (log st) false false, t, trace st).

End Dispatch.

(** ** The rest of the script *)

(** *** Session state *)

Section SessionDefaults.
Context {V : Type}.

(** [for _k, _v in _STATE_DEFAULTS.items(): if _k not in st.session_state:
    st.session_state[_k] = _v] *)
Definition init_state (defaults session_state : Dict.t V) : Dict.t V :=
  fold_left
    (fun st kv =>
       match Dict.get (fst kv) st with
       | Some _ => st
       | None => Dict.set (fst kv) (snd kv) st
       end)
    defaults session_state.

End SessionDefaults.

(** *** The ZIP of documents *)

(** [s.endswith(suffix)] *)
Definition ends_with (suffix s : Str.chars) : bool :=
  Str.starts_with (rev suffix) (rev s).

(** [name.split("/")[-1]] *)
Definition last_component (name : Str.chars) : Str.chars :=
  last (Str.split "/" name) [].

(** [base[:-4]] *)
Definition drop_last_4 (base : Str.chars) : Str.chars :=
  firstn (List.length base - 4) base.

(** [name.lower().endswith(".pdf") and not name.startswith("__MACOSX")] *)
Definition is_pdf_entry (name : string) : bool :=
  ends_with (L ".pdf") (Str.lower (L name))
  && negb (Str.starts_with (L "__MACOSX") (L name)).

Definition pdf_key (name : string) : string :=
  string_of_list_ascii (drop_last_4 (last_component (L name))).

Section Zip.
Context {V : Type}.

(** [zf.read(name)] *)
Variable zf_read : string -> V.

(** One turn of [for name in zf.namelist()], on [pdf_dict] and [skipped]. *)
Definition zip_step (st : Dict.t V * list string) (name : string)
    : Dict.t V * list string :=
  let '(pdf_dict, skipped) := st in
  if is_pdf_entry name then
    (Dict.set (pdf_key name) (zf_read name) pdf_dict, skipped)
  else if negb (ends_with (L "/") (L name)) then (pdf_dict, skipped ++ [name])
  else (pdf_dict, skipped).

Definition load_zip (namelist : list string) : Dict.t V * list string :=
  fold_left zip_step namelist (Dict.empty, []).

End Zip.

(** *** The columns of the spreadsheet *)

Definition str_strip (s : string) : string := string_of_list_ascii (Str.strip (L s)).
Definition str_lower (s : string) : string := string_of_list_ascii (Str.lower (L s)).

(** The letter o with acute accent, U+00F3. *)
Definition o_acute : ascii := ascii_of_nat 243.

Definition Direccion_col : string := ("Direcci" ++ String o_acute "n")%string.

(** [_col_aliases]; the literal gives the key [direccion] twice, with the
    same value. *)
Definition _col_aliases : Dict.t string :=
  [ ("nombre", "Nombre"); ("email", "Email"); ("correo", "Email");
    ("e-mail", "Email"); ("direccion", Direccion_col);
    (("direcci" ++ String o_acute "n")%string, Direccion_col) ].

(** [df.columns = df.columns.str.strip()], then [df.rename(columns={c:
    _col_aliases[c.lower()] for c in df.columns if c.lower() in
    _col_aliases})], on one column name. *)
Definition rename_column (c : string) : string :=
  let c := str_strip c in
  match Dict.get (str_lower c) _col_aliases with
  | Some canonical => canonical
  | None => c
  end.

Definition required_cols : list string := ["Nombre"; "Email"; Direccion_col].

(** [required_cols - set(df.columns)] *)
Definition missing (columns : list string) : list string :=
  filter (fun r => negb (existsb (String.eqb r) columns)) required_cols.

(** [.dropna(subset=["Email"]).reset_index(drop=True)] *)
Definition has_email (r : row) : bool :=
  match Email r with NaN => false | _ => true end.

Definition dropna_email (df : dataframe) : dataframe := filter has_email df.

(** *** Selection *)

(** [m["selected"] = b] *)
Definition set_selected (b : bool) (m : match_t) : match_t :=
  mkMatch (pdf_name m) (cliente m) (email m) (score m) (matched_by m) b (row_idx m).

(** The buttons that select and deselect all. *)
Definition select_all (matches : list match_t) : list match_t :=
  map (set_selected true) matches.

Definition deselect_all (matches : list match_t) : list match_t :=
  map (set_selected false) matches.

(** [st.session_state["matches"][i]["selected"] = checked], for every row
    [i] of the table, [checked i] being the state of its checkbox. *)
Definition apply_checkboxes (checked : nat -> bool) (matches : list match_t)
    : list match_t :=
  map (fun im => set_selected (checked (fst im)) (snd im)) (enumerate matches).

(** [[m for m in st.session_state["matches"] if m["selected"]]] *)
Definition selected_matches (matches : list match_t) : list match_t :=
  filter selected matches.

(** [bool(sender_email) and bool(app_password) and len(selected_matches) > 0
    and not st.session_state["sending"]] *)
Definition ready_to_send (sender_email app_password : string)
    (selected : list match_t) (sending_now : bool) : bool :=
  negb (String.eqb sender_email "") && negb (String.eqb app_password "")
  && (0 <? List.length selected) && negb sending_now.

(** *** The summary of a run *)

Definition is_enviado (r : log_entry) : bool :=
  match estado_ r with Enviado => true | Error => false end.

Definition is_error (r : log_entry) : bool :=
  match estado_ r with Enviado => false | Error => true end.

(** [sum(1 for r in send_log if r["Estado"] == "Enviado")] *)
Definition enviados (send_log : list log_entry) : nat :=
  List.length (filter is_enviado send_log).

(** [sum(1 for r in send_log if r["Estado"] == "Error")] *)
Definition fallidos (send_log : list log_entry) : nat :=
  List.length (filter is_error send_log).

(** *** send_email *)

(** The message built: headers, the plain text body and one attachment. *)
Record mime_message (V : Type) : Type := mkMessage {
  msg_from : string;
  msg_to : string;
  msg_subject : string;
  msg_body : string;
  attachment_filename : string;
  attachment_bytes : V
}.
Arguments mkMessage {V}.
Arguments msg_from {V}.
Arguments msg_to {V}.
Arguments msg_subject {V}.
Arguments msg_body {V}.
Arguments attachment_filename {V}.
Arguments attachment_bytes {V}.

(** [safe_filename = f"{pdf_name}.pdf"] *)
Definition safe_filename (pdf_name : string) : string := (pdf_name ++ ".pdf")%string.

(** What is asked of the server, in order. *)
Inductive smtp_call (V : Type) : Type :=
| Connect (host : string) (port timeout : nat)   (* smtplib.SMTP(host, port, timeout=30) *)
| Ehlo
| StartTLS
| Login (user password : string)
| SendMessage (msg : mime_message V)
| Quit.                                          (* leaving the with block: SMTP.__exit__ *)
Arguments Connect {V}.
Arguments Ehlo {V}.
Arguments StartTLS {V}.
Arguments Login {V}.
Arguments SendMessage {V}.
Arguments Quit {V}.

Section SendEmail.
Context {V : Type}.

(** The server: whether the call made at a step raises, and with what.  The
    steps are those of the source, in its order: 0 the connection, 1 to 5
    the calls of the with block, 6 the QUIT sent on leaving it. *)
Variable raises : nat -> option string.

(** The calls of the with block, one after the other until one raises;
    [step] numbers the call at the head. *)
Fixpoint smtp_calls (step : nat) (calls : list (smtp_call V))
    : list (smtp_call V) * option string :=
  match calls with
  | [] => ([], None)
  | c :: rest =>
      match raises step with
      | Some exc => ([c], Some exc)
      | None =>
          let '(made, r) := smtp_calls (S step) rest in
          (c :: made, r)
      end
  end.

(** Leaving the with block, [block] being the exception the block raised,
    if any.  [SMTP.__exit__] sends QUIT and raises [SMTPResponseException]
    when the reply is not 221, whether the block raised or not: that
    exception is then the one that leaves [send_email].  When QUIT is
    answered 221, or the server is gone ([SMTPServerDisconnected], which
    [__exit__] passes over), [__exit__] returns [None] and the exception of
    the block, if any, goes on. *)
Definition leave_with (step : nat) (block : option string) : option string :=
  match raises step with
  | Some exc => Some exc
  | None => block
  end.

(** [send_email]: the calls made and the exception raised, if any.  When
    the connection fails nothing else is tried, the with block not being
    entered; once it is made, the block is left through [__exit__], whether
    it raised or not. *)
Definition send_email_calls (smtp_host : string) (smtp_port : nat)
    (sender_email app_password recipient_email subject body pdf_name : string)
    (pdf_bytes : V) : list (smtp_call V) * option string :=
  let msg := mkMessage sender_email recipient_email subject body
                       (safe_filename pdf_name) pdf_bytes in
  match raises 0 with
  | Some exc => ([Connect smtp_host smtp_port 30], Some exc)
  | None =>
      let '(made, r) :=
        smtp_calls 1 [Ehlo; StartTLS; Ehlo; Login sender_email app_password;
                      SendMessage msg] in
      (Connect smtp_host smtp_port 30 :: made ++ [Quit], leave_with 6 r)
  end.

End SendEmail.

(** * Vocabulary of the statements *)

Section MatchingVocabulary.
Variable scorer : string -> string -> Q.

(** What is known of the best triple once the choices [pre] are scored. *)
Definition best_of (query : string) (pre : list string)
    (result : option (string * Q * nat)) : Prop :=
  match result with
  | None => forall j c, nth_error pre j = Some c -> (scorer query c < 0)%Q
  | Some (c, s, i) =>
      nth_error pre i = Some c /\ s = scorer query c /\ (0 <= s)%Q /\
      (forall j c', nth_error pre j = Some c' -> (scorer query c' <= s)%Q) /\
      (forall j c', j < i -> nth_error pre j = Some c' -> (scorer query c' < s)%Q)
  end.

(** Whether a document gets a match. *)
Definition is_matched (df : dataframe) (name : string) : bool :=
  match match_one scorer df name with
  | Ok (Some _) => true
  | _ => false
  end.

End MatchingVocabulary.

Section DispatchVocabulary.
Context {V : Type}.
Variable w : world V.
Variable throttle_seconds : nat.

(** The log entries of the items [items], the first of which has index [idx]. *)
Fixpoint entries_from (files : Dict.t V) (idx : nat) (items : list match_t)
    : list log_entry :=
  match items with
  | [] => []
  | m :: rest =>
      entry_of w idx m (fst (attempt w files idx m)) :: entries_from files (S idx) rest
  end.

(** What each of these items does to the outside. *)
Fixpoint sends_from (files : Dict.t V) (idx : nat) (items : list match_t)
    : list (list (event V)) :=
  match items with
  | [] => []
  | m :: rest => snd (attempt w files idx m) :: sends_from files (S idx) rest
  end.

(** The events of the items in order, with one pause between two consecutive
    items and none after the last. *)
Fixpoint paused_between (chunks : list (list (event V))) : list (event V) :=
  match chunks with
  | [] => []
  | [c] => c
  | c :: rest => c ++ [Slept throttle_seconds] ++ paused_between rest
  end.

Definition no_cancel_from (idx : nat) : Prop :=
  forall i, idx <= i ->
    cancel_during_send w i = false /\ cancel_during_sleep w i = false.

(** The events of a run cut short by a cancel action that lands while item
    [j] is sent or during the pause after it: the items up to [j] with their
    pauses, the pause after item [j] if the action had not landed before it,
    and the notice. *)
Definition cancelled_trace (files : Dict.t V) (idx j : nat)
    (items : list match_t) : list (event V) :=
  paused_between (sends_from files idx (firstn (S j - idx) items))
  ++ (if cancel_during_send w j then [] else [Slept throttle_seconds])
  ++ [CancelNotice (S j)].

End DispatchVocabulary.

Section DictVocabulary.
Context {V : Type}.

(** Storing a list of bindings one after the other. *)
Definition store_all (kvs : list (string * V)) (d : Dict.t V) : Dict.t V :=
  fold_left (fun d kv => Dict.set (fst kv) (snd kv) d) kvs d.

End DictVocabulary.

(** The label and the pages of letter [idx], which starts at [start_page]. *)
Definition letter_entry (doc : pdf_doc) (cif : string) (indices : list nat)
    (it : nat * nat) : string * letter :=
  (nombre_limpio_of cif (page_text doc (snd it)) (fst it),
   mkLetter (snd it) (end_page_of doc indices (fst it))).

(** The last page of letter [k], read off the list of first pages. *)
Definition last_page_of (doc : pdf_doc) (indices : list nat) (k : nat) : nat :=
  match nth_error indices (S k) with
  | Some next => next - 1
  | None => List.length doc - 1
  end.

(** The line feed. *)
Definition nl : string := String "010"%char "".

(** Six pages, the marker on pages 0 and 3, and the same name after it. *)
Definition doc_same_label : pdf_doc :=
  [("B1" ++ nl ++ "ACME")%string; "x"; "y"; ("B1" ++ nl ++ "ACME")%string; ""; "z"].

(** Pattern A on a line and the line after it; pattern B likewise. *)
Definition is_pattern_a (linea : Str.chars) : bool :=
  Str.contains (L "ejercicio") (Str.lower linea)
  && Str.contains (L "es de:") (Str.lower linea).

Definition a_accepts (next : Str.chars) : bool :=
  negb (Str.eqb (Str.lower next) (L "euros")).

Definition b_accepts (candidato : Str.chars) : bool :=
  negb (Str.contains (L "Muy Sr") candidato)
  && negb (Str.contains (L "URANO") candidato).

(** A line yields the line after it as the label when pattern A holds of the
    two, or else pattern B does. *)
Definition yields (cif linea next : Str.chars) : bool :=
  (is_pattern_a linea && a_accepts next) || (Str.contains cif linea && b_accepts next).

(** The rule as the specification words it: pattern A over the lines, then,
    only if it gave nothing, pattern B on the first line that contains the
    marker, then the synthesized label. *)
Fixpoint pattern_a_spec (lineas : list Str.chars) : option Str.chars :=
  match lineas with
  | [] => None
  | linea :: rest =>
      match rest with
      | next :: _ =>
          if is_pattern_a linea && a_accepts next then Some next
          else pattern_a_spec rest
      | [] => None
      end
  end.

Fixpoint pattern_b_spec (cif : Str.chars) (lineas : list Str.chars)
    : option Str.chars :=
  match lineas with
  | [] => None
  | linea :: rest =>
      if Str.contains cif linea then
        match rest with
        | candidato :: _ => if b_accepts candidato then Some candidato else None
        | [] => None
        end
      else pattern_b_spec cif rest
  end.

Definition label_by_spec (cif texto : string) (idx : nat) : Str.chars :=
  match pattern_a_spec (lineas_of texto) with
  | Some l => l
  | None =>
      match pattern_b_spec (L cif) (lineas_of texto) with
      | Some l => l
      | None => L (cliente_default idx)
      end
  end.

(** A page whose first marker line is followed by the salutation and whose
    second marker line is followed by the name. *)
Definition page_two_markers : string :=
  ("B1" ++ nl ++ "Muy Sr. mio" ++ nl ++ "ref B1" ++ nl ++ "ACME")%string.

(** The character of a decimal digit. *)
Definition digit (k : nat) : ascii := ascii_of_nat (48 + k).

(** The label [Cliente_NNN] for the letter number [n], written with its
    three digits. *)
Definition cliente_3_digits (n : nat) : string :=
  ("Cliente_" ++
   String (digit (n / 100)) (String (digit (n / 10 mod 10))
     (String (digit (n mod 10)) "")))%string.

(** Matching the literal [t], case ignored, at the head of [s]: the last
    character matched (or [prev] when [t] is empty) and what is left. *)
Fixpoint ci_strip (t : list ascii) (prev : option ascii) (s : list ascii)
    : option (option ascii * list ascii) :=
  match t with
  | [] => Some (prev, s)
  | p :: t' =>
      match s with
      | c :: s' => if Re.lit_matches true p c then ci_strip t' (Some c) s' else None
      | [] => None
      end
  end.

(** The alternative [t] of the pattern, with the [\b] that closes it. *)
Definition try_tok (t : list ascii) (prev : option ascii) (s : list ascii)
    : option nat :=
  match ci_strip t prev s with
  | Some (last, rest) =>
      if Re.at_boundary last rest then Some (List.length t) else None
  | None => None
  end.

Definition or_else {A : Type} (a b : option A) : option A :=
  match a with Some _ => a | None => b end.

Definition suffix_alternatives (prev : option ascii) (s : list ascii) : option nat :=
  or_else (try_tok (L "s.l.u.") prev s)
  (or_else (try_tok (L "slu") prev s)
  (or_else (try_tok (L "s.l.") prev s)
  (or_else (try_tok (L "sl") prev s)
  (or_else (try_tok (L "s.a.") prev s)
           (try_tok (L "sa") prev s))))).

(** The character before the position reached after the characters [m]. *)
Fixpoint last_of (prev : option ascii) (m : list ascii) : option ascii :=
  match m with
  | [] => prev
  | c :: m' => last_of (Some c) m'
  end.

Definition alternatives : list (list ascii) :=
  [L "s.l.u."; L "slu"; L "s.l."; L "sl"; L "s.a."; L "sa"].

(** The text stops, or goes on with a character that is not of a word. *)
Definition end_ok (s : list ascii) : bool := negb (Re.word_opt (hd_error s)).

(** The undotted token [t] stands at the head of [s] and ends a word. *)
Definition tok_ends (t s : list ascii) : bool :=
  match ci_strip t None s with
  | Some (_, rest) => end_ok rest
  | None => false
  end.

Definition tok_at (s : list ascii) : bool :=
  tok_ends (L "slu") s || tok_ends (L "sl") s || tok_ends (L "sa") s.

(** Some undotted token stands in [s] as a whole word; [pw] tells whether
    the character before [s] is a word character. *)
Fixpoint has_tok (pw : bool) (s : list ascii) : bool :=
  match s with
  | [] => false
  | c :: s' => (negb pw && tok_at s) || has_tok (Char.is_word c) s'
  end.

(** [out] and [inp] start with the same word characters and stop being a
    word at the same place. *)
Fixpoint agree (out inp : list ascii) : Prop :=
  match inp with
  | [] => out = []
  | c :: inp' =>
      if Char.is_word c then exists out', out = c :: out' /\ agree out' inp'
      else end_ok out = true
  end.

Definition wordy (t : list ascii) : Prop :=
  Forall (fun p => forall c, Re.lit_matches true p c = true -> Char.is_word c = true) t.

(** How the character before the position in the output relates to the one
    in the input: they are of the same kind, or a match was dropped in
    between and the input is at the end of a word. *)
Definition in_step (pw : bool) (prev : option ascii) (s : list ascii) : Prop :=
  pw = Re.word_opt prev \/
  (pw = false /\ Re.word_opt prev = true /\ end_ok s = true).

(** [Plus p] replaced by a space; [inrun] tells whether the character
    before belongs to a run already replaced. *)
Fixpoint collapse (p : ascii -> bool) (inrun : bool) (s : list ascii) : list ascii :=
  match s with
  | [] => []
  | c :: s' =>
      if p c then (if inrun then collapse p true s' else " "%char :: collapse p true s')
      else c :: collapse p false s'
  end.

Fixpoint run_length (p : ascii -> bool) (s : list ascii) : nat :=
  match s with
  | c :: s' => if p c then S (run_length p s') else 0
  | [] => 0
  end.

(** Every run of white space is one space; [b] tells whether the character
    before is white space. *)
Fixpoint sp_norm (b : bool) (s : list ascii) : bool :=
  match s with
  | [] => true
  | c :: s' =>
      if Char.is_space c then Ascii.eqb c " "%char && negb b && sp_norm true s'
      else sp_norm false s'
  end.

Definition head_not_space (s : list ascii) : Prop :=
  match s with
  | c :: _ => Char.is_space c = false
  | [] => True
  end.

(** [c in x] for a character. *)
Definition has_char (c : ascii) (x : string) : bool :=
  existsb (Ascii.eqb c) (list_ascii_of_string x).

(** [sep.join(parts)] for a one-character separator. *)
Fixpoint join (sep : ascii) (parts : list Str.chars) : Str.chars :=
  match parts with
  | [] => []
  | [x] => x
  | x :: rest => x ++ sep :: join sep rest
  end.

(** The bindings the loop over the names of a ZIP stores, in order. *)
Definition zip_bindings {V : Type} (zf_read : string -> V)
    (namelist : list string) : list (string * V) :=
  map (fun n => (pdf_key n, zf_read n)) (filter is_pdf_entry namelist).

(** The names the loop sets aside: neither documents nor directories. *)
Definition zip_skipped (namelist : list string) : list string :=
  filter (fun n => negb (is_pdf_entry n) && negb (ends_with (L "/") (L n)))
         namelist.

(** The number a string of decimal digits writes, zero for another string. *)
Definition read_decimal (s : string) : nat :=
  match NilEmpty.uint_of_string s with
  | Some d => Nat.of_uint d
  | None => 0
  end.

(** Whether page [p] lies in letter [k] of the letters that start at the
    pages [indices]. *)
Definition in_letter (doc : pdf_doc) (indices : list nat) (k p : nat) : Prop :=
  exists start_page,
    nth_error indices k = Some start_page /\
    start_page <= p /\ p <= end_page_of doc indices k.

(** ** Sample inputs *)

(** A scorer that tells equal strings from different ones. *)
Definition sample_scorer (a b : string) : Q :=
  if String.eqb a b then 100 else 0.

Definition sample_table : dataframe :=
  [ mkRow (Text "Acme S.L.") (Text "acme@example.com") (Text "Calle Mayor 1");
    mkRow (Text "Beta SA") (Text "beta@example.com") (Text "Gran Via 2") ].

Definition sample_files : Dict.t nat :=
  [("acme s l", 10); ("calle mayor 1", 11); ("gamma", 12)].

Definition sample_match (i : nat) : match_t :=
  mkMatch ("d" ++ decimal i) "cliente" ("c" ++ decimal i ++ "@example.com") 100
          ByNombre true i.

Definition sample_selected : list match_t := map sample_match (seq 0 5).

Definition sample_session : session nat :=
  mkSession (map (fun i => (("d" ++ decimal i)%string, i)) (seq 0 5)) [] false false.

(** A world where the cancel action lands while item [cancel_at] is sent and
    the transport refuses item [fail_at]. *)
Definition sample_world (cancel_at fail_at : option nat) : world nat :=
  mkWorld
    (fun idx _ _ _ =>
       match fail_at with
       | Some k => if Nat.eqb k idx then Some "connection refused" else None
       | None => None
       end)
    (fun idx => ("2024-01-01 10:00:0" ++ decimal idx)%string)
    (fun idx => match cancel_at with Some k => Nat.eqb k idx | None => false end)
    (fun _ => false)
    (fun k => k).

(** Six pages, the marker on pages 0 and 3, two names. *)
Definition doc_two_letters : pdf_doc :=
  [("B1" ++ nl ++ "ACME")%string; "x"; "y"; ("B1" ++ nl ++ "BETA")%string; ""; "z"].

(** A page where the marker line comes before the line of pattern A. *)
Definition page_marker_first : string :=
  ("B1" ++ nl ++ "ACME" ++ nl ++ "Ejercicio 2023 es de:" ++ nl ++ "BETA")%string.

(** ** Tactics *)

Ltac each_char c :=
  destruct c as [[] [] [] [] [] [] [] []]; vm_compute; try reflexivity;
  try discriminate; try tauto.

(** The cases of a membership in a list written out. *)
Ltac in_list H :=
  simpl in H;
  repeat match type of H with
         | _ \/ _ => destruct H as [H|H]
         | False => destruct H
         end.

(** * Properties *)

(** ** The matcher *)

Section MatchingFacts.
Variable scorer : string -> string -> Q.

Lemma nth_error_snoc {A : Type} (l : list A) (x : A) j y :
  nth_error (l ++ [x]) j = Some y ->
  (j < List.length l /\ nth_error l j = Some y) \/ (j = List.length l /\ y = x).
Proof.
  intros H. destruct (Nat.lt_ge_cases j (List.length l)) as [Hlt | Hge].
  - left. split; [assumption|]. now rewrite nth_error_app1 in H.
  - right. rewrite nth_error_app2 in H by assumption.
    destruct (j - List.length l) as [|k] eqn:E; simpl in H.
    + split; [lia | congruence].
    + destruct k; discriminate.
Qed.

Lemma best_of_step query pre choice result :
  best_of scorer query pre result ->
  best_of scorer query (pre ++ [choice])
    (if match result with
        | None => Qle_bool 0 (scorer query choice)
        | Some (_, best, _) => negb (Qle_bool (scorer query choice) best)
        end
     then Some (choice, scorer query choice, List.length pre) else result).
Proof.
  intros Inv. destruct result as [[[c s] i]|]; simpl in *.
  - destruct Inv as (Hi & Hs & H0 & Hmax & Hfirst).
    destruct (Qle_bool (scorer query choice) s) eqn:E; simpl.
    + apply Qle_bool_iff in E. repeat split; auto.
      * rewrite nth_error_app1; [assumption|]. apply nth_error_Some. congruence.
      * intros j c' Hj. apply nth_error_snoc in Hj as [[_ Hj]|[_ ->]]; eauto.
      * intros j c' Hlt Hj. apply nth_error_snoc in Hj as [[_ Hj]|[-> _]]; eauto.
        assert (i < List.length pre) by (apply nth_error_Some; congruence). lia.
    + assert (Hlt : (s < scorer query choice)%Q).
      { apply Qnot_le_lt. intro Hle. apply Qle_bool_iff in Hle. congruence. }
      repeat split.
      * rewrite nth_error_app2 by lia. now rewrite Nat.sub_diag.
      * lra.
      * intros j c' Hj. apply nth_error_snoc in Hj as [[_ Hj]|[_ ->]].
        -- specialize (Hmax _ _ Hj). lra.
        -- lra.
      * intros j c' Hjl Hj. apply nth_error_snoc in Hj as [[_ Hj]|[-> _]]; [|lia].
        specialize (Hmax _ _ Hj). lra.
  - destruct (Qle_bool 0 (scorer query choice)) eqn:E; simpl.
    + apply Qle_bool_iff in E. repeat split.
      * rewrite nth_error_app2 by lia. now rewrite Nat.sub_diag.
      * assumption.
      * intros j c' Hj. apply nth_error_snoc in Hj as [[_ Hj]|[_ ->]].
        -- specialize (Inv _ _ Hj). lra.
        -- lra.
      * intros j c' Hjl Hj. apply nth_error_snoc in Hj as [[_ Hj]|[-> _]]; [|lia].
        specialize (Inv _ _ Hj). lra.
    + assert (Hlt : (scorer query choice < 0)%Q).
      { apply Qnot_le_lt. intro Hle. apply Qle_bool_iff in Hle. congruence. }
      intros j c' Hj. apply nth_error_snoc in Hj as [[_ Hj]|[_ ->]]; eauto.
Qed.

Lemma extractOne_from_best query choices :
  forall pre result,
    best_of scorer query pre result ->
    best_of scorer query (pre ++ choices)
      (extractOne_from scorer query (List.length pre) choices result).
Proof.
  induction choices as [|choice rest IH]; intros pre result Inv; simpl.
  - now rewrite app_nil_r.
  - apply best_of_step with (choice := choice) in Inv.
    specialize (IH _ _ Inv).
    rewrite length_app, Nat.add_comm in IH. simpl in IH.
    now rewrite <- app_assoc in IH.
Qed.

Lemma extractOne_best query choices :
  best_of scorer query choices (extractOne scorer query choices).
Proof.
  apply (extractOne_from_best query choices [] None).
  intros j c H. destruct j; discriminate.
Qed.

End MatchingFacts.

Section RunMatchingFacts.
Variable token_sort_ratio : string -> string -> Q.


Lemma accepted_Some r sc idx :
  accepted r = Some (sc, idx) ->
  exists c, r = Some (c, sc, idx) /\ (80 <= sc)%Q.
Proof.
  destruct r as [[[c s] i]|]; simpl; [|discriminate].
  destruct (Qle_bool 80 s) eqn:E; [|discriminate].
  intros [= <- <-]. exists c. split; [reflexivity|]. now apply Qle_bool_iff.
Qed.

Lemma accepted_None r :
  accepted r = None ->
  match r with Some (_, sc, _) => (sc < 80)%Q | None => True end.
Proof.
  destruct r as [[[c s] i]|]; simpl; [|trivial].
  destruct (Qle_bool 80 s) eqn:E; [discriminate|]. intros _.
  apply Qnot_le_lt. intro H. apply Qle_bool_iff in H. congruence.
Qed.

(** The index [extractOne] returns labels a row of the table. *)
Lemma new_match_at df name by_ sc idx r :
  nth_error df idx = Some r ->
  new_match df name by_ sc idx =
  Ok (mkMatch name (str (Nombre r)) (str (Email r)) sc by_ true idx).
Proof. intros H. unfold new_match, at_. now rewrite H. Qed.

Lemma nth_error_map_Some {A B : Type} (f : A -> B) l i y :
  nth_error (map f l) i = Some y -> exists x, nth_error l i = Some x /\ y = f x.
Proof.
  rewrite nth_error_map. destruct (nth_error l i) as [x|]; simpl; [|discriminate].
  intros [= <-]. now exists x.
Qed.

(** [match_one] never raises, and what it returns carries the document's
    name and [selected = True]. *)
Lemma match_one_total df name :
  match_one token_sort_ratio df name = Ok None \/
  exists m, match_one token_sort_ratio df name = Ok (Some m) /\ pdf_name m = name /\ selected m = true.
Proof.
  unfold match_one.
  destruct (accepted (extractOne token_sort_ratio (normalize name) (nombres_norm_of df)))
    as [[sc idx]|] eqn:En.
  - apply accepted_Some in En as (c & En & _).
    pose proof (extractOne_best token_sort_ratio (normalize name) (nombres_norm_of df)) as B.
    rewrite En in B. destruct B as (Hi & _).
    apply nth_error_map_Some in Hi as (r & Hr & _).
    rewrite (new_match_at _ _ _ _ _ _ Hr). right. eexists. simpl. eauto.
  - destruct (accepted (extractOne token_sort_ratio (normalize name) (dirs_norm_of df)))
      as [[sc idx]|] eqn:Ed.
    + apply accepted_Some in Ed as (c & Ed & _).
      pose proof (extractOne_best token_sort_ratio (normalize name) (dirs_norm_of df)) as B.
      rewrite Ed in B. destruct B as (Hi & _).
      apply nth_error_map_Some in Hi as (r & Hr & _).
      rewrite (new_match_at _ _ _ _ _ _ Hr). right. eexists. simpl. eauto.
    + now left.
Qed.

Lemma matching_loop_filter df names :
  forall matches unmatched,
  exists new,
    matching_loop token_sort_ratio df names matches unmatched =
      Ok (matches ++ new, unmatched ++ filter (fun n => negb (is_matched token_sort_ratio df n)) names)
    /\ map pdf_name new = filter (is_matched token_sort_ratio df) names
    /\ Forall (fun m => selected m = true) new.
Proof.
  induction names as [|name rest IH]; intros matches unmatched; simpl.
  - exists []. now rewrite !app_nil_r.
  - destruct (match_one_total df name) as [E | (m & E & Hn & Hs)].
    + assert (Hf : is_matched token_sort_ratio df name = false) by (unfold is_matched; now rewrite E).
      rewrite E, Hf. simpl.
      destruct (IH matches (unmatched ++ [name])) as (new & -> & Hm & Hsel).
      exists new. rewrite <- app_assoc. simpl. auto.
    + assert (Hf : is_matched token_sort_ratio df name = true) by (unfold is_matched; now rewrite E).
      rewrite E, Hf. simpl.
      destruct (IH (matches ++ [m]) unmatched) as (new & -> & Hm & Hsel).
      exists (m :: new). rewrite <- app_assoc. simpl.
      split; [reflexivity|]. split; [congruence | now constructor].
Qed.

Lemma count_occ_filter (f : string -> bool) l x :
  count_occ string_dec (filter f l) x =
  if f x then count_occ string_dec l x else 0.
Proof.
  induction l as [|y l IH]; simpl.
  - now destruct (f x).
  - destruct (f y) eqn:Ey; simpl; destruct (string_dec y x) as [->|Hne].
    + rewrite Ey, IH, Ey. reflexivity.
    + exact IH.
    + rewrite Ey in *. exact IH.
    + exact IH.
Qed.

(** C1.  For a dict of documents (no key twice) and any table,
    [run_matching] returns, and every key of the dict shows up exactly once
    in the result: either as the [pdf_name] of exactly one match and not in
    [unmatched], or exactly once in [unmatched] and in no match.  Nothing
    else shows up in either list. *)
Theorem run_matching_partitions {V : Type} (pdf_files : Dict.t V) (df : dataframe) :
  Dict.wf pdf_files ->
  exists matches unmatched,
    run_matching token_sort_ratio pdf_files df = Ok (matches, unmatched) /\
    (forall name, In name (Dict.keys pdf_files) ->
       (count_occ string_dec (map pdf_name matches) name = 1 /\
        count_occ string_dec unmatched name = 0) \/
       (count_occ string_dec (map pdf_name matches) name = 0 /\
        count_occ string_dec unmatched name = 1)) /\
    (forall name, In name (map pdf_name matches) \/ In name unmatched ->
       In name (Dict.keys pdf_files)).
Proof.
  intros Hwf. unfold run_matching.
  destruct (matching_loop_filter df (Dict.keys pdf_files) [] [])
    as (new & E & Hm & _).
  exists new, (filter (fun n => negb (is_matched token_sort_ratio df n)) (Dict.keys pdf_files)).
  split; [exact E|]. rewrite Hm. split.
  - intros name Hin. rewrite !count_occ_filter.
    assert (H1 : count_occ string_dec (Dict.keys pdf_files) name = 1).
    { apply NoDup_count_occ' with (decA := string_dec) in Hin; assumption. }
    rewrite H1. destruct (is_matched token_sort_ratio df name); simpl; auto.
  - intros name [H | H]; apply filter_In in H; tauto.
Qed.

(** C10.  With an empty table [run_matching] returns, with no match and
    every document name in [unmatched], in the order of the dict. *)
Theorem run_matching_empty_table {V : Type} (pdf_files : Dict.t V) :
  run_matching token_sort_ratio pdf_files [] = Ok ([], Dict.keys pdf_files).
Proof.
  unfold run_matching.
  destruct (matching_loop_filter [] (Dict.keys pdf_files) [] [])
    as (new & E & Hm & _).
  rewrite E.
  assert (Hf : forall names,
             filter (is_matched token_sort_ratio []) names = [] /\
             filter (fun n => negb (is_matched token_sort_ratio [] n)) names = names).
  { induction names as [|n ns [IH1 IH2]]; [auto|].
    assert (Hn : is_matched token_sort_ratio [] n = false) by reflexivity.
    cbn [filter]. rewrite Hn. cbn [negb]. now rewrite IH1, IH2. }
  destruct (Hf (Dict.keys pdf_files)) as [H1 H2].
  rewrite H1 in Hm. rewrite H2. apply map_eq_nil in Hm. subst new. reflexivity.
Qed.

End RunMatchingFacts.

Section MatchOneFacts.
Variable token_sort_ratio : string -> string -> Q.

(** A search that has a choice scoring 80 or more is accepted, with the
    first choice of highest score. *)
Lemma search_accepts query choices :
  (exists i c, nth_error choices i = Some c /\ (80 <= token_sort_ratio query c)%Q) ->
  exists c s i,
    extractOne token_sort_ratio query choices = Some (c, s, i) /\
    accepted (extractOne token_sort_ratio query choices) = Some (s, i) /\
    nth_error choices i = Some c /\ s = token_sort_ratio query c /\ (80 <= s)%Q /\
    (forall j c', nth_error choices j = Some c' -> (token_sort_ratio query c' <= s)%Q) /\
    (forall j c', j < i -> nth_error choices j = Some c' ->
                  (token_sort_ratio query c' < s)%Q).
Proof.
  intros (i0 & c0 & Hi0 & H80).
  pose proof (extractOne_best token_sort_ratio query choices) as B.
  destruct (extractOne token_sort_ratio query choices) as [[[c s] i]|]; simpl in B.
  - destruct B as (Hi & Hs & H0 & Hmax & Hfirst).
    assert (Hge : (80 <= s)%Q) by (specialize (Hmax _ _ Hi0); lra).
    exists c, s, i. repeat split; auto.
    simpl. apply Qle_bool_iff in Hge. now rewrite Hge.
  - specialize (B _ _ Hi0). lra.
Qed.

(** A search whose choices all score below 80 is not accepted. *)
Lemma search_rejects query choices :
  (forall i c, nth_error choices i = Some c -> (token_sort_ratio query c < 80)%Q) ->
  accepted (extractOne token_sort_ratio query choices) = None.
Proof.
  intros Hall.
  pose proof (extractOne_best token_sort_ratio query choices) as B.
  destruct (extractOne token_sort_ratio query choices) as [[[c s] i]|]; simpl in *;
    [|reflexivity].
  destruct B as (Hi & Hs & _). specialize (Hall _ _ Hi).
  destruct (Qle_bool 80 s) eqn:E; [|reflexivity].
  apply Qle_bool_iff in E. subst s. lra.
Qed.

Lemma same_column (col : row -> cell) (df df' : dataframe) i r :
  map col df' = map col df -> nth_error df i = Some r ->
  exists r', nth_error df' i = Some r' /\ col r' = col r.
Proof.
  intros Hmap Hr.
  assert (H : nth_error (map col df') i = Some (col r)).
  { rewrite Hmap, nth_error_map, Hr. reflexivity. }
  apply nth_error_map_Some in H as (r' & Hr' & Hc). eauto.
Qed.

(** The same two facts for a column of the table: the choices of a search
    are [normalize(str(v))] for the cells [v] of the column, row by row. *)
Lemma column_accepts (col : row -> cell) query (df : dataframe) :
  (exists i r, nth_error df i = Some r /\
               (80 <= token_sort_ratio query (normalize (str (col r))))%Q) ->
  exists s i r,
    accepted (extractOne token_sort_ratio query
                (map (fun r => normalize (str (col r))) df)) = Some (s, i) /\
    nth_error df i = Some r /\
    s = token_sort_ratio query (normalize (str (col r))) /\ (80 <= s)%Q /\
    (forall j r', nth_error df j = Some r' ->
       (token_sort_ratio query (normalize (str (col r'))) <= s)%Q) /\
    (forall j r', j < i -> nth_error df j = Some r' ->
       (token_sort_ratio query (normalize (str (col r'))) < s)%Q).
Proof.
  intros (i0 & r0 & Hi0 & H80).
  destruct (search_accepts query (map (fun r => normalize (str (col r))) df))
    as (c & s & i & _ & Eacc & Hi & Hs & Hge & Hmax & Hfirst).
  { exists i0, (normalize (str (col r0))). split; [|exact H80].
    rewrite nth_error_map, Hi0. reflexivity. }
  destruct (nth_error_map_Some _ _ _ _ Hi) as (r & Hr & Hc).
  exists s, i, r. split; [exact Eacc|]. split; [exact Hr|].
  split; [now subst c|]. split; [exact Hge|]. split.
  - intros j r' Hj. apply (Hmax j). rewrite nth_error_map, Hj. reflexivity.
  - intros j r' Hlt Hj. apply (Hfirst j); [exact Hlt|].
    rewrite nth_error_map, Hj. reflexivity.
Qed.

Lemma column_rejects (col : row -> cell) query (df : dataframe) :
  (forall i r, nth_error df i = Some r ->
               (token_sort_ratio query (normalize (str (col r))) < 80)%Q) ->
  accepted (extractOne token_sort_ratio query
              (map (fun r => normalize (str (col r))) df)) = None.
Proof.
  intros Hall. apply search_rejects. intros i c Hi.
  destruct (nth_error_map_Some _ _ _ _ Hi) as (r & Hr & Hc). subst c. eauto.
Qed.


End MatchOneFacts.

(** ** The dispatch run *)

Section DispatchFacts.
Context {V : Type}.
Variable w : world V.
Variable throttle_seconds : nat.

Lemma entries_from_length files items : forall idx,
  List.length (entries_from w files idx items) = List.length items.
Proof. induction items; intros; simpl; auto. Qed.

Lemma entries_from_nth files items : forall idx i m,
  nth_error items i = Some m ->
  nth_error (entries_from w files idx items) i =
    Some (entry_of w (idx + i) m (fst (attempt w files (idx + i) m))).
Proof.
  induction items as [|m0 rest IH]; intros idx [|i] m H; simpl in *; try discriminate.
  - injection H as ->. now rewrite Nat.add_0_r.
  - rewrite (IH (S idx) i m H). now rewrite Nat.add_succ_r.
Qed.

(** A loop that meets the flag set stops at once. *)
Lemma dispatch_loop_flag_set files total idx m rest st :
  flag st = true ->
  dispatch_loop w throttle_seconds files total idx (m :: rest) st =
    (mkLoop true (log st) (trace st ++ [CancelNotice idx]), Cancelled).
Proof. intros H. simpl. now rewrite H. Qed.

(** Without a cancel action the loop goes through all the items. *)
Lemma dispatch_loop_no_cancel files total items : forall idx st,
  idx + List.length items = total ->
  no_cancel_from w idx ->
  flag st = false ->
  dispatch_loop w throttle_seconds files total idx items st =
    (mkLoop false (log st ++ entries_from w files idx items)
            (trace st ++ paused_between throttle_seconds (sends_from w files idx items)),
     Completed).
Proof.
  induction items as [|m rest IH]; intros idx st Htot Hno Hflag.
  - simpl. rewrite !app_nil_r. destruct st; simpl in *; now subst.
  - cbn [dispatch_loop]. rewrite Hflag.
    destruct (attempt w files idx m) as [raised evs] eqn:Ea.
    destruct (Hno idx (le_n _)) as [Hs Hp]. rewrite Hs, Hp. cbn [orb negb].
    cbn [entries_from sends_from]. rewrite Ea. cbn [fst snd].
    assert (Hno' : no_cancel_from w (S idx)) by (intros i Hi; apply Hno; lia).
    simpl in Htot.
    destruct rest as [|m' rest'].
    + assert (E : (idx <? total - 1) = false) by (apply Nat.ltb_ge; simpl in Htot; lia).
      rewrite E. simpl. reflexivity.
    + assert (E : (idx <? total - 1) = true) by (apply Nat.ltb_lt; simpl in Htot; lia).
      rewrite E. cbn [andb].
      rewrite IH; [| simpl in *; lia | exact Hno' | reflexivity ].
      cbn [log trace flag paused_between].
      change (sends_from w files (S idx) (m' :: rest'))
        with (snd (attempt w files (S idx) m') :: sends_from w files (S (S idx)) rest').
      f_equal. f_equal.
      * now rewrite <- app_assoc.
      * rewrite <- !app_assoc. reflexivity.
Qed.

Lemma dispatch_loop_cancel files total items : forall idx st j,
  idx + List.length items = total ->
  idx <= j -> S j < total ->
  (forall i, idx <= i -> i < j ->
     cancel_during_send w i = false /\ cancel_during_sleep w i = false) ->
  cancel_during_send w j || cancel_during_sleep w j = true ->
  flag st = false ->
  dispatch_loop w throttle_seconds files total idx items st =
    (mkLoop true (log st ++ entries_from w files idx (firstn (S j - idx) items))
            (trace st ++ cancelled_trace w throttle_seconds files idx j items),
     Cancelled).
Proof.
  induction items as [|m rest IH]; intros idx st j Htot Hle Hlt Hno Hclick Hflag.
  - simpl in Htot. lia.
  - simpl in Htot. cbn [dispatch_loop]. rewrite Hflag.
    destruct (attempt w files idx m) as [raised evs] eqn:Ea.
    assert (E : (idx <? total - 1) = true) by (apply Nat.ltb_lt; lia).
    rewrite E. cbn [orb andb].
    destruct (Nat.eq_dec idx j) as [->|Hne].
    + (* the action lands at this item *)
      destruct rest as [|m' rest']; [simpl in Htot; lia|].
      unfold cancelled_trace.
      replace (S j - j) with 1 by lia. cbn [firstn entries_from sends_from paused_between].
      rewrite Ea. cbn [fst snd].
      destruct (cancel_during_send w j) eqn:Es; cbn [negb].
      * rewrite dispatch_loop_flag_set by reflexivity. cbn [log trace].
        rewrite <- !app_assoc. reflexivity.
      * simpl in Hclick. rewrite Hclick.
        rewrite dispatch_loop_flag_set by reflexivity. cbn [log trace].
        rewrite <- !app_assoc. reflexivity.
    + destruct (Hno idx (le_n _) ltac:(lia)) as [Hs Hp]. rewrite Hs, Hp. cbn [negb].
      rewrite (IH (S idx) _ j); [| lia | lia | lia | intros; apply Hno; lia
                                 | exact Hclick | reflexivity ].
      cbn [log trace]. unfold cancelled_trace.
      replace (S j - idx) with (S (S j - S idx)) by lia.
      cbn [firstn entries_from sends_from]. rewrite Ea. cbn [fst snd].
      destruct rest as [|m' rest']; [simpl in Htot; lia|].
      replace (S j - S idx) with (S (j - S idx)) by lia.
      cbn [firstn sends_from paused_between].
      f_equal. f_equal.
      * now rewrite <- app_assoc.
      * rewrite <- !app_assoc. reflexivity.
Qed.

Lemma sends_index files items : forall idx i r p b,
  In (Sent_ i r p b) (paused_between throttle_seconds (sends_from w files idx items)) ->
  idx <= i < idx + List.length items.
Proof.
  induction items as [|m rest IH]; intros idx i r p b Hin; [destruct Hin|].
  assert (Hhead : forall e, In e (snd (attempt w files idx m)) ->
                            e = Sent_ i r p b -> i = idx).
  { intros e He ->. unfold attempt in He.
    destruct (Dict.get (pdf_name m) files); simpl in He; [|tauto].
    destruct He as [[= ->]|[]]. reflexivity. }
  cbn [sends_from paused_between] in Hin. simpl List.length.
  destruct rest as [|m' rest'].
  - simpl in Hin. rewrite (Hhead _ Hin eq_refl). lia.
  - apply in_app_or in Hin as [Hin | Hin].
    + rewrite (Hhead _ Hin eq_refl). simpl. lia.
    + apply in_app_or in Hin as [[Hin|[]] | Hin]; [discriminate|].
      apply IH in Hin. simpl in *. lia.
Qed.

(** C3.  The flag is polled before each item.  When the first cancel
    action lands while item [j] is being sent or during the pause after it,
    and items remain, the poll before item [j + 1] sees the flag: the run
    ends cancelled, the log holds exactly the entries of items 0 to [j], in
    order, no item after [j] is sent, and the last event is the notice of
    cancellation.  (With five items and the action after the second one,
    [j = 1]: two entries, items 2 to 4 never attempted.) *)
Theorem cancel_stops_the_run (s : session V) (selected_matches : list match_t)
    (j : nat) :
  (forall i, i < j ->
     cancel_during_send w i = false /\ cancel_during_sleep w i = false) ->
  cancel_during_send w j || cancel_during_sleep w j = true ->
  j + 1 < List.length selected_matches ->
  forall s' t tr,
    on_send w throttle_seconds s selected_matches = (s', t, tr) ->
    t = Cancelled /\
    send_log s' = entries_from w (pdf_files s) 0 (firstn (j + 1) selected_matches) /\
    List.length (send_log s') = j + 1 /\
    (forall i m, nth_error selected_matches i = Some m -> i <= j ->
       exists e, nth_error (send_log s') i = Some e /\
                 nombre_archivo e = pdf_name m /\ email_destino e = email m) /\
    (forall i r p b, In (Sent_ i r p b) tr -> i <= j) /\
    (exists tr0, tr = tr0 ++ [CancelNotice (j + 1)]).
Proof.
  intros Hno Hclick Hlen s' t tr Hrun. unfold on_send in Hrun.
  cbn [enter_running pdf_files cancel_requested] in Hrun.
  rewrite (dispatch_loop_cancel (pdf_files s) (List.length selected_matches)
             selected_matches 0 _ j) in Hrun;
    [| reflexivity | lia | lia | intros; apply Hno; lia | exact Hclick | reflexivity ].
  cbn [log trace app] in Hrun. injection Hrun as <- <- <-. cbn [send_log].
  rewrite ?Nat.sub_0_r. replace (j + 1) with (S j) by lia.
  change (match selected_matches with [] => [] | a :: l => a :: firstn j l end)
    with (firstn (S j) selected_matches).
  split; [reflexivity|]. split; [reflexivity|]. split; [|split; [|split]].
  - rewrite entries_from_length, length_firstn. lia.
  - intros i m Hi Hij.
    assert (Hf : nth_error (firstn (S j) selected_matches) i = Some m).
    { rewrite nth_error_firstn. destruct (Nat.ltb_spec i (S j)); [assumption | lia]. }
    rewrite (entries_from_nth _ _ _ _ _ Hf). eexists. split; [reflexivity|].
    unfold entry_of. destruct (fst _); simpl; auto.
  - intros i r p b Hin. unfold cancelled_trace in Hin.
    apply in_app_or in Hin as [Hin | Hin].
    + apply sends_index in Hin. rewrite length_firstn in Hin. lia.
    + apply in_app_or in Hin as [Hin | [Hin|[]]]; [|discriminate].
      destruct (cancel_during_send w j); simpl in Hin; [tauto|].
      destruct Hin as [Hin|[]]. discriminate.
  - unfold cancelled_trace. eexists. rewrite app_assoc. reflexivity.
Qed.

(** C4.  In a run no cancel action interrupts, every item gets exactly one
    log entry, in input order: [Enviado] with an empty message when the
    attempt returns, [Error] with the text of the exception when the
    look-up of the document or the transport raises; a raise never ends the
    run, which completes.  The pause is taken between two consecutive items
    and not after the last. *)
Theorem errors_do_not_abort (s : session V) (selected_matches : list match_t) :
  (forall i, cancel_during_send w i = false /\ cancel_during_sleep w i = false) ->
  forall s' t tr,
    on_send w throttle_seconds s selected_matches = (s', t, tr) ->
    t = Completed /\
    List.length (send_log s') = List.length selected_matches /\
    (forall i m, nth_error selected_matches i = Some m ->
       exists e,
         nth_error (send_log s') i = Some e /\
         nombre_archivo e = pdf_name m /\ email_destino e = email m /\
         timestamp e = now w i /\
         ((estado_ e = Enviado /\ mensaje_de_error e = "") \/ estado_ e = Error) /\
         (forall pdf_bytes,
            Dict.get (pdf_name m) (pdf_files s) = Some pdf_bytes ->
            match send_email w i (email m) (pdf_name m) pdf_bytes with
            | Some msg => estado_ e = Error /\ mensaje_de_error e = msg
            | None => estado_ e = Enviado /\ mensaje_de_error e = ""
            end) /\
         (Dict.get (pdf_name m) (pdf_files s) = None ->
          estado_ e = Error /\ mensaje_de_error e = repr w (pdf_name m))) /\
    tr = paused_between throttle_seconds (sends_from w (pdf_files s) 0 selected_matches).
Proof.
  intros Hno s' t tr Hrun. unfold on_send in Hrun.
  cbn [enter_running pdf_files cancel_requested] in Hrun.
  rewrite (dispatch_loop_no_cancel (pdf_files s) (List.length selected_matches)
             selected_matches 0) in Hrun;
    [| reflexivity | intros i _; apply Hno | reflexivity ].
  cbn [log trace app] in Hrun. injection Hrun as <- <- <-. cbn [send_log].
  split; [reflexivity|]. split; [apply entries_from_length|]. split; [|reflexivity].
  intros i m Hi. rewrite (entries_from_nth _ _ _ _ _ Hi). cbn [Nat.add].
  eexists. split; [reflexivity|].
  unfold attempt.
  destruct (Dict.get (pdf_name m) (pdf_files s)) as [b|] eqn:Eg; cbn [fst].
  - destruct (send_email w i (email m) (pdf_name m) b) as [msg|] eqn:Es; simpl;
      (repeat split; auto; try discriminate);
      intros b' [= <-]; rewrite Es; auto.
  - simpl. repeat split; auto; discriminate.
Qed.

(** C9.  Entering the run empties the log and raises [sending]; when the run
    is over, completed or cancelled, [sending] and [cancel_requested] are
    both false, and the log holds entries of this run only: nothing of the
    session's earlier log or flags has a part in the outcome. *)
Theorem run_resets_flags (s : session V) (selected_matches : list match_t) :
  send_log (enter_running s) = [] /\
  sending (enter_running s) = true /\
  cancel_requested (enter_running s) = false /\
  (let '(s', t, _) := on_send w throttle_seconds s selected_matches in
   (t = Completed \/ t = Cancelled) /\
   sending s' = false /\ cancel_requested s' = false /\
   pdf_files s' = pdf_files s /\
   List.length (send_log s') <= List.length selected_matches) /\
  (forall old_log old_sending old_cancel,
     on_send w throttle_seconds
       (mkSession (pdf_files s) old_log old_sending old_cancel) selected_matches
     = on_send w throttle_seconds s selected_matches).
Proof.
  split; [reflexivity|]. split; [reflexivity|]. split; [reflexivity|].
  split; [|reflexivity].
  unfold on_send. cbn [enter_running pdf_files cancel_requested].
  destruct (dispatch_loop w throttle_seconds (pdf_files s)
              (List.length selected_matches) 0 selected_matches
              (mkLoop false [] [])) as [st t] eqn:E.
  cbn [sending cancel_requested pdf_files send_log].
  split; [destruct t; auto|]. repeat split.
  assert (G : forall items total idx st0 st1 t1,
             dispatch_loop w throttle_seconds (pdf_files s) total idx items st0
               = (st1, t1) ->
             List.length (log st1) <= List.length (log st0) + List.length items).
  { clear. induction items as [|m rest IH]; intros total idx st0 st1 t1 H.
    - injection H as <- _. simpl. lia.
    - cbn [dispatch_loop] in H. destruct (flag st0).
      + injection H as <- _. simpl. lia.
      + destruct (attempt w (pdf_files s) idx m) as [raised evs].
        destruct ((idx <? total - 1) && negb (false || cancel_during_send w idx));
          apply IH in H; cbn [log] in H; rewrite length_app in H; simpl in *; lia. }
  apply G in E. simpl in E. exact E.
Qed.

End DispatchFacts.

(** ** The splitter *)

Section DictFacts.
Context {V : Type}.

Lemma dict_get_set_same (k : string) (v : V) d :
  Dict.get k (Dict.set k v d) = Some v.
Proof.
  induction d as [|[k' v'] d IH]; simpl.
  - now rewrite String.eqb_refl.
  - destruct (String.eqb k' k) eqn:E; simpl; now rewrite E.
Qed.

Lemma dict_get_set_other (k k' : string) (v : V) d :
  k' <> k -> Dict.get k (Dict.set k' v d) = Dict.get k d.
Proof.
  intros Hne. induction d as [|[k0 v0] d IH]; simpl.
  - apply String.eqb_neq in Hne. now rewrite Hne.
  - destruct (String.eqb k0 k') eqn:E; simpl.
    + apply String.eqb_eq in E. subst k0.
      apply String.eqb_neq in Hne. now rewrite Hne.
    + now rewrite IH.
Qed.

Lemma store_all_other k (kvs : list (string * V)) : forall d,
  (forall v, ~ In (k, v) kvs) ->
  Dict.get k (store_all kvs d) = Dict.get k d.
Proof.
  induction kvs as [|[k0 v0] kvs IH]; intros d Hno; simpl; [reflexivity|].
  unfold store_all in *. simpl. rewrite IH.
  - apply dict_get_set_other. intros ->. apply (Hno v0). now left.
  - intros v Hin. apply (Hno v). now right.
Qed.

(** The binding that stays under a key is the last one stored for it. *)
Lemma store_all_last (kvs : list (string * V)) : forall i k v d,
  nth_error kvs i = Some (k, v) ->
  (forall i' v', i < i' -> nth_error kvs i' <> Some (k, v')) ->
  Dict.get k (store_all kvs d) = Some v.
Proof.
  induction kvs as [|[k0 v0] kvs IH]; intros [|i] k v d Hi Hlast;
    simpl in Hi; try discriminate.
  - injection Hi as -> ->. unfold store_all. simpl.
    fold (store_all kvs (Dict.set k v d)).
    rewrite store_all_other; [apply dict_get_set_same|].
    intros v' Hin. apply In_nth_error in Hin as [n Hn].
    apply (Hlast (S n) v'); [lia | exact Hn].
  - unfold store_all. simpl. fold (store_all kvs (Dict.set k0 v0 d)).
    apply IH with (i := i); [exact Hi|].
    intros i' v' Hlt. apply (Hlast (S i') v'). lia.
Qed.

Lemma store_all_origin (kvs : list (string * V)) : forall k v d,
  Dict.get k (store_all kvs d) = Some v ->
  In (k, v) kvs \/ Dict.get k d = Some v.
Proof.
  induction kvs as [|[k0 v0] kvs IH]; intros k v d H; [now right|].
  unfold store_all in H. simpl in H. fold (store_all kvs (Dict.set k0 v0 d)) in H.
  apply IH in H as [H | H]; [left; now right|].
  destruct (string_dec k0 k) as [->|Hne].
  - rewrite dict_get_set_same in H. injection H as ->. left. now left.
  - rewrite dict_get_set_other in H by assumption. now right.
Qed.

End DictFacts.

Lemma split_is_store_all doc cif :
  split_pdf_by_cif doc cif =
  store_all (map (letter_entry doc cif (indices_inicio doc cif))
                 (enumerate (indices_inicio doc cif))) Dict.empty.
Proof.
  unfold split_pdf_by_cif.
  assert (G : forall indices items d,
             fold_left (split_step doc cif indices) items d =
             store_all (map (letter_entry doc cif indices) items) d).
  { intros indices. induction items as [|[idx sp] items IH]; intros d; [reflexivity|].
    simpl. rewrite IH. reflexivity. }
  destruct (indices_inicio doc cif) eqn:E; [reflexivity|]. rewrite <- E. apply G.
Qed.

Lemma enumerate_nth {A : Type} (l : list A) k x :
  nth_error l k = Some x -> nth_error (enumerate l) k = Some (k, x).
Proof.
  intros H. unfold enumerate.
  assert (Hk : k < List.length l) by (apply nth_error_Some; congruence).
  assert (G : forall (l : list A) a k x, nth_error l k = Some x ->
             nth_error (combine (seq a (List.length l)) l) k = Some (a + k, x)).
  { clear. induction l as [|y l IH]; intros a [|k] x H; simpl in *; try discriminate.
    - injection H as ->. now rewrite Nat.add_0_r.
    - rewrite (IH (S a) k x H). f_equal. f_equal. lia. }
  apply (G l 0 k x H).
Qed.

Lemma enumerate_nth_inv {A : Type} (l : list A) k i x :
  nth_error (enumerate l) k = Some (i, x) -> i = k /\ nth_error l k = Some x.
Proof.
  intros H.
  destruct (nth_error l k) as [y|] eqn:E.
  - rewrite (enumerate_nth l k y E) in H. injection H as <- <-. auto.
  - apply nth_error_None in E.
    assert (Hn : nth_error (enumerate l) k = None).
    { apply nth_error_None. unfold enumerate.
      rewrite length_combine, length_seq. lia. }
    congruence.
Qed.

Lemma indices_inicio_in doc cif p :
  In p (indices_inicio doc cif) <->
  p < List.length doc /\ Str.contains (L cif) (L (page_text doc p)) = true.
Proof.
  unfold indices_inicio. rewrite filter_In, in_seq. intuition lia.
Qed.

Lemma filter_seq_increasing (f : nat -> bool) n : forall a,
  StronglySorted lt (filter f (seq a n)).
Proof.
  induction n as [|n IH]; intros a; simpl; [constructor|].
  destruct (f a); [|apply IH].
  constructor; [apply IH|].
  apply Forall_forall. intros x Hx. apply filter_In in Hx as [Hx _].
  apply in_seq in Hx. lia.
Qed.

Lemma increasing_next (l : list nat) : forall k a b,
  StronglySorted lt l ->
  nth_error l k = Some a -> nth_error l (S k) = Some b -> a < b.
Proof.
  induction l as [|x l IH]; intros k a b Hs Ha Hb; [destruct k; discriminate|].
  inversion Hs as [|? ? Hs' Hall]; subst.
  destruct k as [|k].
  - simpl in Ha. injection Ha as ->. rewrite Forall_forall in Hall. apply Hall.
    apply (nth_error_In l 0). exact Hb.
  - apply (IH k a b Hs' Ha Hb).
Qed.

Lemma end_page_of_last_page doc indices k :
  end_page_of doc indices k = last_page_of doc indices k.
Proof.
  unfold end_page_of, last_page_of. rewrite Nat.add_1_r.
  destruct (Nat.ltb_spec (S k) (List.length indices)) as [Hlt | Hge].
  - destruct (nth_error indices (S k)) as [next|] eqn:E.
    + now rewrite (nth_error_nth _ _ _ E).
    + apply nth_error_None in E. lia.
  - apply nth_error_None in Hge. now rewrite Hge.
Qed.

(** C7, as stated, fails: a 6-page document with the marker on pages 0 and 3
    whose two letters get the same label yields one letter, pages 3 to 5. *)
Lemma split_same_label_one_letter :
  List.length doc_same_label = 6 /\
  indices_inicio doc_same_label "B1" = [0; 3] /\
  split_pdf_by_cif doc_same_label "B1" = [("ACME", mkLetter 3 5)] /\
  ~ (exists l0 l1, split_pdf_by_cif doc_same_label "B1"
                   = [(l0, mkLetter 0 2); (l1, mkLetter 3 5)]).
Proof.
  split; [reflexivity|]. split; [reflexivity|].
  assert (E : split_pdf_by_cif doc_same_label "B1" = [("ACME", mkLetter 3 5)])
    by (vm_compute; reflexivity).
  split; [exact E|]. intros (l0 & l1 & H). rewrite E in H. discriminate.
Qed.

(** C7, amended.  The first pages of the letters are the pages that contain
    the marker, in increasing order; with none the result is the empty
    mapping.  Letter [k] runs from its first page to the page before the
    first page of letter [k + 1], the last letter to the last page of the
    document, and it is what the mapping holds under its label unless a
    later letter has the same label; the mapping holds nothing else.  A
    6-page document with the marker on pages 0 and 3 and two different
    labels yields the two letters of pages 0-2 and 3-5. *)
Theorem split_letter_spans (doc : pdf_doc) (cif : string) :
  let indices := indices_inicio doc cif in
  let label := fun k start => nombre_limpio_of cif (page_text doc start) k in
  (forall p, In p indices <->
     p < List.length doc /\ Str.contains (L cif) (L (page_text doc p)) = true) /\
  StronglySorted lt indices /\
  (indices = [] -> split_pdf_by_cif doc cif = Dict.empty) /\
  (forall k start, nth_error indices k = Some start ->
     start <= last_page_of doc indices k < List.length doc /\
     ((forall k' start', k < k' -> nth_error indices k' = Some start' ->
                         label k' start' <> label k start) ->
      Dict.get (label k start) (split_pdf_by_cif doc cif)
      = Some (mkLetter start (last_page_of doc indices k)))) /\
  (forall key l, Dict.get key (split_pdf_by_cif doc cif) = Some l ->
     exists k start, nth_error indices k = Some start /\ key = label k start /\
                     l = mkLetter start (last_page_of doc indices k)) /\
  (List.length doc = 6 -> indices = [0; 3] -> label 0 0 <> label 1 3 ->
   split_pdf_by_cif doc cif
   = [(label 0 0, mkLetter 0 2); (label 1 3, mkLetter 3 5)]).
Proof.
  intros indices label.
  assert (Hsorted : StronglySorted lt indices) by apply filter_seq_increasing.
  split; [apply indices_inicio_in|]. split; [exact Hsorted|].
  split; [|split; [|split]].
  - intros E. unfold split_pdf_by_cif. fold indices. now rewrite E.
  - intros k start Hk. split.
    + assert (Hstart : start < List.length doc).
      { apply (indices_inicio_in doc cif start). eapply nth_error_In; eauto. }
      unfold last_page_of. destruct (nth_error indices (S k)) as [next|] eqn:En.
      * pose proof (increasing_next _ _ _ _ Hsorted Hk En).
        assert (next < List.length doc).
        { apply (indices_inicio_in doc cif next). eapply nth_error_In; eauto. }
        lia.
      * lia.
    + intros Hlater. rewrite split_is_store_all. fold indices.
      apply store_all_last with (i := k).
      * rewrite nth_error_map, (enumerate_nth _ _ _ Hk). simpl.
        unfold letter_entry. simpl. now rewrite end_page_of_last_page.
      * intros k' v' Hlt Hk'. apply nth_error_map_Some in Hk' as ([i x] & Hx & Heq).
        apply enumerate_nth_inv in Hx as [-> Hx].
        unfold letter_entry in Heq. simpl in Heq. injection Heq as Hl _.
        apply (Hlater k' x Hlt Hx). symmetry. exact Hl.
  - intros key l Hget. rewrite split_is_store_all in Hget. fold indices in Hget.
    apply store_all_origin in Hget as [Hin | Hget]; [|discriminate].
    apply In_nth_error in Hin as [k Hk].
    apply nth_error_map_Some in Hk as ([i x] & Hx & Heq).
    apply enumerate_nth_inv in Hx as [-> Hx].
    unfold letter_entry in Heq. simpl in Heq. injection Heq as -> ->.
    exists k, x. rewrite end_page_of_last_page. auto.
  - intros Hlen Hidx Hne. unfold split_pdf_by_cif. fold indices. rewrite Hidx.
    unfold enumerate. simpl. unfold end_page_of. simpl. rewrite Hlen. simpl.
    fold (label 0 0). fold (label 1 3).
    apply String.eqb_neq in Hne. now rewrite Hne.
Qed.

(** ** Label inference *)

(** C8, as stated, fails: pattern B is not confined to the first line that
    contains the marker.  When the line after it is rejected, a later marker
    line still gives the label, where the stated rule synthesizes one. *)
Lemma label_second_marker_line :
  nombre_cliente_of "B1" page_two_markers 0 = L "ACME" /\
  nombre_limpio_of "B1" page_two_markers 0 = "ACME" /\
  label_by_spec "B1" page_two_markers 0 = L "Cliente_001" /\
  nombre_cliente_of "B1" page_two_markers 0 <> label_by_spec "B1" page_two_markers 0.
Proof.
  assert (E1 : nombre_cliente_of "B1" page_two_markers 0 = L "ACME")
    by (vm_compute; reflexivity).
  assert (E2 : label_by_spec "B1" page_two_markers 0 = L "Cliente_001")
    by (vm_compute; reflexivity).
  split; [exact E1|]. split; [vm_compute; reflexivity|]. split; [exact E2|].
  rewrite E1, E2. discriminate.
Qed.

Lemma scan_lineas_first cif lineas : forall i linea next,
  nth_error lineas i = Some linea ->
  nth_error lineas (S i) = Some next ->
  yields cif linea next = true ->
  (forall i' l' n', i' < i -> nth_error lineas i' = Some l' ->
     nth_error lineas (S i') = Some n' -> yields cif l' n' = false) ->
  scan_lineas cif [] lineas = next.
Proof.
  induction lineas as [|l0 rest IH]; intros i linea next Hi Hn Hy Hfirst;
    [destruct i; discriminate|].
  destruct i as [|i].
  - simpl in Hi. injection Hi as ->.
    destruct rest as [|n0 rest']; [discriminate|].
    simpl in Hn. injection Hn as ->.
    unfold yields, is_pattern_a, a_accepts, b_accepts in Hy.
    cbn [scan_lineas Str.is_empty hd andb].
    destruct (Str.contains (L "ejercicio") (Str.lower linea)
              && Str.contains (L "es de:") (Str.lower linea)
              && negb (Str.eqb (Str.lower next) (L "euros"))) eqn:Ea;
      [reflexivity|].
    simpl in Hy. rewrite andb_true_r.
    destruct (Str.contains cif linea); simpl in *; [|discriminate].
    now rewrite Hy.
  - destruct rest as [|n0 rest']; [destruct i; discriminate|].
    assert (H0 : yields cif l0 n0 = false)
      by (apply (Hfirst 0 l0 n0); [lia | reflexivity | reflexivity]).
    unfold yields, is_pattern_a, a_accepts, b_accepts in H0.
    apply orb_false_iff in H0 as [Ha Hb].
    cbn [scan_lineas Str.is_empty hd andb].
    rewrite Ha. rewrite andb_true_r.
    destruct (Str.contains cif l0); simpl in Hb |- *.
    + rewrite Hb. apply (IH i linea next Hi Hn Hy).
      intros i' l' n' Hlt. apply (Hfirst (S i') l' n'). lia.
    + apply (IH i linea next Hi Hn Hy).
      intros i' l' n' Hlt. apply (Hfirst (S i') l' n'). lia.
Qed.

Lemma scan_lineas_none cif lineas :
  (forall i linea next, nth_error lineas i = Some linea ->
     nth_error lineas (S i) = Some next -> yields cif linea next = false) ->
  scan_lineas cif [] lineas = [].
Proof.
  induction lineas as [|l0 rest IH]; intros Hno; [reflexivity|].
  destruct rest as [|n0 rest'].
  - simpl. now rewrite !andb_false_r.
  - assert (H0 : yields cif l0 n0 = false) by (apply (Hno 0); reflexivity).
    unfold yields, is_pattern_a, a_accepts, b_accepts in H0.
    apply orb_false_iff in H0 as [Ha Hb].
    cbn [scan_lineas Str.is_empty hd andb].
    rewrite Ha. rewrite andb_true_r.
    assert (IH' : scan_lineas cif [] (n0 :: rest') = [])
      by (apply IH; intros i l n; apply (Hno (S i))).
    destruct (Str.contains cif l0); simpl in Hb |- *; [rewrite Hb|]; exact IH'.
Qed.

Lemma lineas_of_nonempty texto l :
  In l (lineas_of texto) -> Str.is_empty l = false.
Proof.
  unfold lineas_of. intros H. apply in_map_iff in H as (x & <- & Hx).
  apply filter_In in Hx as [_ Hx]. now apply negb_true_iff in Hx.
Qed.

Lemma cliente_default_checked :
  forallb (fun idx =>
             String.eqb (cliente_default idx) (cliente_3_digits (idx + 1))
             && Str.eqb (limpiar (L (cliente_default idx))) (L (cliente_default idx)))
          (seq 0 999) = true.
Proof. vm_compute. reflexivity. Qed.

Lemma Str_eqb_eq (a b : Str.chars) : Str.eqb a b = true -> a = b.
Proof.
  unfold Str.eqb. intros H. apply String.eqb_eq in H.
  rewrite <- (list_ascii_of_string_of_list_ascii a),
          <- (list_ascii_of_string_of_list_ascii b).
  now rewrite H.
Qed.

Lemma cliente_default_small idx :
  idx + 1 < 1000 ->
  cliente_default idx = cliente_3_digits (idx + 1) /\
  limpiar (L (cliente_default idx)) = L (cliente_default idx).
Proof.
  intros Hlt. pose proof cliente_default_checked as H.
  rewrite forallb_forall in H.
  assert (Hin : In idx (seq 0 999)) by (apply in_seq; lia).
  apply H in Hin. apply andb_true_iff in Hin as [H1 H2].
  split; [now apply String.eqb_eq | now apply Str_eqb_eq].
Qed.

(** C8, amended.  The lines of the first page are scanned once, in order.
    A line yields the line after it when it holds [ejercicio] and [es de:]
    (case ignored) and the next line is not [euros] (pattern A), or else
    when it holds the marker and the next line holds neither [Muy Sr] nor
    [URANO] (pattern B, tried on a line only after pattern A gave nothing
    there).  The name is the line after the first line that yields, be it
    by pattern A or by pattern B and whichever marker line it is.  When no
    line yields, the name is [Cliente_] followed by the letter's 1-based
    number padded with zeros to three digits, and that is the letter's key. *)
Theorem label_first_yielding_line (cif texto : string) (idx : nat) :
  let lineas := lineas_of texto in
  (forall i linea next,
     nth_error lineas i = Some linea ->
     nth_error lineas (S i) = Some next ->
     yields (L cif) linea next = true ->
     (forall i' l' n', i' < i -> nth_error lineas i' = Some l' ->
        nth_error lineas (S i') = Some n' -> yields (L cif) l' n' = false) ->
     nombre_cliente_of cif texto idx = next) /\
  ((forall i linea next,
      nth_error lineas i = Some linea ->
      nth_error lineas (S i) = Some next ->
      yields (L cif) linea next = false) ->
   nombre_cliente_of cif texto idx = L (cliente_default idx) /\
   (idx + 1 < 1000 ->
    cliente_default idx = cliente_3_digits (idx + 1) /\
    nombre_limpio_of cif texto idx = cliente_3_digits (idx + 1))).
Proof.
  intros lineas. split.
  - intros i linea next Hi Hn Hy Hfirst. unfold nombre_cliente_of. fold lineas.
    rewrite (scan_lineas_first (L cif) lineas i linea next Hi Hn Hy Hfirst).
    assert (Hne : Str.is_empty next = false).
    { apply (lineas_of_nonempty texto). eapply nth_error_In; eauto. }
    now rewrite Hne.
  - intros Hno.
    assert (E : nombre_cliente_of cif texto idx = L (cliente_default idx)).
    { unfold nombre_cliente_of. fold lineas.
      now rewrite (scan_lineas_none (L cif) lineas Hno). }
    split; [exact E|]. intros Hlt.
    destruct (cliente_default_small idx Hlt) as [Hd Hl].
    split; [exact Hd|].
    unfold nombre_limpio_of. rewrite E, Hl.
    assert (Hne : Str.is_empty (L (cliente_default idx)) = false)
      by (rewrite Hd; reflexivity).
    rewrite Hne. unfold L. rewrite string_of_list_ascii_of_string. exact Hd.
Qed.

(** ** The normalizer *)

(** C5.  The two names do not normalize to the same string: the dotted
    suffix at the end of [Acme, S.L.] is not stripped, for [\b] after the
    final dot asks for a word character next, and its letters stay. *)
Theorem normalize_acme_differs :
  normalize "Acme, S.L." = "acme s l" /\
  normalize "acme sl" = "acme" /\
  normalize "Acme, S.L." <> normalize "acme sl".
Proof.
  assert (E1 : normalize "Acme, S.L." = "acme s l") by (vm_compute; reflexivity).
  assert (E2 : normalize "acme sl" = "acme") by (vm_compute; reflexivity).
  split; [exact E1|]. split; [exact E2|]. rewrite E1, E2. discriminate.
Qed.

(** C6.  [normalize] is not idempotent.  [_PUNCTUATION] takes the
    underscore for a separator, as it takes the hyphen and the slash, but
    in [_LEGAL_SUFFIXES], which is applied first, [\b] takes it for a word
    character: a suffix written after an underscore is not a whole word on
    the first pass and stays, and is one on the second pass, when the
    underscore has become a space, and goes.  After any other separator the
    suffix goes on the first pass. *)
Theorem normalize_underscore_not_idempotent :
  normalize "_sl" = "sl" /\
  normalize (normalize "_sl") = "" /\
  normalize (normalize "_sl") <> normalize "_sl" /\
  normalize "ACME_SL" = "acme sl" /\
  normalize (normalize "ACME_SL") = "acme" /\
  normalize (normalize "ACME_SL") <> normalize "ACME_SL" /\
  normalize "ACME-SL" = "acme" /\
  normalize "ACME/SL" = "acme" /\
  normalize "ACME SL" = "acme".
Proof.
  assert (E1 : normalize "_sl" = "sl") by (vm_compute; reflexivity).
  assert (E2 : normalize (normalize "_sl") = "") by (vm_compute; reflexivity).
  assert (E3 : normalize "ACME_SL" = "acme sl") by (vm_compute; reflexivity).
  assert (E4 : normalize (normalize "ACME_SL") = "acme") by (vm_compute; reflexivity).
  split; [exact E1|]. split; [exact E2|].
  split; [rewrite E2, E1; discriminate|].
  split; [exact E3|]. split; [exact E4|].
  split; [rewrite E4, E3; discriminate|].
  repeat split; vm_compute; reflexivity.
Qed.

(** *** Facts on characters, by inspection of the 256 code points *)

Lemma lower_lower c : Char.lower (Char.lower c) = Char.lower c.
Proof. each_char c. Qed.

Lemma lower_underscore c : Char.lower c = "_"%char -> c = "_"%char.
Proof. each_char c. Qed.

Lemma like_s_word c : Re.lit_matches true "s" c = true -> Char.is_word c = true.
Proof. each_char c. Qed.

Lemma like_l_word c : Re.lit_matches true "l" c = true -> Char.is_word c = true.
Proof. each_char c. Qed.

Lemma like_u_word c : Re.lit_matches true "u" c = true -> Char.is_word c = true.
Proof. each_char c. Qed.

Lemma like_a_word c : Re.lit_matches true "a" c = true -> Char.is_word c = true.
Proof. each_char c. Qed.

Lemma like_dot c : Re.lit_matches true "." c = true -> c = "."%char.
Proof. each_char c. Qed.

Lemma punct_word c :
  is_punct c = true -> Char.is_word c = true -> c = "_"%char.
Proof. each_char c. Qed.

Lemma space_not_word c : Char.is_space c = true -> Char.is_word c = false.
Proof. each_char c. Qed.

Lemma space_not_punct c : Char.is_space c = true -> is_punct c = false.
Proof. each_char c. Qed.

(** *** The suffix pattern in normal form *)

Lemma ends_lit t : forall n prev s,
  Re.ends true (Re.lit t) (n, prev, s) =
  match ci_strip t prev s with
  | Some (last, rest) => [(n + List.length t, last, rest)]
  | None => []
  end.
Proof.
  induction t as [|p t IH]; intros n prev s.
  - simpl. now rewrite Nat.add_0_r.
  - destruct t as [|p2 t'].
    + cbn [Re.lit Re.ends ci_strip List.length]. destruct s as [|c s']; [reflexivity|].
      destruct (Re.lit_matches true p c); [|reflexivity].
      now rewrite Nat.add_1_r.
    + change (Re.lit (p :: p2 :: t')) with (Re.Cat (Re.Lit p) (Re.lit (p2 :: t'))).
      change (ci_strip (p :: p2 :: t') prev s)
        with (match s with
              | c :: s' =>
                  if Re.lit_matches true p c then ci_strip (p2 :: t') (Some c) s'
                  else None
              | [] => None
              end).
      cbn [Re.ends]. destruct s as [|c s']; [reflexivity|].
      destruct (Re.lit_matches true p c); [|reflexivity].
      cbn [flat_map]. rewrite IH, app_nil_r.
      destruct (ci_strip (p2 :: t') (Some c) s') as [[last rest]|]; [|reflexivity].
      f_equal. f_equal. f_equal. simpl. lia.
Qed.

Lemma ends_lit_boundary t prev s :
  flat_map (Re.ends true Re.WordBoundary) (Re.ends true (Re.lit t) (0, prev, s)) =
  match try_tok t prev s with
  | Some n =>
      match ci_strip t prev s with
      | Some (last, rest) => [(n, last, rest)]
      | None => []
      end
  | None => []
  end.
Proof.
  rewrite ends_lit. unfold try_tok.
  destruct (ci_strip t prev s) as [[last rest]|]; [|reflexivity].
  simpl. destruct (Re.at_boundary last rest); reflexivity.
Qed.

Lemma flat_map_app' {A B : Type} (f : A -> list B) l1 l2 :
  flat_map f (l1 ++ l2) = flat_map f l1 ++ flat_map f l2.
Proof. induction l1; simpl; [reflexivity|]. now rewrite IHl1, app_assoc. Qed.

(** The suffix pattern matches where the text is at a word boundary, with
    the first of its alternatives that fits and ends at a word boundary. *)
Lemma match_at_suffix prev s :
  Re.match_at true _LEGAL_SUFFIXES prev s =
  if Re.at_boundary prev s then suffix_alternatives prev s else None.
Proof.
  unfold Re.match_at, _LEGAL_SUFFIXES.
  cbn [Re.ends]. destruct (Re.at_boundary prev s); [|reflexivity].
  cbn [flat_map]. rewrite app_nil_r. cbn [Re.ends].
  rewrite !flat_map_app', !ends_lit_boundary.
  unfold suffix_alternatives, or_else.
  repeat match goal with
  | |- context [try_tok ?t prev s] =>
      let E := fresh "E" in
      destruct (try_tok t prev s) eqn:E;
      [ unfold try_tok in E;
        destruct (ci_strip t prev s) as [[? ?]|]; [|discriminate];
        match type of E with
        | (if ?b then _ else _) = _ => destruct b; [|discriminate]
        end;
        injection E as <-; reflexivity
      | cbn [app] ]
  end.
  reflexivity.
Qed.

(** *** Substitution, one match at a time *)

Lemma sub_from_skip ic r repl m : forall prev rest,
  Re.sub_from ic r repl prev (List.length m) (m ++ rest) =
  Re.sub_from ic r repl (last_of prev m) 0 rest.
Proof.
  induction m as [|c m IH]; intros prev rest; [reflexivity|].
  simpl. apply IH.
Qed.

Lemma ci_strip_shape t : forall prev s last rest,
  ci_strip t prev s = Some (last, rest) ->
  exists m, s = m ++ rest /\ List.length m = List.length t /\ last = last_of prev m.
Proof.
  induction t as [|p t IH]; intros prev s last rest H; cbn [ci_strip] in H.
  - injection H as <- <-. now exists [].
  - destruct s as [|c s']; [discriminate|].
    destruct (Re.lit_matches true p c); [|discriminate].
    apply IH in H as (m & -> & Hl & ->). exists (c :: m). simpl. auto.
Qed.

Lemma suffix_alternatives_found prev s n :
  suffix_alternatives prev s = Some n ->
  exists t, In t alternatives /\ try_tok t prev s = Some n.
Proof.
  intros E. unfold suffix_alternatives, or_else in E.
  repeat match type of E with
  | context [try_tok ?t prev s] =>
      let E' := fresh "E" in
      destruct (try_tok t prev s) eqn:E';
      [ injection E as <-; exists t; split; [simpl; tauto | exact E'] | ]
  end.
  discriminate.
Qed.

(** What [sub] does at a position where the suffix pattern is tried:
    either nothing matches and the character is kept, or a match is
    dropped; it began after a non-word character and what follows it is at
    a word boundary. *)
Lemma suffix_sub_step prev s :
  (Re.match_at true _LEGAL_SUFFIXES prev s = None /\
   Re.sub_from true _LEGAL_SUFFIXES [] prev 0 s =
     match s with
     | [] => []
     | c :: s' => c :: Re.sub_from true _LEGAL_SUFFIXES [] (Some c) 0 s'
     end) \/
  (exists last rest,
     Re.word_opt prev = false /\ List.length rest < List.length s /\
     Re.at_boundary last rest = true /\
     Re.sub_from true _LEGAL_SUFFIXES [] prev 0 s =
       Re.sub_from true _LEGAL_SUFFIXES [] last 0 rest).
Proof.
  destruct (Re.match_at true _LEGAL_SUFFIXES prev s) as [n|] eqn:E.
  - right. pose proof E as E0. rewrite match_at_suffix in E.
    destruct (Re.at_boundary prev s) eqn:Eb; [|discriminate].
    destruct (suffix_alternatives_found _ _ _ E) as (t & Hin & Ht).
    unfold try_tok in Ht.
    destruct (ci_strip t prev s) as [[last rest]|] eqn:Es; [|discriminate].
    destruct (Re.at_boundary last rest) eqn:Eb2; [|discriminate].
    injection Ht as <-.
    destruct (ci_strip_shape _ _ _ _ _ Es) as (m & -> & Hl & ->).
    assert (Hhd : exists c m', m = c :: m' /\ Re.lit_matches true "s" c = true).
    { assert (Ht : exists t', t = "s"%char :: t').
      { simpl in Hin. repeat (destruct Hin as [<- | Hin]; [eexists; reflexivity|]).
        destruct Hin. }
      destruct Ht as (t' & ->).
      destruct m as [|c m']; [discriminate|]. exists c, m'.
      split; [reflexivity|]. cbn [ci_strip app] in Es.
      destruct (Re.lit_matches true "s" c); [reflexivity | discriminate]. }
    destruct Hhd as (c & m' & -> & Hc).
    exists (last_of prev (c :: m')), rest.
    split; [|split; [|split]].
    + unfold Re.at_boundary in Eb. simpl in Eb. rewrite (like_s_word c Hc) in Eb.
      destruct (Re.word_opt prev); [discriminate | reflexivity].
    + rewrite length_app. simpl. lia.
    + exact Eb2.
    + rewrite <- Hl in E0. cbn [app List.length] in E0 |- *.
      cbn [Re.sub_from]. rewrite E0. cbn [app last_of].
      apply (sub_from_skip true _LEGAL_SUFFIXES [] m' (Some c) rest).
  - left. split; [reflexivity|]. destruct s as [|c s']; [reflexivity|].
    cbn [Re.sub_from]. now rewrite E.
Qed.

(** *** Whole-word suffix tokens *)

Lemma wordy_slu : wordy (L "slu").
Proof. repeat constructor; auto using like_s_word, like_l_word, like_u_word. Qed.

Lemma wordy_sl : wordy (L "sl").
Proof. repeat constructor; auto using like_s_word, like_l_word. Qed.

Lemma wordy_sa : wordy (L "sa").
Proof. repeat constructor; auto using like_s_word, like_a_word. Qed.

Lemma agree_end_ok out inp : agree out inp -> end_ok out = end_ok inp.
Proof.
  destruct inp as [|c inp']; simpl.
  - now intros ->.
  - destruct (Char.is_word c) eqn:E.
    + intros (out' & -> & _). unfold end_ok. simpl. now rewrite E.
    + intros ->. unfold end_ok. simpl. now rewrite E.
Qed.

Lemma agree_refl s : agree s s.
Proof.
  induction s as [|c s IH]; simpl; [reflexivity|].
  destruct (Char.is_word c) eqn:E; [eauto|].
  unfold end_ok. simpl. now rewrite E.
Qed.

Lemma agree_strip t : wordy t -> forall out inp p1 p2,
  agree out inp ->
  match ci_strip t p1 out with Some (_, rest) => end_ok rest | None => false end =
  match ci_strip t p2 inp with Some (_, rest) => end_ok rest | None => false end.
Proof.
  induction 1 as [|p t Hp Ht IH]; intros out inp p1 p2 Ha.
  - simpl. now apply agree_end_ok.
  - cbn [ci_strip]. destruct inp as [|c inp']; simpl in Ha.
    + now subst out.
    + destruct (Char.is_word c) eqn:E.
      * destruct Ha as (out' & -> & Ha).
        destruct (Re.lit_matches true p c); [|reflexivity]. now apply IH.
      * assert (Hc : Re.lit_matches true p c = false).
        { destruct (Re.lit_matches true p c) eqn:Em; [|reflexivity].
          apply Hp in Em. congruence. }
        rewrite Hc. destruct out as [|c' out']; [reflexivity|].
        unfold end_ok in Ha. simpl in Ha. apply negb_true_iff in Ha.
        destruct (Re.lit_matches true p c') eqn:Em; [|reflexivity].
        apply Hp in Em. congruence.
Qed.

Lemma agree_tok_at out inp : agree out inp -> tok_at out = tok_at inp.
Proof.
  intros Ha. unfold tok_at, tok_ends.
  rewrite (agree_strip _ wordy_slu out inp None None Ha).
  rewrite (agree_strip _ wordy_sl out inp None None Ha).
  rewrite (agree_strip _ wordy_sa out inp None None Ha).
  reflexivity.
Qed.

Lemma ci_strip_prev t : t <> [] -> forall p1 p2 s,
  ci_strip t p1 s = ci_strip t p2 s.
Proof. intros Hne p1 p2 s. destruct t; [congruence|]. reflexivity. Qed.

Lemma ci_strip_last_wordy t : wordy t -> t <> [] -> forall prev s last rest,
  ci_strip t prev s = Some (last, rest) -> Re.word_opt last = true.
Proof.
  induction 1 as [|p t Hp Ht IH]; intros Hne prev s last rest H; [congruence|].
  cbn [ci_strip] in H. destruct s as [|c s']; [discriminate|].
  destruct (Re.lit_matches true p c) eqn:Em; [|discriminate].
  destruct t as [|p2 t'].
  - simpl in H. injection H as <- <-. simpl. now apply Hp.
  - eapply IH; [discriminate | exact H].
Qed.

(** A wordy token that ends a word is an alternative that matches. *)
Lemma tok_ends_try t prev s :
  wordy t -> t <> [] -> tok_ends t s = true ->
  try_tok t prev s = Some (List.length t).
Proof.
  intros Hw Hne H. unfold tok_ends in H. unfold try_tok.
  rewrite (ci_strip_prev t Hne prev None).
  destruct (ci_strip t None s) as [[last rest]|] eqn:E; [|discriminate].
  pose proof (ci_strip_last_wordy t Hw Hne _ _ _ _ E) as Hl.
  unfold Re.at_boundary. rewrite Hl. unfold end_ok in H.
  destruct (Re.word_opt (hd_error rest)); [discriminate | reflexivity].
Qed.

Lemma try_tok_ends t prev s n :
  wordy t -> t <> [] -> try_tok t prev s = Some n -> tok_ends t s = true.
Proof.
  intros Hw Hne H. unfold try_tok in H. unfold tok_ends.
  rewrite (ci_strip_prev t Hne None prev).
  destruct (ci_strip t prev s) as [[last rest]|] eqn:E; [|discriminate].
  pose proof (ci_strip_last_wordy t Hw Hne _ _ _ _ E) as Hl.
  unfold Re.at_boundary in H. rewrite Hl in H. unfold end_ok.
  destruct (Re.word_opt (hd_error rest)); [discriminate | reflexivity].
Qed.

Lemma tok_at_head s :
  tok_at s = true -> Re.word_opt (hd_error s) = true.
Proof.
  unfold tok_at, tok_ends. intros H.
  destruct s as [|c s']; [discriminate|]. simpl hd_error. simpl Re.word_opt.
  cbn [ci_strip L list_ascii_of_string] in H.
  destruct (Re.lit_matches true "s" c) eqn:E; [|discriminate].
  now apply like_s_word.
Qed.

(** Where a token stands after a non-word character, the pattern matches. *)
Lemma tok_at_matches prev s :
  Re.word_opt prev = false -> tok_at s = true ->
  Re.match_at true _LEGAL_SUFFIXES prev s <> None.
Proof.
  intros Hp Ht. rewrite match_at_suffix.
  unfold Re.at_boundary. rewrite Hp, (tok_at_head s Ht). simpl.
  unfold tok_at in Ht. unfold suffix_alternatives, or_else.
  apply orb_true_iff in Ht as [Ht | Ht]; [apply orb_true_iff in Ht as [Ht | Ht]|].
  - rewrite (tok_ends_try _ prev s wordy_slu ltac:(discriminate) Ht).
    destruct (try_tok (L "s.l.u.") prev s); discriminate.
  - rewrite (tok_ends_try _ prev s wordy_sl ltac:(discriminate) Ht).
    destruct (try_tok (L "s.l.u.") prev s); [discriminate|].
    destruct (try_tok (L "slu") prev s); [discriminate|].
    destruct (try_tok (L "s.l.") prev s); discriminate.
  - rewrite (tok_ends_try _ prev s wordy_sa ltac:(discriminate) Ht).
    destruct (try_tok (L "s.l.u.") prev s); [discriminate|].
    destruct (try_tok (L "slu") prev s); [discriminate|].
    destruct (try_tok (L "s.l.") prev s); [discriminate|].
    destruct (try_tok (L "sl") prev s); [discriminate|].
    destruct (try_tok (L "s.a.") prev s); discriminate.
Qed.

(** Where the pattern matches, a token stands after a non-word character,
    or the text holds a dot. *)
Lemma match_is_tok_or_dot prev s n :
  Re.match_at true _LEGAL_SUFFIXES prev s = Some n ->
  (Re.word_opt prev = false /\ tok_at s = true) \/ In "."%char s.
Proof.
  intros E. rewrite match_at_suffix in E.
  destruct (Re.at_boundary prev s) eqn:Eb; [|discriminate].
  destruct (suffix_alternatives_found _ _ _ E) as (t & Hin & Ht).
  assert (Hdot : forall t', try_tok ("s"%char :: "."%char :: t') prev s = Some n ->
                            In "."%char s).
  { intros t' H. unfold try_tok in H. cbn [ci_strip] in H.
    destruct s as [|c1 [|c2 s']]; try discriminate.
    - destruct (Re.lit_matches true "s" c1); discriminate.
    - destruct (Re.lit_matches true "s" c1); [|discriminate].
      destruct (Re.lit_matches true "." c2) eqn:E2; [|discriminate].
      apply like_dot in E2. subst c2. simpl. tauto. }
  assert (Hw : forall t', wordy t' -> t' <> [] -> try_tok t' prev s = Some n ->
                          tok_ends t' s = true /\ Re.word_opt prev = false).
  { intros t' Hwt Hne H. pose proof (try_tok_ends _ _ _ _ Hwt Hne H) as Hte.
    split; [exact Hte|].
    assert (Hh : Re.word_opt (hd_error s) = true).
    { unfold tok_ends in Hte. destruct t' as [|p t'']; [congruence|].
      inversion Hwt as [|? ? Hp _]; subst.
      cbn [ci_strip] in Hte. destruct s as [|c s']; [discriminate|].
      destruct (Re.lit_matches true p c) eqn:Em; [|discriminate].
      simpl. now apply Hp. }
    unfold Re.at_boundary in Eb. rewrite Hh in Eb.
    destruct (Re.word_opt prev); [discriminate | reflexivity]. }
  unfold alternatives in Hin. simpl in Hin.
  destruct Hin as [<-|[<-|[<-|[<-|[<-|[<-|[]]]]]]].
  - right. eapply Hdot; eauto.
  - left. destruct (Hw _ wordy_slu ltac:(discriminate) Ht) as [H1 H2].
    split; [exact H2|]. unfold tok_at. now rewrite H1.
  - right. eapply Hdot; eauto.
  - left. destruct (Hw _ wordy_sl ltac:(discriminate) Ht) as [H1 H2].
    split; [exact H2|]. unfold tok_at. rewrite H1. now rewrite orb_true_r.
  - right. eapply Hdot; eauto.
  - left. destruct (Hw _ wordy_sa ltac:(discriminate) Ht) as [H1 H2].
    split; [exact H2|]. unfold tok_at. rewrite H1. now rewrite orb_true_r.
Qed.

(** *** After the suffixes are stripped, no token is left *)

Lemma agree_sub_word s : forall prev,
  Re.word_opt prev = true ->
  agree (Re.sub_from true _LEGAL_SUFFIXES [] prev 0 s) s.
Proof.
  induction s as [|c s IH]; intros prev Hp; [reflexivity|].
  destruct (suffix_sub_step prev (c :: s))
    as [[_ Hsub] | (last & rest & Hp' & _)]; [|congruence].
  rewrite Hsub. simpl. destruct (Char.is_word c) eqn:E.
  - eexists. split; [reflexivity|]. apply IH. exact E.
  - unfold end_ok. simpl. now rewrite E.
Qed.

Lemma sub_suffix_no_tok n : forall s,
  List.length s <= n -> forall pw prev,
  in_step pw prev s ->
  has_tok pw (Re.sub_from true _LEGAL_SUFFIXES [] prev 0 s) = false.
Proof.
  induction n as [|n IH]; intros s Hlen pw prev Hin.
  - destruct s; [reflexivity | simpl in Hlen; lia].
  - destruct (suffix_sub_step prev s)
      as [[Hnone Hsub] | (last & rest & Hp & Hlt & Hb & Hsub)]; rewrite Hsub.
    + destruct s as [|c s']; [reflexivity|].
      cbn [has_tok]. apply orb_false_iff. split.
      * destruct pw; [reflexivity|]. cbn [negb andb].
        destruct (Char.is_word c) eqn:Ec.
        -- assert (Ha : agree (c :: Re.sub_from true _LEGAL_SUFFIXES [] (Some c) 0 s')
                               (c :: s')).
           { simpl. rewrite Ec. eexists. split; [reflexivity|].
             apply agree_sub_word. exact Ec. }
           rewrite (agree_tok_at _ _ Ha).
           destruct (tok_at (c :: s')) eqn:Et; [|reflexivity].
           destruct Hin as [Hpw | (_ & _ & He)].
           ++ exfalso. apply (tok_at_matches prev (c :: s')); auto.
           ++ unfold end_ok in He. simpl in He. rewrite Ec in He. discriminate.
        -- destruct (tok_at _) eqn:Et; [|reflexivity].
           apply tok_at_head in Et. simpl in Et. congruence.
      * apply IH; [simpl in Hlen; lia | now left].
    + assert (Hpw : pw = false).
      { destruct Hin as [-> | (-> & _)]; [exact Hp | reflexivity]. }
      subst pw. apply IH; [lia|].
      unfold Re.at_boundary in Hb. unfold in_step, end_ok.
      destruct (Re.word_opt last); [right | left; reflexivity].
      destruct (Re.word_opt (hd_error rest)); [discriminate | auto].
Qed.

Lemma sub_suffix_clean s :
  has_tok false (Re.sub true _LEGAL_SUFFIXES [] s) = false.
Proof.
  unfold Re.sub. apply (sub_suffix_no_tok (List.length s)); [lia | now left].
Qed.

(** Text without token and without dot is left as it is. *)
Lemma sub_suffix_noop s : forall prev,
  has_tok (Re.word_opt prev) s = false -> ~ In "."%char s ->
  Re.sub_from true _LEGAL_SUFFIXES [] prev 0 s = s.
Proof.
  induction s as [|c s IH]; intros prev Ht Hdot; [reflexivity|].
  cbn [has_tok] in Ht. apply orb_false_iff in Ht as [Ht1 Ht2].
  destruct (Re.match_at true _LEGAL_SUFFIXES prev (c :: s)) as [n|] eqn:E.
  - apply match_is_tok_or_dot in E as [[Hp Htok] | Hd]; [|contradiction].
    rewrite Hp, Htok in Ht1. discriminate.
  - cbn [Re.sub_from]. rewrite E. f_equal. apply IH; [exact Ht2|].
    intros Hd. apply Hdot. now right.
Qed.

(** *** Runs of a class replaced by one space *)

Lemma plus_ends_head p s : forall n,
  match Re.plus_ends p n s with
  | (m, _, _) :: _ => m = n + run_length p s /\ 0 < run_length p s
  | [] => run_length p s = 0
  end.
Proof.
  induction s as [|c s IH]; intros n; simpl; [reflexivity|].
  destruct (p c); [|reflexivity].
  specialize (IH (S n)).
  destruct (Re.plus_ends p (S n) s) as [|[[m a] b] l]; simpl.
  - rewrite IH. lia.
  - lia.
Qed.

Lemma match_at_plus ic p prev s :
  Re.match_at ic (Re.Plus p) prev s =
  match run_length p s with 0 => None | S k => Some (S k) end.
Proof.
  unfold Re.match_at. cbn [Re.ends]. pose proof (plus_ends_head p s 0) as H.
  destruct (Re.plus_ends p 0 s) as [|[[m a] b] l].
  - now rewrite H.
  - destruct H as [-> H]. destruct (run_length p s); [lia | reflexivity].
Qed.

Lemma sub_plus_collapse ic p s : forall prev,
  Re.sub_from ic (Re.Plus p) (L " ") prev 0 s = collapse p false s /\
  Re.sub_from ic (Re.Plus p) (L " ") prev (run_length p s) s = collapse p true s.
Proof.
  induction s as [|c s IH]; intros prev; [split; reflexivity|].
  assert (H0 : Re.sub_from ic (Re.Plus p) (L " ") prev 0 (c :: s)
               = collapse p false (c :: s)).
  { cbn [Re.sub_from]. rewrite match_at_plus. cbn [run_length collapse].
    destruct (p c).
    - destruct (IH (Some c)) as [_ ->]. reflexivity.
    - destruct (IH (Some c)) as [-> _]. reflexivity. }
  split; [exact H0|].
  cbn [run_length]. destruct (p c) eqn:E.
  - cbn [Re.sub_from collapse]. rewrite E. apply IH.
  - rewrite H0. cbn [collapse]. now rewrite E.
Qed.

Lemma sub_punctuation s :
  Re.sub false _PUNCTUATION (L " ") s = collapse is_punct false s.
Proof. apply sub_plus_collapse. Qed.

Lemma sub_spaces s :
  Re.sub false _SPACES (L " ") s = collapse Char.is_space false s.
Proof. apply sub_plus_collapse. Qed.

Lemma agree_collapse p s :
  (forall c, In c s -> p c = true -> Char.is_word c = false) ->
  agree (collapse p false s) s.
Proof.
  induction s as [|c s IH]; intros Hp; [reflexivity|].
  simpl. destruct (p c) eqn:Ec.
  - rewrite (Hp c (or_introl eq_refl) Ec). reflexivity.
  - destruct (Char.is_word c) eqn:Ew.
    + eexists. split; [reflexivity|]. apply IH. intros c' Hc'. apply Hp. now right.
    + unfold end_ok. simpl. now rewrite Ew.
Qed.

Lemma collapse_no_tok p s :
  (forall c, In c s -> p c = true -> Char.is_word c = false) ->
  forall pw inrun,
    (inrun = true -> pw = false) ->
    has_tok pw s = false -> has_tok pw (collapse p inrun s) = false.
Proof.
  induction s as [|c s IH]; intros Hp pw inrun Hrun Ht; [reflexivity|].
  assert (Hp' : forall c', In c' s -> p c' = true -> Char.is_word c' = false)
    by (intros c' Hc'; apply Hp; now right).
  cbn [has_tok] in Ht. apply orb_false_iff in Ht as [Ht1 Ht2].
  cbn [collapse]. destruct (p c) eqn:Ec.
  - rewrite (Hp c (or_introl eq_refl) Ec) in Ht2.
    destruct inrun.
    + rewrite (Hrun eq_refl). apply IH; auto.
    + cbn [has_tok]. apply orb_false_iff. split.
      * destruct (tok_at (" "%char :: collapse p true s)) eqn:Et;
          [|apply andb_false_r].
        apply tok_at_head in Et. discriminate.
      * apply IH; auto.
  - cbn [has_tok]. apply orb_false_iff. split.
    + assert (Ha : agree (c :: collapse p false s) (c :: s)).
      { pose proof (agree_collapse p (c :: s) Hp) as Ha.
        cbn [collapse] in Ha. now rewrite Ec in Ha. }
      rewrite (agree_tok_at _ _ Ha). exact Ht1.
    + apply IH; auto. discriminate.
Qed.

Lemma agree_app a : forall t,
  Forall (fun c => Char.is_word c = false) t -> agree a (a ++ t).
Proof.
  induction a as [|c a IH]; intros t Ht.
  - destruct t as [|c t]; [reflexivity|]. simpl.
    inversion Ht as [|? ? Hc _]; subst. now rewrite Hc.
  - simpl. destruct (Char.is_word c) eqn:Ew.
    + eexists. split; [reflexivity|]. now apply IH.
    + unfold end_ok. simpl. now rewrite Ew.
Qed.

Lemma has_tok_prefix a : forall t pw,
  Forall (fun c => Char.is_word c = false) t ->
  has_tok pw (a ++ t) = false -> has_tok pw a = false.
Proof.
  induction a as [|c a IH]; intros t pw Ht H; [reflexivity|].
  simpl app in H. cbn [has_tok] in H |- *.
  apply orb_false_iff in H as [H1 H2]. apply orb_false_iff. split.
  - rewrite (agree_tok_at (c :: a) (c :: a ++ t)); [exact H1|].
    apply (agree_app (c :: a) t Ht).
  - eapply IH; eauto.
Qed.

Lemma lstrip_split s :
  exists t, s = t ++ Str.lstrip s /\ Forall (fun c => Char.is_space c = true) t.
Proof.
  induction s as [|c s (t & IH & Ht)]; [now exists []|].
  simpl. destruct (Char.is_space c) eqn:E.
  - exists (c :: t). simpl. split; [now f_equal | now constructor].
  - now exists [].
Qed.

Lemma rstrip_split s :
  exists t, s = Str.rstrip s ++ t /\ Forall (fun c => Char.is_space c = true) t.
Proof.
  destruct (lstrip_split (rev s)) as (t & E & Ht).
  exists (rev t). split.
  - unfold Str.rstrip. rewrite <- rev_app_distr, <- E. now rewrite rev_involutive.
  - now apply Forall_rev.
Qed.

Lemma spaces_not_word t :
  Forall (fun c => Char.is_space c = true) t ->
  Forall (fun c => Char.is_word c = false) t.
Proof. apply Forall_impl. intros c. apply space_not_word. Qed.

Lemma lstrip_no_tok s :
  has_tok false s = false -> has_tok false (Str.lstrip s) = false.
Proof.
  induction s as [|c s IH]; intros H; [reflexivity|].
  simpl. destruct (Char.is_space c) eqn:E; [|exact H].
  apply IH. cbn [has_tok] in H. apply orb_false_iff in H as [_ H].
  now rewrite (space_not_word c E) in H.
Qed.

Lemma strip_no_tok s :
  has_tok false s = false -> has_tok false (Str.strip s) = false.
Proof.
  intros H. apply lstrip_no_tok in H. unfold Str.strip.
  destruct (rstrip_split (Str.lstrip s)) as (t & E & Ht).
  rewrite E in H. eapply has_tok_prefix; [|exact H]. now apply spaces_not_word.
Qed.

(** *** What the passes keep of a property of the characters *)

Section Kept.
Variable Q : ascii -> Prop.

Lemma sub_delete_keeps ic r s : forall prev k,
  Forall Q s -> Forall Q (Re.sub_from ic r [] prev k s).
Proof.
  induction s as [|c s IH]; intros prev k H; [constructor|].
  inversion H as [|? ? Hc Hs]; subst. cbn [Re.sub_from].
  destruct k as [|k]; [|now apply IH].
  destruct (Re.match_at ic r prev (c :: s)) as [[|n]|]; simpl;
    try (constructor; [exact Hc|]); now apply IH.
Qed.

Lemma collapse_keeps p s : forall b,
  Q " "%char -> Forall Q s -> Forall Q (collapse p b s).
Proof.
  induction s as [|c s IH]; intros b Hsp H; [constructor|].
  inversion H as [|? ? Hc Hs]; subst. cbn [collapse].
  destruct (p c); [destruct b|]; try constructor; auto.
Qed.

Lemma lstrip_keeps s : Forall Q s -> Forall Q (Str.lstrip s).
Proof.
  induction s as [|c s IH]; intros H; [constructor|].
  inversion H; subst. simpl. destruct (Char.is_space c); auto.
Qed.

Lemma strip_keeps s : Forall Q s -> Forall Q (Str.strip s).
Proof.
  intros H. unfold Str.strip, Str.rstrip.
  apply Forall_rev, lstrip_keeps, Forall_rev, lstrip_keeps, H.
Qed.

End Kept.

Lemma collapse_punct_free s : forall b,
  Forall (fun c => is_punct c = false) (collapse is_punct b s).
Proof.
  induction s as [|c s IH]; intros b; [constructor|].
  cbn [collapse]. destruct (is_punct c) eqn:E; [destruct b|];
    try constructor; auto.
Qed.

Lemma collapse_noop p s :
  Forall (fun c => p c = false) s -> collapse p false s = s.
Proof.
  induction 1 as [|c s Hc Hs IH]; [reflexivity|].
  cbn [collapse]. now rewrite Hc, IH.
Qed.

Lemma sp_norm_weaken s : sp_norm true s = true -> sp_norm false s = true.
Proof.
  destruct s as [|c s]; [reflexivity|]. simpl.
  destruct (Char.is_space c); [|auto]. rewrite andb_false_r. discriminate.
Qed.

Lemma collapse_sp_norm s : forall b,
  sp_norm b (collapse Char.is_space b s) = true.
Proof.
  induction s as [|c s IH]; intros b; [reflexivity|].
  cbn [collapse]. destruct (Char.is_space c) eqn:E.
  - destruct b; [apply IH|]. simpl. apply IH.
  - destruct b; simpl; rewrite E; apply IH.
Qed.

Lemma sp_norm_collapse s :
  (sp_norm true s = true -> collapse Char.is_space true s = s) /\
  (sp_norm false s = true -> collapse Char.is_space false s = s).
Proof.
  induction s as [|c s [IH1 IH2]]; [split; reflexivity|].
  cbn [sp_norm collapse]. destruct (Char.is_space c) eqn:E.
  - split; [rewrite andb_false_r; discriminate|].
    intros H. apply andb_true_iff in H as [H Hs].
    apply andb_true_iff in H as [Hc _]. apply Ascii.eqb_eq in Hc. subst c.
    now rewrite (IH1 Hs).
  - split; intros H; now rewrite (IH2 H).
Qed.

Lemma lstrip_sp_norm s : sp_norm false s = true -> sp_norm false (Str.lstrip s) = true.
Proof.
  induction s as [|c s IH]; intros H; [reflexivity|].
  simpl. destruct (Char.is_space c) eqn:E; [|exact H].
  apply IH. simpl in H. rewrite E in H.
  apply andb_true_iff in H as [_ H]. now apply sp_norm_weaken.
Qed.

Lemma sp_norm_prefix a : forall t b, sp_norm b (a ++ t) = true -> sp_norm b a = true.
Proof.
  induction a as [|c a IH]; intros t b H; [reflexivity|].
  simpl in *. destruct (Char.is_space c).
  - apply andb_true_iff in H as [H Hs]. rewrite H. simpl. eapply IH; eauto.
  - eapply IH; eauto.
Qed.

Lemma strip_sp_norm s : sp_norm false s = true -> sp_norm false (Str.strip s) = true.
Proof.
  intros H. apply lstrip_sp_norm in H. unfold Str.strip.
  destruct (rstrip_split (Str.lstrip s)) as (t & E & _).
  rewrite E in H. eapply sp_norm_prefix; eauto.
Qed.

(** *** strip of a stripped text *)

Lemma lstrip_head s : head_not_space (Str.lstrip s).
Proof.
  induction s as [|c s IH]; [exact I|]. simpl.
  destruct (Char.is_space c) eqn:E; [exact IH | exact E].
Qed.

Lemma lstrip_fix s : head_not_space s -> Str.lstrip s = s.
Proof. destruct s as [|c s]; [reflexivity|]. simpl. now intros ->. Qed.

Lemma rstrip_rstrip s : Str.rstrip (Str.rstrip s) = Str.rstrip s.
Proof.
  unfold Str.rstrip. rewrite rev_involutive.
  now rewrite (lstrip_fix _ (lstrip_head (rev s))).
Qed.

Lemma rstrip_head s : head_not_space s -> head_not_space (Str.rstrip s).
Proof.
  intros H. destruct (rstrip_split s) as (t & E & _).
  destruct (Str.rstrip s) as [|c r]; [exact I|].
  rewrite E in H. exact H.
Qed.

Lemma strip_strip s : Str.strip (Str.strip s) = Str.strip s.
Proof.
  unfold Str.strip.
  rewrite (lstrip_fix (Str.rstrip (Str.lstrip s))).
  - apply rstrip_rstrip.
  - apply rstrip_head, lstrip_head.
Qed.

Lemma lower_fixed s :
  Forall (fun c => Char.lower c = c) s -> Str.lower s = s.
Proof.
  induction 1 as [|c s Hc Hs IH]; [reflexivity|].
  unfold Str.lower in *. simpl. now rewrite Hc, IH.
Qed.

(** [normalize] on the characters, applied twice. *)
Lemma normalize_chars_twice (s : list ascii) :
  Forall (fun c => c <> "_"%char) s ->
  normalize_chars (normalize_chars s) = normalize_chars s.
Proof.
  intros Hund.
  set (x1 := Str.lower s).
  set (x2 := Re.sub true _LEGAL_SUFFIXES [] x1).
  set (x3 := Re.sub false _PUNCTUATION (L " ") x2).
  set (x4 := Re.sub false _SPACES (L " ") x3).
  assert (Ey : normalize_chars s = Str.strip x4) by reflexivity.
  (* lowercase all along *)
  assert (L1 : Forall (fun c => Char.lower c = c) x1).
  { unfold x1, Str.lower. apply Forall_forall. intros c Hc.
    apply in_map_iff in Hc as (c0 & <- & _). apply lower_lower. }
  assert (L2 : Forall (fun c => Char.lower c = c) x2)
    by (apply sub_delete_keeps; exact L1).
  assert (L3 : Forall (fun c => Char.lower c = c) x3).
  { unfold x3. rewrite sub_punctuation. apply collapse_keeps; [reflexivity | exact L2]. }
  assert (L4 : Forall (fun c => Char.lower c = c) x4).
  { unfold x4. rewrite sub_spaces. apply collapse_keeps; [reflexivity | exact L3]. }
  (* no underscore up to the punctuation pass *)
  assert (U1 : Forall (fun c => c <> "_"%char) x1).
  { unfold x1, Str.lower. apply Forall_forall. intros c Hc.
    apply in_map_iff in Hc as (c0 & <- & Hc0). intros E.
    apply lower_underscore in E. rewrite Forall_forall in Hund.
    exact (Hund c0 Hc0 E). }
  assert (U2 : Forall (fun c => c <> "_"%char) x2)
    by (apply sub_delete_keeps; exact U1).
  (* no token after the suffix pass, nor later *)
  assert (T2 : has_tok false x2 = false) by apply sub_suffix_clean.
  assert (T3 : has_tok false x3 = false).
  { unfold x3. rewrite sub_punctuation. apply collapse_no_tok; [|discriminate|exact T2].
    intros c Hc Hp. destruct (Char.is_word c) eqn:Ew; [|reflexivity].
    rewrite Forall_forall in U2. exfalso. apply (U2 c Hc).
    now apply punct_word. }
  assert (T4 : has_tok false x4 = false).
  { unfold x4. rewrite sub_spaces. apply collapse_no_tok; [|discriminate|exact T3].
    intros c _. apply space_not_word. }
  (* no punctuation after its pass *)
  assert (P3 : Forall (fun c => is_punct c = false) x3).
  { unfold x3. rewrite sub_punctuation. apply collapse_punct_free. }
  assert (P4 : Forall (fun c => is_punct c = false) x4).
  { unfold x4. rewrite sub_spaces. apply collapse_keeps; [reflexivity | exact P3]. }
  (* single spaces after the white space pass *)
  assert (S4 : sp_norm false x4 = true).
  { unfold x4. rewrite sub_spaces. apply collapse_sp_norm. }
  (* the second application *)
  rewrite Ey. set (y := Str.strip x4).
  assert (Ly : Forall (fun c => Char.lower c = c) y) by (apply strip_keeps; exact L4).
  assert (Py : Forall (fun c => is_punct c = false) y) by (apply strip_keeps; exact P4).
  assert (Ty : has_tok false y = false) by (apply strip_no_tok; exact T4).
  assert (Sy : sp_norm false y = true) by (apply strip_sp_norm; exact S4).
  unfold normalize_chars.
  rewrite (lower_fixed y Ly).
  assert (E2 : Re.sub true _LEGAL_SUFFIXES [] y = y).
  { unfold Re.sub. apply sub_suffix_noop; [exact Ty|].
    intros Hd. rewrite Forall_forall in Py. specialize (Py _ Hd). discriminate. }
  rewrite E2, sub_punctuation, (collapse_noop _ _ Py), sub_spaces.
  rewrite (proj2 (sp_norm_collapse y) Sy).
  apply strip_strip.
Qed.

(** * The theorems at sample inputs *)

(** Three documents and two recipients: one match by name, one by address,
    one document unmatched. *)
Lemma run_matching_partitions_sample :
  Dict.wf sample_files /\
  exists matches unmatched,
    run_matching sample_scorer sample_files sample_table = Ok (matches, unmatched) /\
    (forall name, In name (Dict.keys sample_files) ->
       (count_occ string_dec (map pdf_name matches) name = 1 /\
        count_occ string_dec unmatched name = 0) \/
       (count_occ string_dec (map pdf_name matches) name = 0 /\
        count_occ string_dec unmatched name = 1)) /\
    (forall name, In name (map pdf_name matches) \/ In name unmatched ->
       In name (Dict.keys sample_files)).
Proof.
  assert (H : Dict.wf sample_files).
  { unfold Dict.wf. simpl. repeat constructor; simpl; intuition discriminate. }
  split; [exact H|].
  exact (run_matching_partitions sample_scorer sample_files sample_table H).
Defined.


(** Five items, the cancel action landing while the second is sent. *)
Lemma cancel_stops_the_run_sample :
  let w := sample_world (Some 1) None in
  let r := on_send w 2 sample_session sample_selected in
  (forall i, i < 1 ->
     cancel_during_send w i = false /\ cancel_during_sleep w i = false) /\
  cancel_during_send w 1 || cancel_during_sleep w 1 = true /\
  1 + 1 < List.length sample_selected /\
  snd (fst r) = Cancelled /\
  List.length (send_log (fst (fst r))) = 1 + 1.
Proof.
  intros w r.
  assert (H1 : forall i, i < 1 ->
             cancel_during_send w i = false /\ cancel_during_sleep w i = false).
  { intros i Hi. assert (i = 0) by lia. subst i. split; reflexivity. }
  assert (H2 : cancel_during_send w 1 || cancel_during_sleep w 1 = true)
    by reflexivity.
  assert (H3 : 1 + 1 < List.length sample_selected) by (simpl; lia).
  destruct (cancel_stops_the_run w 2 sample_session sample_selected 1 H1 H2 H3
              (fst (fst r)) (snd (fst r)) (snd r) eq_refl)
    as (Ht & _ & Hl & _).
  split; [exact H1|]. split; [exact H2|]. split; [exact H3|]. split; assumption.
Defined.

(** Four items, the transport refusing the third. *)
Lemma errors_do_not_abort_sample :
  let w := sample_world None (Some 2) in
  let items := firstn 4 sample_selected in
  let r := on_send w 2 sample_session items in
  (forall i, cancel_during_send w i = false /\ cancel_during_sleep w i = false) /\
  snd (fst r) = Completed /\
  List.length (send_log (fst (fst r))) = List.length items.
Proof.
  intros w items r.
  assert (H : forall i,
             cancel_during_send w i = false /\ cancel_during_sleep w i = false)
    by (intros i; split; reflexivity).
  destruct (errors_do_not_abort w 2 sample_session items H
              (fst (fst r)) (snd (fst r)) (snd r) eq_refl)
    as (Ht & Hl & _).
  split; [exact H|]. split; assumption.
Defined.

(** Six pages with two different names. *)
Lemma split_letter_spans_sample :
  List.length doc_two_letters = 6 /\
  indices_inicio doc_two_letters "B1" = [0; 3] /\
  split_pdf_by_cif doc_two_letters "B1"
  = [(nombre_limpio_of "B1" (page_text doc_two_letters 0) 0, mkLetter 0 2);
     (nombre_limpio_of "B1" (page_text doc_two_letters 3) 1, mkLetter 3 5)].
Proof.
  pose proof (split_letter_spans doc_two_letters "B1") as H. cbv zeta in H.
  destruct H as (_ & _ & _ & _ & _ & H).
  split; [reflexivity|]. split; [reflexivity|].
  apply H; [reflexivity | reflexivity |].
  vm_compute. discriminate.
Defined.

(** A page whose marker line comes before the line of pattern A: the name is
    the line after the marker. *)
Lemma label_first_yielding_line_sample :
  nombre_cliente_of "B1" page_marker_first 7 = L "ACME".
Proof.
  destruct (label_first_yielding_line "B1" page_marker_first 7) as [H _].
  apply (H 0 (L "B1") (L "ACME")); [reflexivity | reflexivity | reflexivity |].
  intros i' l' n' Hlt. lia.
Defined.

(** * Further properties of the code *)

(** ** run_matching: what every match holds *)

Section MatchingMore.
Variable token_sort_ratio : string -> string -> Q.

Lemma match_one_Some df name m :
  match_one token_sort_ratio df name = Ok (Some m) ->
  pdf_name m = name /\ selected m = true /\ (80 <= score m)%Q /\
  exists r,
    nth_error df (row_idx m) = Some r /\
    cliente m = str (Nombre r) /\ email m = str (Email r) /\
    ((matched_by m = ByNombre /\
      score m = token_sort_ratio (normalize name) (normalize (str (Nombre r)))) \/
     (matched_by m = ByDireccion /\
      score m = token_sort_ratio (normalize name) (normalize (str (Direccion r))))).
Proof.
  unfold match_one.
  destruct (accepted (extractOne token_sort_ratio (normalize name) (nombres_norm_of df)))
    as [[sc idx]|] eqn:En.
  - apply accepted_Some in En as (c & En & H80).
    pose proof (extractOne_best token_sort_ratio (normalize name) (nombres_norm_of df)) as B.
    rewrite En in B. destruct B as (Hi & Hs & _).
    apply nth_error_map_Some in Hi as (r & Hr & Hc).
    rewrite (new_match_at _ _ _ _ _ _ Hr). simpl. intros [= <-]. simpl.
    repeat split; auto. exists r. repeat split; auto. left. split; congruence.
  - destruct (accepted (extractOne token_sort_ratio (normalize name) (dirs_norm_of df)))
      as [[sc idx]|] eqn:Ed; [|discriminate].
    apply accepted_Some in Ed as (c & Ed & H80).
    pose proof (extractOne_best token_sort_ratio (normalize name) (dirs_norm_of df)) as B.
    rewrite Ed in B. destruct B as (Hi & Hs & _).
    apply nth_error_map_Some in Hi as (r & Hr & Hc).
    rewrite (new_match_at _ _ _ _ _ _ Hr). simpl. intros [= <-]. simpl.
    repeat split; auto. exists r. repeat split; auto. right. split; congruence.
Qed.

Lemma matching_loop_forall (P : match_t -> Prop) df names :
  (forall name m, In name names ->
     match_one token_sort_ratio df name = Ok (Some m) -> P m) ->
  forall matches unmatched matches' unmatched',
    matching_loop token_sort_ratio df names matches unmatched
      = Ok (matches', unmatched') ->
    Forall P matches -> Forall P matches'.
Proof.
  induction names as [|name rest IH]; intros HP ms us ms' us' E Hms.
  - simpl in E. injection E as <- _. exact Hms.
  - simpl in E.
    destruct (match_one token_sort_ratio df name) as [[m|]|e] eqn:Em;
      simpl in E; [| |discriminate].
    + eapply IH; [|exact E|].
      * intros n m' Hn. apply HP. now right.
      * apply Forall_app. split; [exact Hms|]. constructor; [|constructor].
        apply (HP name m); [now left | exact Em].
    + eapply IH; [|exact E|exact Hms]. intros n m' Hn. apply HP. now right.
Qed.

Lemma filter_all {A : Type} (f : A -> bool) l :
  Forall (fun x => f x = true) l -> filter f l = l.
Proof.
  induction 1 as [|x l Hx Hl IH]; [reflexivity|]. simpl. now rewrite Hx, IH.
Qed.

Lemma filter_length_split {A : Type} (f : A -> bool) l :
  List.length (filter f l) + List.length (filter (fun x => negb (f x)) l)
  = List.length l.
Proof.
  induction l as [|x l IH]; [reflexivity|]. simpl.
  destruct (f x); simpl; lia.
Qed.

(** X1.  The three figures shown after matching add up, and both lists
    keep the order of the documents: [run_matching] returns, the number of
    matches plus the number of unmatched names is the number of documents,
    the matched names are the documents that have a match, in the order of
    the dict, and [unmatched] holds the others in that order. *)
Theorem run_matching_counts_and_order {V : Type} (pdf_files : Dict.t V)
    (df : dataframe) :
  exists matches unmatched,
    run_matching token_sort_ratio pdf_files df = Ok (matches, unmatched) /\
    List.length matches + List.length unmatched
      = List.length (Dict.keys pdf_files) /\
    map pdf_name matches
      = filter (fun n => existsb (String.eqb n) (map pdf_name matches))
               (Dict.keys pdf_files) /\
    unmatched
      = filter (fun n => negb (existsb (String.eqb n) (map pdf_name matches)))
               (Dict.keys pdf_files).
Proof.
  unfold run_matching.
  destruct (matching_loop_filter token_sort_ratio df (Dict.keys pdf_files) [] [])
    as (new & E & Hm & _).
  exists new, (filter (fun n => negb (is_matched token_sort_ratio df n))
                      (Dict.keys pdf_files)).
  split; [exact E|].
  assert (Hin : forall n, In n (Dict.keys pdf_files) ->
             existsb (String.eqb n) (map pdf_name new)
             = is_matched token_sort_ratio df n).
  { intros n Hn. rewrite Hm.
    destruct (is_matched token_sort_ratio df n) eqn:E1.
    - apply existsb_exists. exists n. split; [|apply String.eqb_refl].
      apply filter_In. auto.
    - destruct (existsb _ _) eqn:E2; [|reflexivity].
      apply existsb_exists in E2 as (x & Hx & Hxn).
      apply String.eqb_eq in Hxn. subst x. apply filter_In in Hx. destruct Hx.
      congruence. }
  split; [|split].
  - rewrite <- (length_map pdf_name), Hm. apply filter_length_split.
  - rewrite Hm at 1. apply filter_ext_in. intros n Hn. symmetry. now apply Hin.
  - apply filter_ext_in. intros n Hn. f_equal. symmetry. now apply Hin.
Qed.

(** X2.  Every match [run_matching] returns names a document of the dict
    and a row of the table, carries the name and the email of that row as
    [str] gives them, has [selected = True], and its score is the score of
    the document's normalized name against that row's normalized name, or
    against its normalized address, and is 80 or more. *)
Theorem run_matching_matches_sound {V : Type} (pdf_files : Dict.t V)
    (df : dataframe) :
  exists matches unmatched,
    run_matching token_sort_ratio pdf_files df = Ok (matches, unmatched) /\
    Forall
      (fun m =>
         In (pdf_name m) (Dict.keys pdf_files) /\ selected m = true /\
         (80 <= score m)%Q /\
         exists r,
           nth_error df (row_idx m) = Some r /\
           cliente m = str (Nombre r) /\ email m = str (Email r) /\
           ((matched_by m = ByNombre /\
             score m = token_sort_ratio (normalize (pdf_name m))
                                        (normalize (str (Nombre r)))) \/
            (matched_by m = ByDireccion /\
             score m = token_sort_ratio (normalize (pdf_name m))
                                        (normalize (str (Direccion r))))))
      matches.
Proof.
  unfold run_matching.
  destruct (matching_loop_filter token_sort_ratio df (Dict.keys pdf_files) [] [])
    as (new & E & _ & _).
  eexists _, _. split; [exact E|].
  eapply matching_loop_forall; [|exact E|constructor].
  intros name m Hin Hm. apply match_one_Some in Hm as (Hn & Hs & H80 & r & Hr).
  subst name. repeat split; auto. exists r. exact Hr.
Qed.

(** X3.  After the spreadsheet is loaded, rows without email are gone, so
    no match is made with one: every match of [run_matching] on the loaded
    table carries the email of a row whose Email cell is present. *)
Theorem loaded_table_matches_have_email {V : Type} (pdf_files : Dict.t V)
    (rows : dataframe) :
  exists matches unmatched,
    run_matching token_sort_ratio pdf_files (dropna_email rows)
      = Ok (matches, unmatched) /\
    Forall
      (fun m => exists r, In r rows /\ Email r <> NaN /\ email m = str (Email r))
      matches.
Proof.
  unfold run_matching.
  destruct (matching_loop_filter token_sort_ratio (dropna_email rows)
              (Dict.keys pdf_files) [] []) as (new & E & _ & _).
  eexists _, _. split; [exact E|].
  eapply matching_loop_forall; [|exact E|constructor].
  intros name m Hin Hm.
  apply match_one_Some in Hm as (_ & _ & _ & r & Hr & _ & He & _).
  apply nth_error_In in Hr. unfold dropna_email in Hr.
  apply filter_In in Hr as [Hr Hh]. exists r. repeat split; auto.
  unfold has_email in Hh. intros En. rewrite En in Hh. discriminate.
Qed.

End MatchingMore.

(** ** Selection *)

Lemma selected_of_checked (checked : nat -> bool) (l : list match_t) : forall a,
  filter selected
    (map (fun im => set_selected (checked (fst im)) (snd im))
         (combine (seq a (List.length l)) l))
  = map (fun im => set_selected true (snd im))
        (filter (fun im => checked (fst im)) (combine (seq a (List.length l)) l)).
Proof.
  induction l as [|m l IH]; intros a; [reflexivity|].
  simpl. destruct (checked a) eqn:E; simpl; now rewrite IH.
Qed.

Lemma set_selected_true_id (m : match_t) :
  selected m = true -> set_selected true m = m.
Proof. destruct m; simpl; intros ->; reflexivity. Qed.

Lemma enumerate_snd {A : Type} (l : list A) : map snd (enumerate l) = l.
Proof.
  unfold enumerate. generalize 0.
  induction l as [|x l IH]; intros a; [reflexivity|]. simpl. now rewrite IH.
Qed.

Lemma enumerate_In {A : Type} (l : list A) i x :
  In (i, x) (enumerate l) <-> nth_error l i = Some x.
Proof.
  split.
  - intros H. apply In_nth_error in H as (k & Hk).
    now apply enumerate_nth_inv in Hk as [-> Hk].
  - intros H. apply enumerate_nth in H. eapply nth_error_In; eauto.
Qed.

(** X4.  Between matching and the send button the checkbox loop runs and
    writes the state of every box into [selected].  For the matches as
    [run_matching] made them, and whatever the boxes hold, the list the
    send button works on is the list of the matches of the checked rows, as
    matching made them and in its order.  So a match is in it exactly when
    the box of a row that holds it is checked: the whole list is sent when
    every box is checked, and the row of a box that is not checked is left
    out although matching selected it. *)
Theorem fresh_matches_sent_as_checked {V : Type}
    (token_sort_ratio : string -> string -> Q)
    (pdf_files : Dict.t V) (df : dataframe) (checked : nat -> bool) :
  exists matches unmatched,
    run_matching token_sort_ratio pdf_files df = Ok (matches, unmatched) /\
    selected_matches (apply_checkboxes checked matches)
    = map snd (filter (fun im => checked (fst im)) (enumerate matches)) /\
    (forall m, In m (selected_matches (apply_checkboxes checked matches)) <->
               exists i, nth_error matches i = Some m /\ checked i = true) /\
    ((forall i, i < List.length matches -> checked i = true) ->
     selected_matches (apply_checkboxes checked matches) = matches).
Proof.
  unfold run_matching.
  destruct (matching_loop_filter token_sort_ratio df (Dict.keys pdf_files) [] [])
    as (new & E & _ & Hsel).
  exists ([] ++ new), ([] ++ filter (fun n => negb (is_matched token_sort_ratio df n))
                             (Dict.keys pdf_files)).
  split; [exact E|]. cbn [app].
  assert (E1 : selected_matches (apply_checkboxes checked new)
               = map snd (filter (fun im => checked (fst im)) (enumerate new))).
  { unfold selected_matches, apply_checkboxes, enumerate.
    rewrite selected_of_checked. fold (enumerate new).
    apply map_ext_in. intros [i m] Hin. apply filter_In in Hin as [Hin _].
    apply enumerate_In, nth_error_In in Hin. cbn [snd].
    apply set_selected_true_id. rewrite Forall_forall in Hsel. now apply Hsel. }
  split; [exact E1|]. split.
  - intros m. rewrite E1, in_map_iff. split.
    + intros ([i m'] & Hm & Hin). cbn [snd] in Hm. subst m'.
      apply filter_In in Hin as [Hin Hc]. apply enumerate_In in Hin.
      exists i. auto.
    + intros (i & Hi & Hc). exists (i, m). split; [reflexivity|].
      apply filter_In. split; [now apply enumerate_In | exact Hc].
  - intros Hall. rewrite E1.
    assert (F : filter (fun im => checked (fst im)) (enumerate new) = enumerate new).
    { apply filter_all. apply Forall_forall. intros [i m] Hin. cbn [fst].
      apply enumerate_In in Hin. apply Hall. apply nth_error_Some. congruence. }
    rewrite F. apply enumerate_snd.
Qed.

(** X5.  The checkboxes decide what is sent, and nothing else of a match:
    the selected matches are the matches of the checked rows, in the order
    of the table, with their document, recipient, email and score as
    matching left them. *)
Theorem checkboxes_decide_selection (checked : nat -> bool)
    (matches : list match_t) :
  selected_matches (apply_checkboxes checked matches)
  = map (fun im => set_selected true (snd im))
        (filter (fun im => checked (fst im)) (enumerate matches)) /\
  forall m, In m (selected_matches (apply_checkboxes checked matches)) ->
    exists i m0,
      nth_error matches i = Some m0 /\ checked i = true /\
      pdf_name m = pdf_name m0 /\ cliente m = cliente m0 /\ email m = email m0 /\
      score m = score m0 /\ matched_by m = matched_by m0 /\ row_idx m = row_idx m0.
Proof.
  assert (E : selected_matches (apply_checkboxes checked matches)
              = map (fun im => set_selected true (snd im))
                    (filter (fun im => checked (fst im)) (enumerate matches)))
    by apply selected_of_checked.
  split; [exact E|]. intros m Hm. rewrite E in Hm.
  apply in_map_iff in Hm as ([i m0] & <- & Hin). apply filter_In in Hin as [Hin Hc].
  apply In_nth_error in Hin as [k Hk]. apply enumerate_nth_inv in Hk as [-> Hk].
  exists k, m0. simpl in *. repeat split; auto.
Qed.

(** X6.  After "deselect all" nothing is selected and the send button is
    disabled, whatever the credentials; after "select all" every match is
    selected. *)
Theorem deselect_all_disables_send (matches : list match_t)
    (sender_email app_password : string) (sending_now : bool) :
  selected_matches (deselect_all matches) = [] /\
  ready_to_send sender_email app_password
    (selected_matches (deselect_all matches)) sending_now = false /\
  selected_matches (select_all matches) = select_all matches /\
  List.length (selected_matches (select_all matches)) = List.length matches.
Proof.
  assert (E1 : selected_matches (deselect_all matches) = []).
  { unfold selected_matches, deselect_all.
    induction matches as [|m l IH]; [reflexivity|]. simpl. exact IH. }
  assert (E2 : selected_matches (select_all matches) = select_all matches).
  { unfold selected_matches, select_all.
    induction matches as [|m l IH]; [reflexivity|]. simpl. now rewrite IH. }
  split; [exact E1|]. split; [|split; [exact E2|]].
  - rewrite E1. unfold ready_to_send. simpl.
    now rewrite andb_false_r.
  - rewrite E2. unfold select_all. apply length_map.
Qed.

(** ** The dispatch run, in any world *)

Section DispatchMore.
Context {V : Type}.
Variable w : world V.
Variable throttle_seconds : nat.

Lemma dispatch_loop_prefix files total items : forall idx st st' t,
  dispatch_loop w throttle_seconds files total idx items st = (st', t) ->
  exists k,
    k <= List.length items /\
    log st' = log st ++ entries_from w files idx (firstn k items) /\
    (t = Completed -> k = List.length items) /\
    (t = Cancelled -> k < List.length items).
Proof.
  induction items as [|m rest IH]; intros idx st st' t H.
  - simpl in H. injection H as <- <-. exists 0. simpl. rewrite app_nil_r.
    repeat split; auto. discriminate.
  - cbn [dispatch_loop] in H. destruct (flag st).
    + injection H as <- <-. exists 0. simpl. rewrite app_nil_r.
      repeat split; auto; [lia | discriminate | lia].
    + destruct (attempt w files idx m) as [raised evs] eqn:Ea.
      destruct ((idx <? total - 1) && negb (false || cancel_during_send w idx));
        apply IH in H as (k & Hk & Hlog & Hc & Hx); cbn [log] in Hlog;
        exists (S k); cbn [firstn entries_from List.length]; rewrite Ea; cbn [fst];
        (split; [lia|]); (split; [now rewrite Hlog, <- app_assoc|]);
        (split; [intros Ht; specialize (Hc Ht); lia
                | intros Ht; specialize (Hx Ht); lia]).
Qed.

(** X7.  Whatever the transport, the clock and the operator do, the log of
    a run holds the entries of the first [k] selected items, one each and
    in input order, for some [k]; the run is completed exactly when that
    is all of them and cancelled when some are left. *)
Theorem dispatch_log_is_prefix (s : session V) (selected_matches : list match_t) :
  let '(s', t, _) := on_send w throttle_seconds s selected_matches in
  exists k,
    k <= List.length selected_matches /\
    send_log s' = entries_from w (pdf_files s) 0 (firstn k selected_matches) /\
    List.length (send_log s') = k /\
    (t = Completed -> k = List.length selected_matches) /\
    (t = Cancelled -> k < List.length selected_matches).
Proof.
  unfold on_send. cbn [enter_running pdf_files cancel_requested].
  destruct (dispatch_loop w throttle_seconds (pdf_files s)
              (List.length selected_matches) 0 selected_matches
              (mkLoop false [] [])) as [st t] eqn:E.
  cbn [send_log].
  apply dispatch_loop_prefix in E as (k & Hk & Hlog & Hc & Hx).
  simpl in Hlog. exists k. repeat split; auto.
  rewrite Hlog, entries_from_length, length_firstn. lia.
Qed.

Lemma count_states (l : list log_entry) :
  enviados l + fallidos l = List.length l.
Proof.
  unfold enviados, fallidos. induction l as [|e l IH]; [reflexivity|].
  simpl. unfold is_enviado, is_error in *. destruct (estado_ e); simpl; lia.
Qed.

(** X8.  The summary accounts for every item processed: the number of
    entries counted as sent plus the number counted as failed is the
    length of the log, at most the number of selected items, and equal to
    it when the run completed. *)
Theorem summary_counts_every_entry (s : session V)
    (selected_matches : list match_t) :
  let '(s', t, _) := on_send w throttle_seconds s selected_matches in
  enviados (send_log s') + fallidos (send_log s') = List.length (send_log s') /\
  enviados (send_log s') + fallidos (send_log s')
    <= List.length selected_matches /\
  (t = Completed ->
   enviados (send_log s') + fallidos (send_log s')
     = List.length selected_matches).
Proof.
  unfold on_send. cbn [enter_running pdf_files cancel_requested].
  destruct (dispatch_loop w throttle_seconds (pdf_files s)
              (List.length selected_matches) 0 selected_matches
              (mkLoop false [] [])) as [st t] eqn:E.
  cbn [send_log]. rewrite count_states.
  apply dispatch_loop_prefix in E as (k & Hk & Hlog & Hc & _).
  simpl in Hlog. rewrite Hlog, entries_from_length, length_firstn.
  split; [reflexivity|]. split; [lia|]. intros Ht. specialize (Hc Ht). lia.
Qed.

Lemma dispatch_loop_late_cancel files total items : forall idx st,
  idx + List.length items = total ->
  (forall i, idx <= i -> i + 1 < total ->
     cancel_during_send w i = false /\ cancel_during_sleep w i = false) ->
  flag st = false ->
  exists f,
    dispatch_loop w throttle_seconds files total idx items st =
      (mkLoop f (log st ++ entries_from w files idx items)
              (trace st ++ paused_between throttle_seconds
                             (sends_from w files idx items)),
       Completed).
Proof.
  induction items as [|m rest IH]; intros idx st Htot Hno Hflag.
  - exists (flag st). simpl. rewrite !app_nil_r. now destruct st.
  - cbn [dispatch_loop]. rewrite Hflag.
    destruct (attempt w files idx m) as [raised evs] eqn:Ea.
    cbn [entries_from sends_from]. rewrite Ea. cbn [fst snd orb].
    simpl in Htot. destruct rest as [|m' rest'].
    + assert (E : (idx <? total - 1) = false)
        by (apply Nat.ltb_ge; simpl in Htot; lia).
      rewrite E. simpl. eexists. reflexivity.
    + assert (E : (idx <? total - 1) = true)
        by (apply Nat.ltb_lt; simpl in Htot; lia).
      rewrite E. cbn [andb].
      destruct (Hno idx (le_n _)) as [Hs Hp]; [simpl in Htot; lia|].
      rewrite Hs, Hp. cbn [negb orb].
      destruct (IH (S idx)
                  (mkLoop false (log st ++ [entry_of w idx m raised])
                          ((trace st ++ evs) ++ [Slept throttle_seconds])))
        as (f & ->); [simpl in *; lia | intros i Hi; apply Hno; lia | reflexivity |].
      exists f. cbn [log trace paused_between].
      change (sends_from w files (S idx) (m' :: rest'))
        with (snd (attempt w files (S idx) m')
                :: sends_from w files (S (S idx)) rest').
      f_equal. f_equal.
      * now rewrite <- app_assoc.
      * rewrite <- !app_assoc. reflexivity.
Qed.

(** X9.  A cancel action that lands while the last item is being sent
    comes too late: when nothing lands before the last item, the run
    completes, with an entry for every item and the pauses between them. *)
Theorem cancel_during_last_item_is_late (s : session V)
    (selected_matches : list match_t) :
  (forall i, i + 1 < List.length selected_matches ->
     cancel_during_send w i = false /\ cancel_during_sleep w i = false) ->
  let '(s', t, tr) := on_send w throttle_seconds s selected_matches in
  t = Completed /\
  send_log s' = entries_from w (pdf_files s) 0 selected_matches /\
  tr = paused_between throttle_seconds
         (sends_from w (pdf_files s) 0 selected_matches) /\
  cancel_requested s' = false.
Proof.
  intros Hno. unfold on_send. cbn [enter_running pdf_files cancel_requested].
  destruct (dispatch_loop_late_cancel (pdf_files s)
              (List.length selected_matches) selected_matches 0
              (mkLoop false [] [])) as (f & ->);
    [reflexivity | intros i _; apply Hno | reflexivity |].
  cbn [log trace send_log cancel_requested app]. auto.
Qed.

(** X10.  A cancel action that lands while item [j] is being sent spares
    the operator the pause: with items left, the events of the run are the
    sends of items 0 to [j] with the pauses between them, then the notice,
    and no pause after item [j]. *)
Theorem cancel_during_send_skips_pause (s : session V)
    (selected_matches : list match_t) (j : nat) :
  (forall i, i < j ->
     cancel_during_send w i = false /\ cancel_during_sleep w i = false) ->
  cancel_during_send w j = true ->
  j + 1 < List.length selected_matches ->
  let '(_, _, tr) := on_send w throttle_seconds s selected_matches in
  tr = paused_between throttle_seconds
         (sends_from w (pdf_files s) 0 (firstn (j + 1) selected_matches))
       ++ [CancelNotice (j + 1)].
Proof.
  intros Hno Hclick Hlen. unfold on_send.
  cbn [enter_running pdf_files cancel_requested].
  rewrite (dispatch_loop_cancel w throttle_seconds (pdf_files s)
             (List.length selected_matches) selected_matches 0 _ j);
    [| reflexivity | lia | lia | intros; apply Hno; lia
     | rewrite Hclick; reflexivity | reflexivity ].
  cbn [trace app]. unfold cancelled_trace. rewrite Hclick.
  rewrite Nat.sub_0_r. replace (j + 1) with (S j) by lia. reflexivity.
Qed.

End DispatchMore.

(** ** Matching, then dispatch *)

Lemma dict_get_of_key {V : Type} (d : Dict.t V) k :
  In k (Dict.keys d) -> exists v, Dict.get k d = Some v.
Proof.
  induction d as [|[k' v'] d IH]; simpl; [tauto|].
  intros [-> | Hin].
  - exists v'. now rewrite String.eqb_refl.
  - destruct (String.eqb k' k); [now exists v' | now apply IH].
Qed.

(** X11.  The documents of the matches are there when they are sent: for
    the matches [run_matching] makes from a dict of documents, and any
    state of the checkboxes, the attempt for a selected match finds its
    document in that dict and calls the transport with it; the look-up
    never fails. *)
Theorem matched_documents_are_found {V : Type}
    (token_sort_ratio : string -> string -> Q) (w : world V)
    (pdf_files : Dict.t V) (df : dataframe) :
  exists matches unmatched,
    run_matching token_sort_ratio pdf_files df = Ok (matches, unmatched) /\
    forall checked idx m,
      In m (selected_matches (apply_checkboxes checked matches)) ->
      exists pdf_bytes,
        Dict.get (pdf_name m) pdf_files = Some pdf_bytes /\
        attempt w pdf_files idx m =
          (send_email w idx (email m) (pdf_name m) pdf_bytes,
           [Sent_ idx (email m) (pdf_name m) pdf_bytes]).
Proof.
  unfold run_matching.
  destruct (matching_loop_filter token_sort_ratio df (Dict.keys pdf_files) [] [])
    as (new & E & _ & _).
  eexists _, _. split; [exact E|].
  assert (Hkeys : Forall (fun m => In (pdf_name m) (Dict.keys pdf_files)) new).
  { eapply matching_loop_forall; [|exact E|constructor].
    intros name m Hin Hm. apply match_one_Some in Hm as (-> & _). exact Hin. }
  intros checked idx m Hm.
  unfold selected_matches, apply_checkboxes, enumerate in Hm.
  rewrite selected_of_checked in Hm.
  apply in_map_iff in Hm as ([i m0] & <- & Hin). apply filter_In in Hin as [Hin _].
  apply in_combine_r in Hin. rewrite Forall_forall in Hkeys.
  destruct (dict_get_of_key pdf_files _ (Hkeys _ Hin)) as (b & Hb).
  exists b. simpl. split; [exact Hb|]. unfold attempt. simpl. now rewrite Hb.
Qed.

(** ** send_email *)


(** ** Session state defaults *)

Section InitMore.
Context {V : Type}.

Lemma init_state_cons (k : string) (v : V) defaults st :
  init_state ((k, v) :: defaults) st =
  init_state defaults
    (match Dict.get k st with Some _ => st | None => Dict.set k v st end).
Proof. reflexivity. Qed.

Lemma init_state_keeps (defaults : Dict.t V) : forall st k v,
  Dict.get k st = Some v -> Dict.get k (init_state defaults st) = Some v.
Proof.
  induction defaults as [|[k0 v0] d IH]; intros st k v H; [exact H|].
  rewrite init_state_cons. apply IH.
  destruct (Dict.get k0 st) as [x|] eqn:E0; [exact H|].
  rewrite dict_get_set_other; [exact H|]. intros ->. congruence.
Qed.

Lemma init_state_fills (defaults : Dict.t V) : forall st k,
  Dict.get k st = None ->
  Dict.get k (init_state defaults st) = Dict.get k defaults.
Proof.
  induction defaults as [|[k0 v0] d IH]; intros st k H; [exact H|].
  rewrite init_state_cons. simpl.
  destruct (String.eqb k0 k) eqn:Ek.
  - apply String.eqb_eq in Ek. subst k0. rewrite H.
    apply init_state_keeps. apply dict_get_set_same.
  - apply String.eqb_neq in Ek. apply IH.
    destruct (Dict.get k0 st); [exact H|].
    now rewrite dict_get_set_other.
Qed.

Lemma init_state_noop (defaults : Dict.t V) : forall st,
  (forall k, In k (Dict.keys defaults) -> Dict.get k st <> None) ->
  init_state defaults st = st.
Proof.
  induction defaults as [|[k0 v0] d IH]; intros st H; [reflexivity|].
  rewrite init_state_cons.
  destruct (Dict.get k0 st) eqn:E0.
  - apply IH. intros k Hk. apply H. now right.
  - exfalso. apply (H k0); [now left | exact E0].
Qed.

(** X13.  Running the script again never resets the session: the
    initialisation keeps every value the session state already holds,
    gives each absent key of the defaults its default value, adds nothing
    else, and changes nothing when it is run a second time. *)
Theorem init_state_keeps_session (defaults session_state : Dict.t V) :
  (forall k v, Dict.get k session_state = Some v ->
     Dict.get k (init_state defaults session_state) = Some v) /\
  (forall k, Dict.get k session_state = None ->
     Dict.get k (init_state defaults session_state) = Dict.get k defaults) /\
  init_state defaults (init_state defaults session_state)
    = init_state defaults session_state.
Proof.
  split; [apply init_state_keeps|]. split; [apply init_state_fills|].
  apply init_state_noop. intros k Hk.
  destruct (dict_get_of_key defaults k Hk) as (v & Hv).
  destruct (Dict.get k session_state) as [x|] eqn:E.
  - rewrite (init_state_keeps defaults _ _ _ E). discriminate.
  - rewrite (init_state_fills defaults _ _ E), Hv. discriminate.
Qed.

End InitMore.

(** ** The columns of the spreadsheet *)

Lemma str_strip_strip c : str_strip (str_strip c) = str_strip c.
Proof.
  unfold str_strip, L. rewrite list_ascii_of_string_of_list_ascii.
  now rewrite strip_strip.
Qed.

Lemma col_alias_values k v :
  Dict.get k _col_aliases = Some v ->
  v = "Nombre" \/ v = "Email" \/ v = Direccion_col.
Proof.
  unfold _col_aliases. cbn [Dict.get].
  repeat match goal with
         | |- context [String.eqb ?a k] => destruct (String.eqb a k)
         end;
    intros H; try discriminate; injection H as <-; auto.
Qed.

(** X14.  Column names are resolved whatever their letter case and the
    spaces around them: a name that, stripped and in lower case, is an
    alias becomes one of the three required names; the required names
    themselves stay; any other name is only stripped; and renaming twice
    is renaming once. *)
Theorem rename_column_resolves (c : string) :
  (forall canonical,
     Dict.get (str_lower (str_strip c)) _col_aliases = Some canonical ->
     rename_column c = canonical /\ In canonical required_cols) /\
  (Dict.get (str_lower (str_strip c)) _col_aliases = None ->
   rename_column c = str_strip c) /\
  (In c required_cols -> rename_column c = c) /\
  rename_column (rename_column c) = rename_column c.
Proof.
  assert (Hreq : forall r, In r required_cols -> rename_column r = r).
  { intros r Hr. unfold required_cols in Hr. in_list Hr; subst r; reflexivity. }
  split; [|split; [|split]].
  - intros canonical H. unfold rename_column. rewrite H. split; [reflexivity|].
    apply col_alias_values in H. unfold required_cols. simpl. intuition.
  - intros H. unfold rename_column. now rewrite H.
  - apply Hreq.
  - destruct (Dict.get (str_lower (str_strip c)) _col_aliases) as [v|] eqn:E.
    + assert (Hc : rename_column c = v) by (unfold rename_column; now rewrite E).
      rewrite Hc. apply Hreq. apply col_alias_values in E.
      unfold required_cols. simpl. intuition.
    + assert (Hc : rename_column c = str_strip c)
        by (unfold rename_column; now rewrite E).
      rewrite Hc. unfold rename_column. rewrite str_strip_strip. now rewrite E.
Qed.

(** ** The ZIP of documents *)

Lemma starts_with_iff p : forall s,
  Str.starts_with p s = true <-> exists r, s = p ++ r.
Proof.
  induction p as [|a p IH]; intros s; simpl.
  - split; [intros _; now exists s | reflexivity].
  - destruct s as [|b s].
    + split; [discriminate | intros (r & H); discriminate].
    + rewrite andb_true_iff, Ascii.eqb_eq, IH. split.
      * intros (-> & r & ->). now exists r.
      * intros (r & [= -> ->]). split; [reflexivity | now exists r].
Qed.

Lemma ends_with_iff suffix s :
  ends_with suffix s = true <-> exists a, s = a ++ suffix.
Proof.
  unfold ends_with. rewrite starts_with_iff. split.
  - intros (r & H). exists (rev r).
    rewrite <- (rev_involutive s), H, rev_app_distr. now rewrite rev_involutive.
  - intros (a & ->). exists (rev a). apply rev_app_distr.
Qed.

Lemma split_join sep s :
  join sep (Str.split sep s) = s /\
  Forall (fun l => ~ In sep l) (Str.split sep s) /\
  Str.split sep s <> [].
Proof.
  induction s as [|c s (IHj & IHf & IHn)]; simpl.
  - repeat split; [repeat constructor; auto | discriminate].
  - destruct (Ascii.eqb c sep) eqn:E.
    + apply Ascii.eqb_eq in E. subst c.
      destruct (Str.split sep s) as [|l ls] eqn:Es; [congruence|].
      repeat split; [simpl in *; now rewrite IHj | | discriminate].
      constructor; [auto | exact IHf].
    + apply Ascii.eqb_neq in E.
      destruct (Str.split sep s) as [|l ls] eqn:Es; [congruence|].
      apply Forall_cons_iff in IHf as [Hl Hls].
      repeat split; [| | discriminate].
      * destruct ls; simpl in *; now rewrite IHj.
      * constructor; [|exact Hls]. intros [H|H]; [congruence | contradiction].
Qed.

Lemma join_last sep (parts : list Str.chars) :
  parts <> [] ->
  exists pre, join sep parts = pre ++ last parts [] /\
              (pre = [] \/ exists p, pre = p ++ [sep]).
Proof.
  induction parts as [|x rest IH]; intros Hne; [congruence|].
  destruct rest as [|y rest'].
  - exists []. simpl. auto.
  - destruct IH as (pre & Hj & Hpre); [discriminate|].
    exists (x ++ sep :: pre). split.
    + change (join sep (x :: y :: rest')) with (x ++ sep :: join sep (y :: rest')).
      change (last (x :: y :: rest') []) with (last (y :: rest') []).
      rewrite Hj, <- app_assoc. reflexivity.
    + right. destruct Hpre as [-> | (p & ->)].
      * now exists x.
      * exists (x ++ sep :: p). now rewrite <- app_assoc.
Qed.

Lemma last_component_split name :
  exists pre,
    name = pre ++ last_component name /\
    (pre = [] \/ exists p, pre = p ++ ["/"%char]) /\
    ~ In "/"%char (last_component name).
Proof.
  destruct (split_join "/" name) as (Hj & Hf & Hn).
  destruct (join_last "/" _ Hn) as (pre & Hl & Hpre).
  exists pre. unfold last_component. split; [congruence|]. split; [exact Hpre|].
  rewrite Forall_forall in Hf. apply Hf.
  destruct (Str.split "/" name) as [|l ls]; [congruence|].
  apply (@exists_last _ (l :: ls)) in Hn as (front & z & E).
  rewrite E, last_last. apply in_or_app. right. now left.
Qed.

(** A suffix without the separator lies within the last component. *)
Lemma suffix_within (x : ascii) pre b suffix s :
  s = pre ++ b -> (pre = [] \/ exists p, pre = p ++ [x]) ->
  ~ In x suffix -> (exists q, s = q ++ suffix) ->
  exists q, b = q ++ suffix.
Proof.
  intros -> Hpre Hx (q & E).
  apply app_eq_app in E as (l & [[E1 E2] | [E1 E2]]).
  - destruct l as [|c l]; [exists []; simpl in E2; now rewrite E2|].
    exfalso. destruct Hpre as [-> | (p & ->)].
    + destruct q; discriminate.
    + apply Hx. rewrite E2.
      assert (Hlast : exists l', c :: l = l' ++ [x]).
      { destruct (@exists_last _ (c :: l) ltac:(discriminate)) as (l' & z & El).
        rewrite El in E1. rewrite app_assoc in E1.
        apply app_inj_tail in E1 as [_ ->]. now exists l'. }
      destruct Hlast as (l' & ->). apply in_or_app. left. apply in_or_app.
      right. now left.
  - now exists l.
Qed.

Lemma lower_slash c : Char.lower c = "/"%char -> c = "/"%char.
Proof. each_char c. Qed.

Lemma firstn_app_exact {A : Type} (k ext : list A) :
  firstn (List.length (k ++ ext) - List.length ext) (k ++ ext) = k.
Proof.
  rewrite length_app, Nat.add_sub, firstn_app, Nat.sub_diag.
  rewrite firstn_all. simpl. apply app_nil_r.
Qed.

Lemma L_app (a b : string) : L (a ++ b)%string = L a ++ L b.
Proof. induction a as [|c a IH]; simpl; [reflexivity|]. now rewrite <- IH. Qed.

(** X15.  What is loaded from the ZIP under a key is a file whose leaf name
    is that key followed by a four-character extension that reads [.pdf]
    in lower case; the key never holds a slash; and when the extension is
    written [.pdf], the attachment [send_email] names after the key has the
    leaf name of the file in the ZIP. *)
Theorem zip_key_round_trip (name : string) :
  is_pdf_entry name = true ->
  (exists ext,
     List.length ext = 4 /\ Str.lower ext = L ".pdf" /\
     L (pdf_key name) ++ ext = last_component (L name)) /\
  ~ In "/"%char (L (pdf_key name)) /\
  (ends_with (L ".pdf") (L name) = true ->
   L (safe_filename (pdf_key name)) = last_component (L name)).
Proof.
  intros Hpdf. unfold is_pdf_entry in Hpdf. apply andb_true_iff in Hpdf as [He _].
  destruct (last_component_split (L name)) as (pre & Hname & Hpre & Hslash).
  set (base := last_component (L name)) in *.
  assert (Hkey : L (pdf_key name) = drop_last_4 base).
  { unfold pdf_key, L. now rewrite list_ascii_of_string_of_list_ascii. }
  (* the lowered leaf ends with the extension *)
  assert (Hlow : exists q, Str.lower base = q ++ L ".pdf").
  { apply (suffix_within "/" (Str.lower pre) (Str.lower base) (L ".pdf")
             (Str.lower (L name))).
    - rewrite Hname at 1. unfold Str.lower. apply map_app.
    - destruct Hpre as [-> | (p & ->)]; [now left|]. right.
      exists (Str.lower p). unfold Str.lower. now rewrite map_app.
    - simpl. intuition discriminate.
    - now apply ends_with_iff. }
  destruct Hlow as (q & Hq). unfold Str.lower in Hq.
  apply map_eq_app in Hq as (k & ext & Hbase & Hk & Hext).
  assert (Hlen : List.length ext = 4).
  { rewrite <- (length_map Char.lower), Hext. reflexivity. }
  assert (Hdrop : drop_last_4 base = k).
  { unfold drop_last_4. rewrite Hbase. rewrite <- Hlen. apply firstn_app_exact. }
  split; [|split].
  - exists ext. rewrite Hkey, Hdrop. auto.
  - rewrite Hkey, Hdrop. intros Hin. apply Hslash. rewrite Hbase.
    apply in_or_app. now left.
  - intros Hexact.
    assert (Hq' : exists q', base = q' ++ L ".pdf").
    { apply (suffix_within "/" pre base (L ".pdf") (L name)); auto.
      - simpl. intuition discriminate.
      - now apply ends_with_iff. }
    destruct Hq' as (q' & Hq').
    assert (Hd : drop_last_4 base = q').
    { unfold drop_last_4. rewrite Hq'.
      change 4 with (List.length (L ".pdf")). apply firstn_app_exact. }
    unfold safe_filename. rewrite L_app, Hkey, Hd. exact (eq_sym Hq').
Qed.

Section DictMore.
Context {V : Type}.

Lemma dict_set_keys k (v : V) d :
  Dict.keys (Dict.set k v d)
  = if in_dec string_dec k (Dict.keys d) then Dict.keys d else Dict.keys d ++ [k].
Proof.
  induction d as [|[k' v'] d IH]; [reflexivity|].
  simpl. destruct (String.eqb k' k) eqn:E.
  - apply String.eqb_eq in E. subst k'. simpl.
    destruct (string_dec k k); [reflexivity | congruence].
  - apply String.eqb_neq in E. simpl. rewrite IH.
    destruct (string_dec k' k); [congruence|].
    destruct (in_dec string_dec k (Dict.keys d)); reflexivity.
Qed.

Lemma dict_set_wf k (v : V) d : Dict.wf d -> Dict.wf (Dict.set k v d).
Proof.
  unfold Dict.wf. intros H. rewrite dict_set_keys.
  destruct (in_dec string_dec k (Dict.keys d)) as [Hin | Hnin]; [exact H|].
  apply (NoDup_Add (Add_app k (Dict.keys d) [])).
  rewrite app_nil_r. auto.
Qed.

Lemma store_all_wf (kvs : list (string * V)) : forall d,
  Dict.wf d -> Dict.wf (store_all kvs d).
Proof.
  induction kvs as [|[k v] kvs IH]; intros d H; [exact H|].
  unfold store_all. simpl. apply IH. now apply dict_set_wf.
Qed.

Lemma store_all_length (kvs : list (string * V)) : forall d,
  List.length (Dict.keys (store_all kvs d))
  <= List.length (Dict.keys d) + List.length kvs.
Proof.
  induction kvs as [|[k v] kvs IH]; intros d; [simpl; lia|].
  unfold store_all. simpl. fold (store_all kvs (Dict.set k v d)).
  specialize (IH (Dict.set k v d)). rewrite dict_set_keys in IH.
  destruct (in_dec string_dec k (Dict.keys d)); [lia|].
  rewrite length_app in IH. simpl in IH. lia.
Qed.

End DictMore.

Lemma load_zip_fold {V : Type} (zf_read : string -> V) names : forall d skipped,
  fold_left (zip_step zf_read) names (d, skipped)
  = (store_all (zip_bindings zf_read names) d, skipped ++ zip_skipped names).
Proof.
  induction names as [|n names IH]; intros d skipped.
  - simpl. now rewrite app_nil_r.
  - cbn [fold_left].
    destruct (zip_step zf_read (d, skipped) n) as [d' sk'] eqn:Ez.
    rewrite IH. unfold zip_step in Ez.
    unfold zip_bindings, zip_skipped. cbn [filter].
    destruct (is_pdf_entry n) eqn:E; cbn [negb andb map].
    + injection Ez as <- <-. reflexivity.
    + destruct (ends_with (L "/") (L n)); cbn [negb] in Ez |- *;
        injection Ez as <- <-; [reflexivity | now rewrite <- app_assoc].
Qed.

(** X16.  Loading a ZIP sorts its names: the documents go to the dict, the
    other files to [skipped] in their order, the directories nowhere.  The
    dict has no key twice and at most one entry per document; under a key
    it holds the content of the last document of the ZIP that has this
    key, and it holds nothing that is not the content of a document. *)
Theorem load_zip_last_wins {V : Type} (zf_read : string -> V)
    (namelist : list string) :
  let '(pdf_dict, skipped) := load_zip zf_read namelist in
  let documents := filter is_pdf_entry namelist in
  skipped = zip_skipped namelist /\
  Dict.wf pdf_dict /\
  List.length (Dict.keys pdf_dict) <= List.length documents /\
  (forall i n, nth_error documents i = Some n ->
     (forall i' n', i < i' -> nth_error documents i' = Some n' ->
        pdf_key n' <> pdf_key n) ->
     Dict.get (pdf_key n) pdf_dict = Some (zf_read n)) /\
  (forall k v, Dict.get k pdf_dict = Some v ->
     exists n, In n namelist /\ is_pdf_entry n = true /\
               k = pdf_key n /\ v = zf_read n).
Proof.
  unfold load_zip. rewrite load_zip_fold. cbv zeta.
  split; [reflexivity|]. split; [|split; [|split]].
  - apply store_all_wf. constructor.
  - pose proof (store_all_length (zip_bindings zf_read namelist) Dict.empty) as H.
    unfold zip_bindings in H at 2. rewrite length_map in H. exact H.
  - intros i n Hi Hlast. apply store_all_last with (i := i).
    + unfold zip_bindings. rewrite nth_error_map, Hi. reflexivity.
    + intros i' v' Hlt Hi'. unfold zip_bindings in Hi'.
      apply nth_error_map_Some in Hi' as (n' & Hn' & Heq).
      injection Heq as Hk _. apply (Hlast i' n' Hlt Hn'). congruence.
  - intros k v H. apply store_all_origin in H as [H | H]; [|discriminate].
    unfold zip_bindings in H. apply in_map_iff in H as (n & [= <- <-] & Hn).
    apply filter_In in Hn as [Hn Hp]. exists n. auto.
Qed.

(** ** normalize: the shape of what it returns *)

Lemma sp_norm_space s : forall b c,
  sp_norm b s = true -> In c s -> Char.is_space c = true -> c = " "%char.
Proof.
  induction s as [|x s IH]; intros b c H Hin Hc; [destruct Hin|].
  simpl in H. destruct Hin as [-> | Hin].
  - rewrite Hc in H. apply andb_true_iff in H as [H _].
    apply andb_true_iff in H as [H _]. now apply Ascii.eqb_eq in H.
  - destruct (Char.is_space x).
    + apply andb_true_iff in H as [_ H]. eapply IH; eauto.
    + eapply IH; eauto.
Qed.

Lemma sp_norm_no_double a : forall b r,
  sp_norm b (a ++ " "%char :: " "%char :: r) = false.
Proof.
  induction a as [|x a IH]; intros b r.
  - simpl. change (Char.is_space " ") with true. cbn [andb negb].
    now rewrite !andb_false_r.
  - simpl. destruct (Char.is_space x); [|apply IH].
    rewrite IH. apply andb_false_r.
Qed.

Lemma normalize_chars_shape (s : list ascii) :
  Forall (fun c => Char.lower c = c) (normalize_chars s) /\
  Forall (fun c => is_punct c = false) (normalize_chars s) /\
  sp_norm false (normalize_chars s) = true /\
  head_not_space (normalize_chars s) /\
  head_not_space (rev (normalize_chars s)).
Proof.
  unfold normalize_chars.
  set (x1 := Str.lower s).
  set (x2 := Re.sub true _LEGAL_SUFFIXES [] x1).
  set (x3 := Re.sub false _PUNCTUATION (L " ") x2).
  set (x4 := Re.sub false _SPACES (L " ") x3).
  assert (L1 : Forall (fun c => Char.lower c = c) x1).
  { unfold x1, Str.lower. apply Forall_forall. intros c Hc.
    apply in_map_iff in Hc as (c0 & <- & _). apply lower_lower. }
  assert (L2 : Forall (fun c => Char.lower c = c) x2)
    by (apply sub_delete_keeps; exact L1).
  assert (L3 : Forall (fun c => Char.lower c = c) x3).
  { unfold x3. rewrite sub_punctuation. apply collapse_keeps; [reflexivity | exact L2]. }
  assert (L4 : Forall (fun c => Char.lower c = c) x4).
  { unfold x4. rewrite sub_spaces. apply collapse_keeps; [reflexivity | exact L3]. }
  assert (P3 : Forall (fun c => is_punct c = false) x3).
  { unfold x3. rewrite sub_punctuation. apply collapse_punct_free. }
  assert (P4 : Forall (fun c => is_punct c = false) x4).
  { unfold x4. rewrite sub_spaces. apply collapse_keeps; [reflexivity | exact P3]. }
  assert (S4 : sp_norm false x4 = true).
  { unfold x4. rewrite sub_spaces. apply collapse_sp_norm. }
  split; [apply strip_keeps; exact L4|].
  split; [apply strip_keeps; exact P4|].
  split; [apply strip_sp_norm; exact S4|].
  split; [apply rstrip_head, lstrip_head|].
  unfold Str.strip, Str.rstrip. rewrite rev_involutive. apply lstrip_head.
Qed.

(** X17.  What [normalize] returns is clean: it holds no punctuation
    character of the set, no capital letter ([lower] leaves it as it is),
    no white space but single spaces between words, and neither starts
    nor ends with white space. *)
Theorem normalize_output_is_clean (x : string) :
  let y := L (normalize x) in
  (forall c, In c y ->
     is_punct c = false /\ Char.lower c = c /\
     (Char.is_space c = true -> c = " "%char)) /\
  (forall a b, y <> a ++ " "%char :: " "%char :: b) /\
  head_not_space y /\ head_not_space (rev y).
Proof.
  unfold normalize, L. rewrite list_ascii_of_string_of_list_ascii. cbv zeta.
  destruct (normalize_chars_shape (list_ascii_of_string x))
    as (Hl & Hp & Hs & Hh & Ht).
  rewrite Forall_forall in Hl, Hp.
  split; [|split; [|split; assumption]].
  - intros c Hc. repeat split; auto. intros Hsp.
    exact (sp_norm_space _ false c Hs Hc Hsp).
  - intros a b E. rewrite E in Hs. rewrite sp_norm_no_double in Hs. discriminate.
Qed.

(** ** normalize: text without a word *)

Lemma sep_lower c :
  is_punct c || Char.is_space c = true -> Char.lower c = c.
Proof. each_char c. Qed.

Lemma like_s_not_sep c :
  Re.lit_matches true "s" c = true -> is_punct c || Char.is_space c = false.
Proof. each_char c. Qed.

(** The pattern matches only where the text has the letter s. *)
Lemma match_head_s prev s n :
  Re.match_at true _LEGAL_SUFFIXES prev s = Some n ->
  exists c s', s = c :: s' /\ Re.lit_matches true "s" c = true.
Proof.
  intros E. rewrite match_at_suffix in E.
  destruct (Re.at_boundary prev s); [|discriminate].
  destruct (suffix_alternatives_found _ _ _ E) as (t & Hin & Ht).
  assert (Hs : exists t', t = "s"%char :: t').
  { unfold alternatives in Hin. in_list Hin; subst t; eexists; reflexivity. }
  destruct Hs as (t' & ->). unfold try_tok in Ht. cbn [ci_strip] in Ht.
  destruct s as [|c s']; [discriminate|]. exists c, s'. split; [reflexivity|].
  destruct (Re.lit_matches true "s" c); [reflexivity | discriminate].
Qed.

Lemma sub_suffix_no_s s : forall prev,
  Forall (fun c => Re.lit_matches true "s" c = false) s ->
  Re.sub_from true _LEGAL_SUFFIXES [] prev 0 s = s.
Proof.
  induction s as [|c s IH]; intros prev H; [reflexivity|].
  inversion H as [|? ? Hc Hs]; subst. cbn [Re.sub_from].
  destruct (Re.match_at true _LEGAL_SUFFIXES prev (c :: s)) as [n|] eqn:E.
  - apply match_head_s in E as (c' & s' & [= <- <-] & Hm). congruence.
  - now rewrite IH.
Qed.

Lemma collapse_punct_of_seps s : forall b,
  Forall (fun c => is_punct c || Char.is_space c = true) s ->
  Forall (fun c => Char.is_space c = true) (collapse is_punct b s).
Proof.
  induction s as [|c s IH]; intros b H; [constructor|].
  inversion H as [|? ? Hc Hs]; subst. cbn [collapse].
  destruct (is_punct c) eqn:E.
  - destruct b; [now apply IH|]. constructor; [reflexivity | now apply IH].
  - simpl in Hc. constructor; [exact Hc | now apply IH].
Qed.

Lemma lstrip_spaces s :
  Forall (fun c => Char.is_space c = true) s -> Str.lstrip s = [].
Proof.
  induction 1 as [|c s Hc Hs IH]; [reflexivity|]. simpl. now rewrite Hc.
Qed.

(** X18.  A text made of punctuation and white space only, the empty text
    among them, normalizes to the empty string. *)
Theorem normalize_without_word_is_empty (x : string) :
  Forall (fun c => is_punct c || Char.is_space c = true) (L x) ->
  normalize x = "".
Proof.
  intros H. unfold normalize. fold (L x).
  assert (E : normalize_chars (L x) = []); [|now rewrite E].
  unfold normalize_chars.
  assert (E1 : Str.lower (L x) = L x).
  { apply lower_fixed. eapply Forall_impl; [|exact H]. apply sep_lower. }
  rewrite E1.
  assert (E2 : Re.sub true _LEGAL_SUFFIXES [] (L x) = L x).
  { apply sub_suffix_no_s. eapply Forall_impl; [|exact H].
    intros c Hc. destruct (Re.lit_matches true "s" c) eqn:Em; [|reflexivity].
    apply like_s_not_sep in Em. congruence. }
  rewrite E2, sub_punctuation, sub_spaces.
  unfold Str.strip. rewrite lstrip_spaces; [reflexivity|].
  apply collapse_keeps; [reflexivity|]. now apply collapse_punct_of_seps.
Qed.

(** ** normalize: a legal suffix after the name *)

Lemma alternatives_not_space :
  Forall (Forall (fun p => Re.lit_matches true p " " = false)) alternatives.
Proof. repeat constructor. Qed.

Lemma ci_strip_app_space t :
  Forall (fun p => Re.lit_matches true p " " = false) t ->
  forall prev a z,
    ci_strip t prev (a ++ " "%char :: z) =
    match ci_strip t prev a with
    | Some (last, rest) => Some (last, rest ++ " "%char :: z)
    | None => None
    end.
Proof.
  induction 1 as [|p t Hp Ht IH]; intros prev a z; [reflexivity|].
  cbn [ci_strip]. destruct a as [|c a].
  - cbn [app]. now rewrite Hp.
  - cbn [app]. destruct (Re.lit_matches true p c); [apply IH | reflexivity].
Qed.

Lemma try_tok_app_space t prev a z :
  Forall (fun p => Re.lit_matches true p " " = false) t ->
  try_tok t prev (a ++ " "%char :: z) = try_tok t prev a.
Proof.
  intros Ht. unfold try_tok. rewrite (ci_strip_app_space t Ht).
  destruct (ci_strip t prev a) as [[last rest]|]; [|reflexivity].
  assert (E : Re.at_boundary last (rest ++ " "%char :: z) = Re.at_boundary last rest).
  { unfold Re.at_boundary. destruct rest; reflexivity. }
  now rewrite E.
Qed.

Lemma match_at_app_space prev c a z :
  Re.match_at true _LEGAL_SUFFIXES prev ((c :: a) ++ " "%char :: z)
  = Re.match_at true _LEGAL_SUFFIXES prev (c :: a).
Proof.
  rewrite !match_at_suffix.
  assert (Eb : Re.at_boundary prev ((c :: a) ++ " "%char :: z)
               = Re.at_boundary prev (c :: a)) by reflexivity.
  rewrite Eb. destruct (Re.at_boundary prev (c :: a)); [|reflexivity].
  pose proof alternatives_not_space as H. unfold alternatives in H.
  repeat match type of H with
         | Forall _ (_ :: _) => apply Forall_cons_iff in H as [? H]
         end.
  unfold suffix_alternatives.
  rewrite !try_tok_app_space by assumption. reflexivity.
Qed.

Lemma match_at_suffix_bound prev s n :
  Re.match_at true _LEGAL_SUFFIXES prev s = Some n ->
  1 <= n <= List.length s.
Proof.
  intros E. rewrite match_at_suffix in E.
  destruct (Re.at_boundary prev s); [|discriminate].
  destruct (suffix_alternatives_found _ _ _ E) as (t & Hin & Ht).
  unfold try_tok in Ht.
  destruct (ci_strip t prev s) as [[last rest]|] eqn:Es; [|discriminate].
  destruct (Re.at_boundary last rest); [|discriminate]. injection Ht as <-.
  apply ci_strip_shape in Es as (m & -> & Hl & _).
  rewrite length_app, Hl. split; [|lia].
  unfold alternatives in Hin. in_list Hin; subst t; simpl; lia.
Qed.

Lemma sub_from_at_match ic r repl prev s k :
  Re.match_at ic r prev s = Some (S k) -> S k <= List.length s ->
  Re.sub_from ic r repl prev 0 s =
  repl ++ Re.sub_from ic r repl (last_of prev (firstn (S k) s)) 0 (skipn (S k) s).
Proof.
  intros E Hlen. destruct s as [|c s]; [simpl in Hlen; lia|].
  cbn [Re.sub_from]. rewrite E. f_equal. cbn [firstn skipn last_of].
  simpl in Hlen.
  rewrite <- (firstn_skipn k s) at 1.
  rewrite <- (sub_from_skip ic r repl (firstn k s) (Some c) (skipn k s)).
  rewrite length_firstn, Nat.min_l by lia. reflexivity.
Qed.

Lemma sub_suffix_app_space z :
  Re.sub_from true _LEGAL_SUFFIXES [] (Some " "%char) 0 z = [] ->
  forall n s, List.length s <= n -> forall prev,
    Re.sub_from true _LEGAL_SUFFIXES [] prev 0 (s ++ " "%char :: z)
    = Re.sub_from true _LEGAL_SUFFIXES [] prev 0 s ++ [" "%char].
Proof.
  intros Hz. induction n as [|n IH]; intros s Hlen prev.
  - destruct s; [|simpl in Hlen; lia]. simpl app. cbn [Re.sub_from].
    destruct (Re.match_at true _LEGAL_SUFFIXES prev (" "%char :: z)) as [m|] eqn:E.
    + apply match_head_s in E as (c & s' & [= <- <-] & Hm). discriminate.
    + now rewrite Hz.
  - destruct s as [|c s].
    + simpl app. cbn [Re.sub_from].
      destruct (Re.match_at true _LEGAL_SUFFIXES prev (" "%char :: z)) as [m|] eqn:E.
      * apply match_head_s in E as (c & s' & [= <- <-] & Hm). discriminate.
      * now rewrite Hz.
    + pose proof (match_at_app_space prev c s z) as Em.
      destruct (Re.match_at true _LEGAL_SUFFIXES prev (c :: s)) as [m|] eqn:E.
      * pose proof (match_at_suffix_bound _ _ _ E) as [Hm1 Hm2].
        destruct m as [|k]; [lia|].
        rewrite (sub_from_at_match _ _ _ _ _ k Em)
          by (rewrite length_app; lia).
        rewrite (sub_from_at_match _ _ _ _ _ k E) by exact Hm2.
        rewrite firstn_app, skipn_app.
        replace (S k - List.length (c :: s)) with 0 by lia.
        cbn [firstn skipn]. rewrite app_nil_r. cbn [app].
        apply IH. rewrite length_skipn. simpl in Hlen |- *. lia.
      * simpl app in Em |- *. cbn [Re.sub_from]. rewrite Em, E.
        cbn [app]. f_equal. apply IH. simpl in Hlen. lia.
Qed.

Lemma collapse_snoc p c a : forall b,
  p c = false -> collapse p b (a ++ [c]) = collapse p b a ++ [c].
Proof.
  induction a as [|x a IH]; intros b Hc.
  - simpl. now rewrite Hc.
  - simpl. destruct (p x); [destruct b|]; simpl; now rewrite IH.
Qed.

Lemma collapse_space_snoc a : forall b,
  exists t, Forall (fun c => Char.is_space c = true) t /\
            collapse Char.is_space b (a ++ [" "%char])
            = collapse Char.is_space b a ++ t.
Proof.
  induction a as [|x a IH]; intros b.
  - destruct b; [exists [] | exists [" "%char]]; split;
      try reflexivity; repeat constructor.
  - simpl. destruct (Char.is_space x).
    + destruct (IH true) as (t & Ht & ->). exists t. split; [exact Ht|].
      destruct b; reflexivity.
    + destruct (IH false) as (t & Ht & ->). exists t. auto.
Qed.

Lemma lstrip_app_spaces u v :
  Forall (fun c => Char.is_space c = true) u -> Str.lstrip (u ++ v) = Str.lstrip v.
Proof. induction 1 as [|c u Hc Hu IH]; [reflexivity|]. simpl. now rewrite Hc. Qed.

Lemma rstrip_app_spaces a t :
  Forall (fun c => Char.is_space c = true) t -> Str.rstrip (a ++ t) = Str.rstrip a.
Proof.
  intros Ht. unfold Str.rstrip. rewrite rev_app_distr.
  rewrite lstrip_app_spaces; [reflexivity | now apply Forall_rev].
Qed.

Lemma strip_app_spaces a t :
  Forall (fun c => Char.is_space c = true) t -> Str.strip (a ++ t) = Str.strip a.
Proof.
  intros Ht. unfold Str.strip. induction a as [|c a IH].
  - simpl. now rewrite (lstrip_spaces t Ht).
  - simpl. destruct (Char.is_space c); [exact IH|].
    now apply (rstrip_app_spaces (c :: a) t).
Qed.

(** X19.  A legal suffix written without dots after the name, in any
    letter case, goes unnoticed: for every text [x] and every [tok] that
    reads [sl], [sa] or [slu] in lower case, [x] followed by a space and
    [tok] normalizes to what [x] normalizes to. *)
Theorem normalize_ignores_trailing_suffix (x tok : string) :
  In (Str.lower (L tok)) [L "sl"; L "sa"; L "slu"] ->
  normalize (x ++ " " ++ tok) = normalize x.
Proof.
  intros Htok. unfold normalize. f_equal. fold (L x). fold (L (x ++ " " ++ tok)).
  rewrite !L_app. change (L " " ++ L tok) with (" "%char :: L tok).
  unfold normalize_chars.
  assert (E1 : Str.lower (L x ++ " "%char :: L tok)
               = Str.lower (L x) ++ " "%char :: Str.lower (L tok)).
  { unfold Str.lower. now rewrite map_app. }
  rewrite E1.
  assert (Hz : Re.sub_from true _LEGAL_SUFFIXES [] (Some " "%char) 0
                 (Str.lower (L tok)) = []).
  { in_list Htok; rewrite <- Htok; vm_compute; reflexivity. }
  unfold Re.sub at 3.
  rewrite (sub_suffix_app_space _ Hz (List.length (Str.lower (L x))))
    by apply le_n.
  fold (Re.sub true _LEGAL_SUFFIXES [] (Str.lower (L x))).
  set (x2 := Re.sub true _LEGAL_SUFFIXES [] (Str.lower (L x))).
  rewrite !sub_punctuation, !sub_spaces.
  rewrite collapse_snoc by reflexivity.
  destruct (collapse_space_snoc (collapse is_punct false x2) false)
    as (t & Ht & ->).
  now apply strip_app_spaces.
Qed.

(** X23.  On a text without underscore [normalize] is idempotent:
    normalizing twice gives what normalizing once gives. *)
Theorem normalize_idempotent_without_underscore (x : string) :
  has_char "_" x = false ->
  normalize (normalize x) = normalize x.
Proof.
  intros H. unfold normalize. rewrite list_ascii_of_string_of_list_ascii.
  f_equal. apply normalize_chars_twice.
  apply Forall_forall. intros c Hc E. subst c.
  unfold has_char in H.
  assert (Ht : existsb (Ascii.eqb "_") (list_ascii_of_string x) = true).
  { apply existsb_exists. exists "_"%char. split; [exact Hc | apply Ascii.eqb_refl]. }
  congruence.
Qed.

(** ** The splitter: keys and pages *)

Lemma sub_charset_filter ic (p : ascii -> bool) s : forall prev,
  Re.sub_from ic (Re.CharSet p) [] prev 0 s = filter (fun c => negb (p c)) s.
Proof.
  induction s as [|c s IH]; intros prev; [reflexivity|].
  cbn [Re.sub_from]. unfold Re.match_at. cbn [Re.ends filter].
  destruct (p c); cbn [negb app]; now rewrite IH.
Qed.

Lemma Forall_firstn' {A : Type} (P : A -> Prop) n (l : list A) :
  Forall P l -> Forall P (firstn n l).
Proof.
  intros H. rewrite <- (firstn_skipn n l) in H.
  now apply Forall_app in H as [H _].
Qed.

Lemma limpiar_legal s : Forall (fun c => is_illegal c = false) (limpiar s).
Proof.
  unfold limpiar. apply Forall_firstn', strip_keeps.
  unfold Re.sub. rewrite sub_charset_filter. apply Forall_forall.
  intros c Hc. apply filter_In in Hc as [_ Hc]. now apply negb_true_iff in Hc.
Qed.

Lemma string_of_uint_legal d :
  Forall (fun c => is_illegal c = false) (L (NilEmpty.string_of_uint d)).
Proof. induction d; simpl; constructor; auto. Qed.

Lemma L_of_chars s : L (string_of_list_ascii s) = s.
Proof. apply list_ascii_of_string_of_list_ascii. Qed.

Lemma cliente_default_legal idx :
  Forall (fun c => is_illegal c = false) (L (cliente_default idx)).
Proof.
  unfold cliente_default, format_03d. rewrite !L_app, L_of_chars.
  apply Forall_app. split; [repeat constructor|].
  apply Forall_app. split; [|apply string_of_uint_legal].
  apply Forall_forall. intros c Hc. apply repeat_spec in Hc. now subst c.
Qed.

Lemma nombre_limpio_legal cif texto idx :
  nombre_limpio_of cif texto idx <> "" /\
  Forall (fun c => is_illegal c = false) (L (nombre_limpio_of cif texto idx)) /\
  (String.length (nombre_limpio_of cif texto idx) <= 80 \/
   nombre_limpio_of cif texto idx = cliente_default idx).
Proof.
  unfold nombre_limpio_of.
  destruct (Str.is_empty (limpiar (nombre_cliente_of cif texto idx))) eqn:E.
  - split; [discriminate|]. split; [apply cliente_default_legal | now right].
  - split; [|split].
    + destruct (limpiar _); [discriminate | simpl; discriminate].
    + rewrite L_of_chars. apply limpiar_legal.
    + left.
      assert (Hlen : forall s, String.length s = List.length (L s))
        by (induction s; simpl; congruence).
      rewrite Hlen, L_of_chars. unfold limpiar. rewrite length_firstn. lia.
Qed.

(** X20.  Every key of the mapping [split_pdf_by_cif] returns can name a
    file: it is not empty, holds none of the characters that are illegal
    in file names, and is at most 80 characters long unless it is a
    synthesized [Cliente_NNN]. *)
Theorem split_keys_are_file_names (doc : pdf_doc) (cif key : string)
    (l : letter) :
  Dict.get key (split_pdf_by_cif doc cif) = Some l ->
  key <> "" /\
  (forall c, In c (L key) -> is_illegal c = false) /\
  (String.length key <= 80 \/ exists idx, key = cliente_default idx).
Proof.
  intros Hget. rewrite split_is_store_all in Hget.
  apply store_all_origin in Hget as [Hin | Hget]; [|discriminate].
  apply in_map_iff in Hin as ([i x] & Heq & _).
  unfold letter_entry in Heq. simpl in Heq. injection Heq as <- _.
  destruct (nombre_limpio_legal cif (page_text doc x) i) as (H1 & H2 & H3).
  split; [exact H1|]. split; [now apply Forall_forall|].
  destruct H3 as [H3|H3]; [now left | right; now exists i].
Qed.

Lemma read_decimal_zeros k n :
  read_decimal (string_of_list_ascii (repeat "0"%char k) ++ decimal n) = n.
Proof.
  unfold read_decimal, decimal. induction k as [|k IH].
  - simpl. rewrite NilEmpty.usu. apply DecimalNat.Unsigned.of_to.
  - simpl.
    destruct (NilEmpty.uint_of_string
                (string_of_list_ascii (repeat "0"%char k)
                 ++ NilEmpty.string_of_uint (Nat.to_uint n))) as [d|];
      simpl in *; [|exact IH].
    exact IH.
Qed.

(** X21.  Letters that get a synthesized label never take each other's
    place: the label [Cliente_NNN] writes the number of the letter, and
    two letters with different numbers get different labels. *)
Theorem cliente_default_distinct (i j : nat) :
  i <> j -> cliente_default i <> cliente_default j.
Proof.
  intros Hne H. unfold cliente_default in H. simpl in H. injection H as H.
  unfold format_03d in H.
  apply (f_equal read_decimal) in H. rewrite !read_decimal_zeros in H. lia.
Qed.

Lemma increasing_le (l : list nat) : forall k a x,
  StronglySorted lt l -> nth_error l k = Some a -> In x (skipn k l) -> a <= x.
Proof.
  induction l as [|y l IH]; intros k a x Hs Hk Hx; [destruct k; discriminate|].
  inversion Hs as [|? ? Hs' Hall]; subst. destruct k as [|k].
  - simpl in Hk. injection Hk as ->. simpl in Hx. destruct Hx as [-> | Hx]; [lia|].
    rewrite Forall_forall in Hall. specialize (Hall _ Hx). lia.
  - simpl in Hk, Hx. eapply IH; eauto.
Qed.

Lemma letters_cover n (l : list nat) : forall p first,
  hd_error l = Some first -> first <= p -> p < n ->
  exists k start,
    nth_error l k = Some start /\ start <= p /\
    p <= match nth_error l (S k) with Some next => next - 1 | None => n - 1 end.
Proof.
  induction l as [|a l IH]; intros p first Hhd Hle Hp; [discriminate|].
  simpl in Hhd. injection Hhd as ->.
  destruct l as [|b l'].
  - exists 0, first. simpl. repeat split; auto. lia.
  - destruct (Nat.lt_ge_cases p b) as [Hlt | Hge].
    + exists 0, first. simpl. repeat split; auto. lia.
    + destruct (IH p b eq_refl Hge Hp) as (k & start & Hk & Hs & He).
      exists (S k), start. auto.
Qed.

(** X22.  The letters tile the document from the first page that holds the
    marker: each letter ends on the page before the next one starts, the
    last letter ends on the last page, a page of the document lies in
    some letter exactly when it is not before the first marker page, and
    in no two letters. *)
Theorem letters_tile_the_document (doc : pdf_doc) (cif : string) :
  let indices := indices_inicio doc cif in
  (forall k a b, nth_error indices k = Some a -> nth_error indices (S k) = Some b ->
     end_page_of doc indices k + 1 = b) /\
  (forall k a, nth_error indices k = Some a -> nth_error indices (S k) = None ->
     end_page_of doc indices k = List.length doc - 1) /\
  (forall p, p < List.length doc ->
     ((exists k, in_letter doc indices k p) <->
      (exists first, hd_error indices = Some first /\ first <= p))) /\
  (forall p k k', in_letter doc indices k p -> in_letter doc indices k' p -> k = k').
Proof.
  intros indices.
  assert (Hsorted : StronglySorted lt indices) by apply filter_seq_increasing.
  assert (Hend : forall k, end_page_of doc indices k =
            match nth_error indices (S k) with
            | Some next => next - 1
            | None => List.length doc - 1
            end) by (intros k; apply end_page_of_last_page).
  split; [|split; [|split]].
  - intros k a b Ha Hb. rewrite Hend, Hb.
    pose proof (increasing_next _ _ _ _ Hsorted Ha Hb). lia.
  - intros k a Ha Hb. now rewrite Hend, Hb.
  - intros p Hp. split.
    + intros (k & start & Hk & Hs & _).
      destruct indices as [|first rest] eqn:Ei; [destruct k; discriminate|].
      exists first. split; [reflexivity|].
      assert (first <= start); [|lia].
      apply (increasing_le (first :: rest) 0 first start Hsorted eq_refl).
      simpl. apply nth_error_In in Hk. exact Hk.
    + intros (first & Hhd & Hle).
      destruct (letters_cover (List.length doc) indices p first Hhd Hle Hp)
        as (k & start & Hk & Hs & He).
      exists k, start. rewrite Hend. auto.
  - assert (Hlt : forall p k k', k < k' ->
              in_letter doc indices k p -> in_letter doc indices k' p -> False).
    { intros p k k' Hkk (s1 & Hk1 & Hs1 & He1) (s2 & Hk2 & Hs2 & _).
      rewrite Hend in He1.
      destruct (nth_error indices (S k)) as [next|] eqn:En.
      - pose proof (increasing_next _ _ _ _ Hsorted Hk1 En) as Hn.
        assert (next <= s2); [|lia].
        apply (increasing_le indices (S k) next s2 Hsorted En).
        assert (Hsk : nth_error (skipn (S k) indices) (k' - S k) = Some s2).
        { rewrite nth_error_skipn. replace (S k + (k' - S k)) with k' by lia.
          exact Hk2. }
        eapply nth_error_In; eauto.
      - apply nth_error_None in En.
        assert (k' < List.length indices) by (apply nth_error_Some; congruence).
        lia. }
    intros p k k' H1 H2.
    destruct (Nat.lt_total k k') as [H | [H | H]]; [|exact H|].
    + exfalso. eapply Hlt; eauto.
    + exfalso. eapply Hlt; eauto.
Qed.

(** * The further properties at sample inputs *)

(** The three sample documents, every box checked. *)
Lemma fresh_matches_sent_as_checked_sample :
  exists matches unmatched,
    run_matching sample_scorer sample_files sample_table = Ok (matches, unmatched) /\
    selected_matches (apply_checkboxes (fun _ => true) matches) = matches.
Proof.
  destruct (fresh_matches_sent_as_checked sample_scorer sample_files sample_table
              (fun _ => true)) as (matches & unmatched & E & _ & _ & H).
  exists matches, unmatched. split; [exact E|].
  apply H. intros i Hi. reflexivity.
Defined.

(** Five items, the cancel action landing while the last one is sent. *)
Lemma cancel_during_last_item_sample :
  let w := sample_world (Some 4) None in
  (forall i, i + 1 < List.length sample_selected ->
     cancel_during_send w i = false /\ cancel_during_sleep w i = false) /\
  snd (fst (on_send w 2 sample_session sample_selected)) = Completed /\
  List.length (send_log (fst (fst (on_send w 2 sample_session sample_selected))))
    = 5.
Proof.
  intros w.
  assert (H : forall i, i + 1 < List.length sample_selected ->
             cancel_during_send w i = false /\ cancel_during_sleep w i = false).
  { intros i Hi. simpl in Hi.
    do 4 (destruct i as [|i]; [split; reflexivity|]). lia. }
  pose proof (cancel_during_last_item_is_late w 2 sample_session
                sample_selected H) as T.
  destruct (on_send w 2 sample_session sample_selected) as [[s' t] tr].
  destruct T as (Ht & Hl & _). split; [exact H|]. split; [exact Ht|].
  simpl. rewrite Hl. reflexivity.
Defined.

(** Five items, the cancel action landing while the second is sent: two
    sends, one pause, the notice. *)
Lemma cancel_during_send_skips_pause_sample :
  let w := sample_world (Some 1) None in
  (forall i, i < 1 ->
     cancel_during_send w i = false /\ cancel_during_sleep w i = false) /\
  cancel_during_send w 1 = true /\
  1 + 1 < List.length sample_selected /\
  snd (on_send w 2 sample_session sample_selected)
  = [Sent_ 0 "c0@example.com" "d0" 0; Slept 2; Sent_ 1 "c1@example.com" "d1" 1;
     CancelNotice 2].
Proof.
  intros w.
  assert (H1 : forall i, i < 1 ->
             cancel_during_send w i = false /\ cancel_during_sleep w i = false).
  { intros i Hi. assert (i = 0) by lia. subst i. split; reflexivity. }
  assert (H2 : cancel_during_send w 1 = true) by reflexivity.
  assert (H3 : 1 + 1 < List.length sample_selected) by (simpl; lia).
  pose proof (cancel_during_send_skips_pause w 2 sample_session
                sample_selected 1 H1 H2 H3) as T.
  destruct (on_send w 2 sample_session sample_selected) as [[s' t] tr].
  split; [exact H1|]. split; [exact H2|]. split; [exact H3|].
  simpl. rewrite T. reflexivity.
Defined.

(** A document two directories down in the ZIP. *)
Lemma zip_key_round_trip_sample :
  is_pdf_entry "cartas/2023/ACME SL.pdf" = true /\
  pdf_key "cartas/2023/ACME SL.pdf" = "ACME SL" /\
  L (safe_filename (pdf_key "cartas/2023/ACME SL.pdf"))
  = last_component (L "cartas/2023/ACME SL.pdf").
Proof.
  destruct (zip_key_round_trip "cartas/2023/ACME SL.pdf" eq_refl) as (_ & _ & H).
  split; [reflexivity|]. split; [reflexivity|]. apply H. reflexivity.
Defined.

(** A text of separators only. *)
Lemma normalize_without_word_sample :
  Forall (fun c => is_punct c || Char.is_space c = true) (L " .,;-_ /") /\
  normalize " .,;-_ /" = "".
Proof.
  assert (H : Forall (fun c => is_punct c || Char.is_space c = true)
                     (L " .,;-_ /")) by (repeat constructor).
  split; [exact H|]. exact (normalize_without_word_is_empty " .,;-_ /" H).
Defined.

(** A name followed by its legal form in capitals. *)
Lemma normalize_ignores_trailing_suffix_sample :
  In (Str.lower (L "SL")) [L "sl"; L "sa"; L "slu"] /\
  normalize ("Acme" ++ " " ++ "SL") = normalize "Acme".
Proof.
  assert (H : In (Str.lower (L "SL")) [L "sl"; L "sa"; L "slu"])
    by (left; reflexivity).
  split; [exact H|]. exact (normalize_ignores_trailing_suffix "Acme" "SL" H).
Defined.

(** A name without underscore, normalized twice. *)
Lemma normalize_idempotent_sample :
  has_char "_" "Acme, S.L." = false /\
  normalize (normalize "Acme, S.L.") = normalize "Acme, S.L.".
Proof.
  split; [reflexivity|].
  apply normalize_idempotent_without_underscore. reflexivity.
Defined.

(** The key of the first letter of a document of two. *)
Lemma split_keys_are_file_names_sample :
  Dict.get "ACME" (split_pdf_by_cif doc_two_letters "B1") = Some (mkLetter 0 2) /\
  "ACME" <> "" /\
  (forall c, In c (L "ACME") -> is_illegal c = false).
Proof.
  assert (H : Dict.get "ACME" (split_pdf_by_cif doc_two_letters "B1")
              = Some (mkLetter 0 2)) by (vm_compute; reflexivity).
  destruct (split_keys_are_file_names doc_two_letters "B1" "ACME" _ H)
    as (H1 & H2 & _).
  split; [exact H|]. split; assumption.
Defined.

(** The labels of the first two letters. *)
Lemma cliente_default_distinct_sample :
  0 <> 1 /\ cliente_default 0 <> cliente_default 1.
Proof.
  assert (H : 0 <> 1) by lia.
  split; [exact H|]. exact (cliente_default_distinct 0 1 H).
Defined.
